(** * Presidente: the server-side match engine ([server.js], class [GameState])

    A shallow embedding of the authoritative game state kept by the
    Socket.IO server, and the properties of its deck, turn order, play
    validation, round closure and finish bookkeeping. *)

From Stdlib Require Import ZArith Lia.
From stdpp Require Import base decidable option list sets gmap strings.

Local Open Scope string_scope.
Local Open Scope list_scope.
Local Open Scope nat_scope.

(** ** Data model *)

(** A card is the object [{ suit, value }] pushed by [createDeck]; cards sent
    by a client are objects of the same shape with arbitrary contents. *)
Record Card := mkCard { suit : string; value : Z }.

#[global] Instance Card_eq_dec : EqDecision Card.
Proof. solve_decision. Defined.

(** The comment on [gamePhase] lists four phases; the server only ever
    assigns ['playing'] and ['gameOver']. *)
Inductive Phase := waiting | playing | roundEnd | gameOver.

#[global] Instance Phase_eq_dec : EqDecision Phase.
Proof. solve_decision. Defined.

(** An entry of [room.players], as passed to the constructor. *)
Record PlayerInfo := mkInfo { info_id : string; info_name : string }.

Record Player := mkPlayer {
  id : string;
  name : string;
  index : nat;
  hand : list Card;
  isWinner : bool;
  finishPosition : option nat
}.

(** The fields of [GameState].  [gameWinner] ... [gameLoser] hold references
    to player objects of [players]; a reference is modelled as the seat of
    the player it points to, so that later mutations of the player stay
    visible through it.  [playersWhoSkipped] is a JS [Set] of seats. *)
Record GameState := mkGame {
  players : list Player;
  deck : list Card;
  currentPlayerIndex : nat;
  currentRound : nat;
  centerCards : list Card;
  lastPlayedCards : list Card;
  currentHighestCard : option Card;
  currentHighestCards : list Card;
  roundWinner : option string;
  roundLeader : option nat;
  playersWhoSkipped : gset nat;
  consecutiveSkips : nat;
  finishedPlayers : nat;
  gamePhase : Phase;
  gameWinner : option nat;
  gameSecond : option nat;
  gameThird : option nat;
  gameLoser : option nat
}.

(** Field updates, one per assignment target of the source. *)
Definition set_players (ps : list Player) (g : GameState) : GameState :=
  mkGame ps (deck g) (currentPlayerIndex g) (currentRound g) (centerCards g)
    (lastPlayedCards g) (currentHighestCard g) (currentHighestCards g)
    (roundWinner g) (roundLeader g) (playersWhoSkipped g) (consecutiveSkips g)
    (finishedPlayers g) (gamePhase g) (gameWinner g) (gameSecond g)
    (gameThird g) (gameLoser g).

Definition set_currentPlayerIndex (i : nat) (g : GameState) : GameState :=
  mkGame (players g) (deck g) i (currentRound g) (centerCards g)
    (lastPlayedCards g) (currentHighestCard g) (currentHighestCards g)
    (roundWinner g) (roundLeader g) (playersWhoSkipped g) (consecutiveSkips g)
    (finishedPlayers g) (gamePhase g) (gameWinner g) (gameSecond g)
    (gameThird g) (gameLoser g).

Definition set_currentRound (n : nat) (g : GameState) : GameState :=
  mkGame (players g) (deck g) (currentPlayerIndex g) n (centerCards g)
    (lastPlayedCards g) (currentHighestCard g) (currentHighestCards g)
    (roundWinner g) (roundLeader g) (playersWhoSkipped g) (consecutiveSkips g)
    (finishedPlayers g) (gamePhase g) (gameWinner g) (gameSecond g)
    (gameThird g) (gameLoser g).

Definition set_playersWhoSkipped (s : gset nat) (g : GameState) : GameState :=
  mkGame (players g) (deck g) (currentPlayerIndex g) (currentRound g)
    (centerCards g) (lastPlayedCards g) (currentHighestCard g)
    (currentHighestCards g) (roundWinner g) (roundLeader g) s
    (consecutiveSkips g) (finishedPlayers g) (gamePhase g) (gameWinner g)
    (gameSecond g) (gameThird g) (gameLoser g).

Definition set_hand (h : list Card) (p : Player) : Player :=
  mkPlayer (id p) (name p) (index p) h (isWinner p) (finishPosition p).

Definition set_finishPosition (n : nat) (p : Player) : Player :=
  mkPlayer (id p) (name p) (index p) (hand p) (isWinner p) (Some n).

Definition set_isWinner (b : bool) (p : Player) : Player :=
  mkPlayer (id p) (name p) (index p) (hand p) b (finishPosition p).

(** ** The random source

    [Math.random()] is an oracle: [rand k] stands for the [k]-th call made
    while a match is created, and [Math.floor(Math.random() * n)], an integer
    of [[0, n)], is read off it by [randomBelow].  For [n = 0] the product is
    [0]. *)
Definition randomBelow (r n : nat) : nat :=
  if decide (n = 0) then 0 else r mod n.

(** ** Deck: [createDeck], [shuffle], [dealCards] *)

Definition suits : list string := ["hearts"; "diamonds"; "clubs"; "spades"].
Definition values : list Z := [3; 4; 5; 6; 7; 8; 9; 10; 11; 12; 13; 14; 15]%Z.

(** The deck as the two nested [forEach] loops push it, before shuffling. *)
Definition orderedDeck : list Card :=
  s ← suits; v ← values; [mkCard s v].

(** [[deck[i], deck[j]] = [deck[j], deck[i]]] for indices inside the array. *)
Definition swap (d : list Card) (i j : nat) : list Card :=
  match d !! i, d !! j with
  | Some x, Some y => <[j := x]> (<[i := y]> d)
  | _, _ => d
  end.

(** The loop [for (i = length - 1; i > 0; i--)] of [shuffle]; [k] counts the
    calls of [Math.random] made so far. *)
Fixpoint shuffle_from (rand : nat → nat) (i k : nat) (d : list Card) : list Card :=
  match i with
  | 0 => d
  | S i' =>
      let j := randomBelow (rand k) (i + 1) in
      shuffle_from rand i' (S k) (swap d i j)
  end.

Definition shuffle (rand : nat → nat) (d : list Card) : list Card :=
  shuffle_from rand (length d - 1) 0 d.

Definition createDeck (rand : nat → nat) : list Card :=
  shuffle rand orderedDeck.

(** [this.players.forEach(player => player.hand = this.deck.splice(0, 13))]:
    the players processed so far, and what is left of the deck. *)
Fixpoint dealCards (ps : list Player) (d : list Card) : list Player * list Card :=
  match ps with
  | [] => ([], d)
  | p :: ps' =>
      let '(ps'', d') := dealCards ps' (drop 13 d) in
      (set_hand (take 13 d) p :: ps'', d')
  end.

(** The constructor.  [createDeck] makes [length orderedDeck - 1] calls of
    [Math.random]; the next call picks the starting seat. *)
Definition newGameState (rand : nat → nat) (infos : list PlayerInfo) : GameState :=
  let ps := imap (λ i p, mkPlayer (info_id p) (info_name p) i [] false None) infos in
  let '(ps', d') := dealCards ps (createDeck rand) in
  mkGame ps' d'
    (randomBelow (rand (length orderedDeck - 1)) (length infos))
    0 [] [] None [] None None ∅ 0 0 playing None None None None.

(** ** Play validation: [canPlayCards] *)

(** [c.suit === card.suit && c.value === card.value], the test used by
    [find] and [findIndex] on a hand. *)
Definition sameCard (card c : Card) : Prop :=
  suit c = suit card ∧ value c = value card.

#[global] Instance sameCard_dec card c : Decision (sameCard card c).
Proof. unfold sameCard. apply _. Defined.

(** [cards.every(card => card.value === firstCardValue)] *)
Definition sameValue (cards : list Card) : bool :=
  match cards with
  | [] => true
  | first :: _ => forallb (λ card, bool_decide (value card = value first)) cards
  end.

(** [canPlayCards(player, cards)].  [None] is the [TypeError] raised when
    [this.players[this.currentPlayerIndex]] is [undefined]. *)
Definition canPlayCards (g : GameState) (player : Player) (cards : list Card)
  : option bool :=
  current ← players g !! currentPlayerIndex g;
  Some (
    if decide (id current ≠ id player) then false
    else match cards with
    | [] => false
    | first :: _ =>
        if negb (sameValue cards) then false
        else match currentHighestCards g with
        | [] => true
        | highest :: _ =>
            if decide (length cards ≠ length (currentHighestCards g)) then false
            else bool_decide (value first > value highest)%Z
        end
    end).

(** ** Turn advancement: [endRound], [nextTurn] *)

(** [endRound()].  [this.players[this.roundLeader]] is [undefined] when
    [roundLeader] is [null] or out of range, which selects the fallback
    branch.  There [(currentPlayerIndex + 1) % players.length] is taken with
    at least one player. *)
Definition endRound (g : GameState) : GameState :=
  match roundLeader g ≫= (players g !!.) with
  | Some winner =>
      mkGame (players g) (deck g)
        (default 0 (roundLeader g))  (* currentPlayerIndex = roundWinnerIndex *)
        0                            (* currentRound *)
        []                           (* centerCards *)
        []                           (* lastPlayedCards *)
        None                         (* currentHighestCard *)
        []                           (* currentHighestCards *)
        (Some (id winner))           (* roundWinner *)
        (roundLeader g)
        ∅                            (* playersWhoSkipped.clear() *)
        0                            (* consecutiveSkips *)
        (finishedPlayers g) (gamePhase g) (gameWinner g) (gameSecond g)
        (gameThird g) (gameLoser g)
  | None =>
      set_currentPlayerIndex
        ((currentPlayerIndex g + 1) mod length (players g)) g
  end.

(** [this.players[i].finishPosition !== null]; the loop of [nextTurn] only
    evaluates it at seats below [players.length]. *)
Definition finishedAt (ps : list Player) (i : nat) : bool :=
  match ps !! i with
  | Some p => bool_decide (finishPosition p ≠ None)
  | None => false
  end.

(** The [do ... while] loop of [nextTurn].  [left] is
    [maxAttempts - attempts] on entry of the body; the body runs once more
    even when it is [0] (a [do] loop), then breaks. *)
Fixpoint nextSeat (ps : list Player) (left cur : nat) : nat :=
  let cur' := (cur + 1) mod length ps in
  match left with
  | 0 => cur'
  | S left' =>
      if decide (left' = 0) then cur'                 (* attempts >= maxAttempts *)
      else if finishedAt ps cur' then nextSeat ps left' cur'
      else cur'
  end.

(** [this.players.filter(p => p.finishPosition === null)] *)
Definition activePlayers (ps : list Player) : list Player :=
  filter (λ p, finishPosition p = None) ps.

(** [nextTurn()]: the seat moves, the turn counter of the round goes up, and
    the round ends when it has reached the number of active players. *)
Definition nextTurn (g : GameState) : GameState :=
  let g1 := set_currentPlayerIndex
              (nextSeat (players g) (length (players g)) (currentPlayerIndex g)) g in
  let g2 := set_currentRound (currentRound g1 + 1) g1 in
  if decide (length (activePlayers (players g2)) ≤ currentRound g2)
  then endRound g2 else g2.

(** ** Finishing: [handlePlayerFinished] *)

(** [player] is the object [this.players[playerIndex]]. *)
Definition handlePlayerFinished (g : GameState) (playerIndex : nat) : GameState :=
  let n := finishedPlayers g + 1 in
  let ps1 := alter (set_finishPosition n) playerIndex (players g) in
  (* the [switch] on [this.finishedPlayers] *)
  let ps2 := if decide (n = 1) then alter (set_isWinner true) playerIndex ps1
             else ps1 in
  let winner := if decide (n = 1) then Some playerIndex else gameWinner g in
  let second := if decide (n = 2) then Some playerIndex else gameSecond g in
  let third := if decide (n = 3) then Some playerIndex else gameThird g in
  let loser := if decide (n = 4) then Some playerIndex else gameLoser g in
  let phase := if decide (n = 4) then gameOver else gamePhase g in
  (* [activePlayers.length <= 1 && activePlayers[0]] *)
  match list_find (λ p, finishPosition p = None) ps2 with
  | Some (last, _) =>
      if decide (length (activePlayers ps2) ≤ 1) then
        mkGame (alter (set_finishPosition (length ps2)) last ps2) (deck g)
          (currentPlayerIndex g) (currentRound g) (centerCards g)
          (lastPlayedCards g) (currentHighestCard g) (currentHighestCards g)
          (roundWinner g) (roundLeader g) (playersWhoSkipped g)
          (consecutiveSkips g) n gameOver winner second third
          (match loser with Some l => Some l | None => Some last end)
      else
        mkGame ps2 (deck g)
          (currentPlayerIndex g) (currentRound g) (centerCards g)
          (lastPlayedCards g) (currentHighestCard g) (currentHighestCards g)
          (roundWinner g) (roundLeader g) (playersWhoSkipped g)
          (consecutiveSkips g) n phase winner second third loser
  | None =>
      mkGame ps2 (deck g)
        (currentPlayerIndex g) (currentRound g) (centerCards g)
        (lastPlayedCards g) (currentHighestCard g) (currentHighestCards g)
        (roundWinner g) (roundLeader g) (playersWhoSkipped g)
        (consecutiveSkips g) n phase winner second third loser
  end.

(** ** Playing: [playCards] *)

(** The validation loop: every requested card is found in the hand. *)
Definition hasCards (h : list Card) (cards : list Card) : bool :=
  forallb (λ card, bool_decide (is_Some (list_find (sameCard card) h))) cards.

(** The removal loop.  [inl (hand, playedCards)] when every card was spliced
    out; [inr hand] when a [findIndex] gave [-1], with the hand as the
    put-back [push]es leave it. *)
Fixpoint removeCards (h playedCards cards : list Card)
  : (list Card * list Card) + list Card :=
  match cards with
  | [] => inl (h, playedCards)
  | card :: rest =>
      match list_find (sameCard card) h with
      | Some (i, c) => removeCards (delete i h) (playedCards ++ [c]) rest
      | None => inr (h ++ playedCards)
      end
  end.

(** [playCards(playerIndex, cards)]: the returned boolean and the state the
    call leaves behind.  [None] is a [TypeError]: [players[playerIndex]] or
    [players[currentPlayerIndex]] is [undefined]; nothing has been written
    when it is raised. *)
Definition playCards (g : GameState) (playerIndex : nat) (cards : list Card)
  : option (bool * GameState) :=
  current ← players g !! currentPlayerIndex g;
  player ← players g !! playerIndex;
  ok ← canPlayCards g player cards;
  if negb ok then Some (false, g)
  else if negb (hasCards (hand player) cards) then Some (false, g)
  else match removeCards (hand player) [] cards with
  | inr h' =>
      Some (false, set_players (<[playerIndex := set_hand h' player]> (players g)) g)
  | inl (h', playedCards) =>
      let g1 :=
        mkGame (<[playerIndex := set_hand h' player]> (players g)) (deck g)
          (currentPlayerIndex g) (currentRound g)
          playedCards                (* centerCards *)
          playedCards                (* lastPlayedCards *)
          (head playedCards)         (* currentHighestCard *)
          playedCards                (* currentHighestCards *)
          (Some (id player))         (* roundWinner *)
          (Some playerIndex)         (* roundLeader *)
          ∅                          (* playersWhoSkipped.clear() *)
          0                          (* consecutiveSkips *)
          (finishedPlayers g) (gamePhase g) (gameWinner g) (gameSecond g)
          (gameThird g) (gameLoser g) in
      let g2 := if decide (h' = []) then handlePlayerFinished g1 playerIndex
                else g1 in
      Some (true, nextTurn g2)
  end.

(** ** Skipping: [skipTurn] and its socket handler *)

(** [this.players.findIndex(pl => pl.id === p.id)], then [Set.has]:
    [-1] is in no set. *)
Definition hasSkipped (g : GameState) (p : Player) : bool :=
  match list_find (λ pl, id pl = id p) (players g) with
  | Some (playerIdx, _) => bool_decide (playerIdx ∈ playersWhoSkipped g)
  | None => false
  end.

(** [skipTurn()]; [None] is the [TypeError] of [currentPlayer.name] on an
    [undefined] current player. *)
Definition skipTurn (g : GameState) : option GameState :=
  currentPlayer ← players g !! currentPlayerIndex g;
  let g1 := set_playersWhoSkipped ({[currentPlayerIndex g]} ∪ playersWhoSkipped g) g in
  let g2 := nextTurn g1 in
  Some (
    match roundLeader g2 with
    | None => endRound g2
    | Some leader =>
        if decide (currentPlayerIndex g2 = leader) then endRound g2
        else
          let others :=
            filter (λ ip, finishPosition ip.2 = None ∧ ip.1 ≠ leader)
                   (imap pair (players g2)) in
          if forallb (λ ip, hasSkipped g2 ip.2) others then endRound g2
          else g2
    end).

(** The ['playCards'] handler, after the room and the sender's seat have been
    looked up: the engine decides. *)
Definition onPlayCards (g : GameState) (playerIndex : nat) (cards : list Card)
  : option (bool * GameState) :=
  playCards g playerIndex cards.

(** The ['skipTurn'] handler: a sender who is not the current seat is turned
    away before the engine is called.  The boolean tells whether the skip was
    applied. *)
Definition onSkipTurn (g : GameState) (playerIndex : nat)
  : option (bool * GameState) :=
  if decide (playerIndex ≠ currentPlayerIndex g) then Some (false, g)
  else g' ← skipTurn g; Some (true, g').

(** ** What the clients are told: [getState], [getPlayerHand] *)

(** An entry of [getState().players]: of the hand only the size is told. *)
Record PlayerView := mkPlayerView {
  view_id : string;
  view_name : string;
  view_index : nat;
  handCount : nat;
  view_isWinner : bool;
  view_finishPosition : option nat
}.

(** [{ id, name, index }], what is told of the player object that
    [gameWinner] ... [gameLoser] refer to. *)
Record PlayerRef := mkPlayerRef {
  ref_id : string;
  ref_name : string;
  ref_index : nat
}.

(** The object [getState] returns.  The deck, the skips and the count of
    finished players are not part of it. *)
Record PublicState := mkPublicState {
  pub_players : list PlayerView;
  pub_currentPlayerIndex : nat;
  pub_currentRound : nat;
  pub_centerCards : list Card;
  pub_lastPlayedCards : list Card;
  pub_currentHighestCard : option Card;
  pub_currentHighestCards : list Card;
  pub_roundWinner : option string;
  pub_roundLeader : option nat;
  pub_gamePhase : Phase;
  pub_gameWinner : option PlayerRef;
  pub_gameSecond : option PlayerRef;
  pub_gameThird : option PlayerRef;
  pub_gameLoser : option PlayerRef
}.

Definition playerView (p : Player) : PlayerView :=
  mkPlayerView (id p) (name p) (index p) (length (hand p)) (isWinner p)
    (finishPosition p).

(** [this.gameWinner ? { id, name, index } : null] and its like.  The field
    refers to a player object of [players]; [handlePlayerFinished] only ever
    stores the seat of such an object. *)
Definition playerRef (g : GameState) (field : option nat) : option PlayerRef :=
  seat ← field; p ← players g !! seat;
  Some (mkPlayerRef (id p) (name p) (index p)).

Definition getState (g : GameState) : PublicState :=
  mkPublicState (playerView <$> players g)
    (currentPlayerIndex g) (currentRound g) (centerCards g) (lastPlayedCards g)
    (currentHighestCard g) (currentHighestCards g) (roundWinner g)
    (roundLeader g) (gamePhase g)
    (playerRef g (gameWinner g)) (playerRef g (gameSecond g))
    (playerRef g (gameThird g)) (playerRef g (gameLoser g)).

(** [getPlayerHand(playerId)]: the hand of the first player with that id, or
    an empty array. *)
Definition getPlayerHand (g : GameState) (playerId : string) : list Card :=
  match list_find (λ p, id p = playerId) (players g) with
  | Some (_, player) => hand player
  | None => []
  end.

(** ** Rooms: [joinRoom], the game handlers, [disconnecting] *)

Definition MAX_PLAYERS : nat := 4.

(** An entry [{ id, name, index }] of [room.players]. *)
Record RoomPlayer := mkRoomPlayer {
  rp_id : string;
  rp_name : string;
  rp_index : nat
}.

(** [room.status].  ['full'] is named in a comment of [joinRoom]; nothing
    assigns it. *)
Inductive RoomStatus := status_waiting | status_full | status_in_progress.

#[global] Instance RoomStatus_eq_dec : EqDecision RoomStatus.
Proof. solve_decision. Defined.

Record Room := mkRoom {
  room_players : list RoomPlayer;
  room_gameState : option GameState;
  room_status : RoomStatus
}.

(** What the constructor of [GameState] reads of an entry. *)
Definition playerInfo (p : RoomPlayer) : PlayerInfo :=
  mkInfo (rp_id p) (rp_name p).

(** The ['gameState'] message: [getState()] spread out, with [yourHand],
    [yourIndex] and, in the first message of a match, [playerCount]. *)
Record GameStateMessage := mkMessage {
  msg_state : PublicState;
  yourHand : list Card;
  yourIndex : nat;
  playerCount : option nat
}.

(** [io.to(player.id).emit('gameState', ...)]: the recipient and the
    message. *)
Definition messageFor (gs : GameState) (count : option nat) (player : RoomPlayer)
  : string * GameStateMessage :=
  (rp_id player,
   mkMessage (getState gs) (getPlayerHand gs (rp_id player)) (rp_index player)
     count).

(** [room.players.forEach(player => ...)] around it. *)
Definition broadcast (room : Room) (gs : GameState) (count : option nat)
  : list (string * GameStateMessage) :=
  messageFor gs count <$> room_players room.


(** How a call of the ['joinRoom'] handler ends. *)
Inductive JoinOutcome :=
  | gameAlreadyStarted
  | alreadyInRoom
  | roomFull
  | joined (index : nat) (gameStarting : bool).

(** The ['joinRoom'] handler of the socket with id [socket]: the rooms it
    leaves and how it ended.  [rand] stands for the calls of [Math.random]
    made by the constructor of [GameState], which cannot throw: the [catch]
    branch is not taken.  [rooms] is an object used as a map; room ids that
    name a property every object inherits are left aside. *)
Definition joinRoom (rand : nat → nat) (rooms : gmap string Room)
    (socket roomId name : string) : gmap string Room * JoinOutcome :=
  let room := default (mkRoom [] None status_waiting) (rooms !! roomId) in
  let rooms := <[roomId := room]> rooms in
  if decide (room_status room = status_in_progress) then (rooms, gameAlreadyStarted)
  else if bool_decide (is_Some (list_find (λ p, rp_id p = socket) (room_players room)))
  then (rooms, alreadyInRoom)
  else if decide (MAX_PLAYERS ≤ length (room_players room)) then (rooms, roomFull)
  else
    let playerIndex := length (room_players room) in
    let ps := room_players room ++ [mkRoomPlayer socket name playerIndex] in
    if decide (length ps = MAX_PLAYERS ∧ room_status room ≠ status_in_progress)
    then
      (<[roomId := mkRoom ps (Some (newGameState rand (playerInfo <$> ps)))
                     status_in_progress]> rooms,
       joined playerIndex true)
    else
      (<[roomId := mkRoom ps (room_gameState room) (room_status room)]> rooms,
       joined playerIndex false).

(** The ['playCards'] handler: the room and the sender's place in
    [room.players] are looked up, the engine is asked, and an accepted play is
    told to the players of the room.  [None] is a [TypeError] of the
    engine. *)
Definition socket_playCards (rooms : gmap string Room) (socket roomId : string)
    (cards : list Card)
  : option (gmap string Room * list (string * GameStateMessage)) :=
  match rooms !! roomId with
  | None => Some (rooms, [])
  | Some room =>
      match room_gameState room with
      | None => Some (rooms, [])
      | Some gs =>
          match list_find (λ p, rp_id p = socket) (room_players room) with
          | None => Some (rooms, [])
          | Some (playerIndex, _) =>
              '(ok, gs') ← onPlayCards gs playerIndex cards;
              Some (<[roomId := mkRoom (room_players room) (Some gs')
                                  (room_status room)]> rooms,
                    if ok : bool then broadcast room gs' None else [])
          end
      end
  end.

(** The ['skipTurn'] handler. *)
Definition socket_skipTurn (rooms : gmap string Room) (socket roomId : string)
  : option (gmap string Room * list (string * GameStateMessage)) :=
  match rooms !! roomId with
  | None => Some (rooms, [])
  | Some room =>
      match room_gameState room with
      | None => Some (rooms, [])
      | Some gs =>
          match list_find (λ p, rp_id p = socket) (room_players room) with
          | None => Some (rooms, [])
          | Some (playerIndex, _) =>
              '(applied, gs') ← onSkipTurn gs playerIndex;
              Some (<[roomId := mkRoom (room_players room) (Some gs')
                                  (room_status room)]> rooms,
                    if applied : bool then broadcast room gs' None else [])
          end
      end
  end.

(** The ['disconnecting'] handler; [socketRooms] lists [socket.rooms]. *)
Definition disconnecting (rooms : gmap string Room) (socket : string)
    (socketRooms : list string) : gmap string Room :=
  foldl (λ rooms r,
    match rooms !! r with
    | Some room =>
        <[r := mkRoom (filter (λ p, rp_id p ≠ socket) (room_players room))
                 (room_gameState room) (room_status room)]> rooms
    | None => rooms
    end) rooms socketRooms.

(** ** The room list: [getAvailableRooms] *)

Inductive ListedStatus := listed_in_game | listed_waiting.

#[global] Instance ListedStatus_eq_dec : EqDecision ListedStatus.
Proof. solve_decision. Defined.

Record RoomEntry := mkRoomEntry {
  entry_id : string;
  entry_count : nat;
  entry_status : ListedStatus
}.

#[global] Instance RoomEntry_eq_dec : EqDecision RoomEntry.
Proof. solve_decision. Defined.

(** [Object.entries(rooms).filter(...).map(...)].  The order of the entries
    is that of the keys of the object; here it is the order of
    [map_to_list]. *)
Definition getAvailableRooms (rooms : gmap string Room) : list RoomEntry :=
  (λ ir : string * Room,
     mkRoomEntry ir.1 (length (room_players ir.2))
       (match room_gameState ir.2 with
        | Some _ => listed_in_game
        | None => listed_waiting
        end))
  <$> filter (λ ir : string * Room,
                length (room_players ir.2) < MAX_PLAYERS ∧
                room_gameState ir.2 = None)
             (map_to_list rooms).

(** * The hot-seat client ([src/client/js/game.js])

    The page keeps a [GameState] of its own for local play.  Its [playCards]
    is the code the server's was taken from; the two differ in what happens
    when a player goes out. *)
Module Client.

Record Card := mkCard { suit : string; rank : string; value : Z }.

#[global] Instance Card_eq_dec : EqDecision Card.
Proof. solve_decision. Defined.

Record Player := mkPlayer {
  name : string;
  id : nat;
  hand : list Card;
  isWinner : bool;
  finishPosition : option nat
}.

(** Players are passed around as objects; an object of [players] is modelled
    as its seat.  [roundWinner] holds a [player.id], which [initializeGame]
    makes the seat. *)
Record GameState := mkGame {
  players : list Player;
  currentPlayerIndex : nat;
  currentRound : nat;
  currentHighestCard : option Card;
  currentHighestCards : list Card;
  roundWinner : option nat;
  gamePhase : Phase;
  zIndex : nat;
  finishedPlayers : nat;
  gameWinner : option nat;
  gameSecond : option nat;
  gameThird : option nat;
  gameLoser : option nat
}.

Definition set_hand (h : list Card) (p : Player) : Player :=
  mkPlayer (name p) (id p) h (isWinner p) (finishPosition p).

(** [Player.markAsFinished(position)] *)
Definition markAsFinished (position : nat) (p : Player) : Player :=
  mkPlayer (name p) (id p) (hand p) (bool_decide (position = 1)) (Some position).

(** [Player.hasNoCards()] *)
Definition hasNoCards (p : Player) : bool := bool_decide (hand p = []).

Definition sameCard (card c : Card) : Prop :=
  suit c = suit card ∧ rank c = rank card ∧ value c = value card.

#[global] Instance sameCard_dec card c : Decision (sameCard card c).
Proof. unfold sameCard. apply _. Defined.

(** [Player.playCard(card)]: the card spliced out and the hand left, or
    [null]. *)
Definition playCard (h : list Card) (card : Card) : option (Card * list Card) :=
  match list_find (sameCard card) h with
  | Some (cardIndex, c) => Some (c, delete cardIndex h)
  | None => None
  end.

Definition sameValue (cards : list Card) : bool :=
  match cards with
  | [] => true
  | first :: _ => forallb (λ card, bool_decide (value card = value first)) cards
  end.

(** [canPlayCards(player, cards)], with [player] the object at [seat].
    [getCurrentPlayer()] is [players[currentPlayerIndex]]: the state has no
    [isWinner] field for its test to read. *)
Definition canPlayCards (g : GameState) (seat : nat) (cards : list Card) : bool :=
  if decide (seat ≠ currentPlayerIndex g) then false
  else match cards with
  | [] => false
  | first :: _ =>
      if negb (sameValue cards) then false
      else match currentHighestCards g with
      | [] => true
      | highest :: _ =>
          if decide (length cards ≠ length (currentHighestCards g)) then false
          else bool_decide (value first > value highest)%Z
      end
  end.

(** [endRound()], without its clearing of the page's centre area. *)
Definition endRound (g : GameState) : GameState :=
  mkGame (players g)
    (match roundWinner g with Some w => w | None => currentPlayerIndex g end)
    0 None [] None
    (gamePhase g) (zIndex g) (finishedPlayers g) (gameWinner g) (gameSecond g)
    (gameThird g) (gameLoser g).

(** [this.players[i].hasNoCards()] *)
Definition emptyHandedAt (ps : list Player) (i : nat) : bool :=
  match ps !! i with Some p => hasNoCards p | None => false end.

(** The [do ... while] loop of [nextPlayer], with [left] attempts to go. *)
Fixpoint nextSeat (ps : list Player) (left cur : nat) : nat :=
  let cur' := (cur + 1) mod length ps in
  match left with
  | 0 => cur'
  | S left' =>
      if decide (left' = 0) then cur'
      else if emptyHandedAt ps cur' then nextSeat ps left' cur'
      else cur'
  end.

(** [nextPlayer()], for a table with players. *)
Definition nextPlayer (g : GameState) : GameState :=
  let g1 :=
    mkGame (players g)
      (nextSeat (players g) (length (players g)) (currentPlayerIndex g))
      (currentRound g + 1) (currentHighestCard g) (currentHighestCards g)
      (roundWinner g) (gamePhase g) (zIndex g) (finishedPlayers g)
      (gameWinner g) (gameSecond g) (gameThird g) (gameLoser g) in
  let activePlayers := length (filter (λ p, hasNoCards p = false) (players g1)) in
  if decide (activePlayers ≤ currentRound g1) then endRound g1 else g1.

(** The removal loop of [playCards]: [inl] when every card was played,
    [inr] with the hand after the put-back otherwise. *)
Fixpoint removeCards (h playedCards cards : list Card)
  : (list Card * list Card) + list Card :=
  match cards with
  | [] => inl (h, playedCards)
  | card :: rest =>
      match playCard h card with
      | Some (c, h') => removeCards h' (playedCards ++ [c]) rest
      | None => inr (h ++ playedCards)
      end
  end.

(** [playCards(player, cards)] with [player] the object at [seat]; [None]
    when there is no such object. *)
Definition playCards (g : GameState) (seat : nat) (cards : list Card)
  : option (bool * GameState) :=
  player ← players g !! seat;
  if negb (canPlayCards g seat cards) then Some (false, g)
  else match removeCards (hand player) [] cards with
  | inr h' =>
      Some (false,
        mkGame (<[seat := set_hand h' player]> (players g))
          (currentPlayerIndex g) (currentRound g) (currentHighestCard g)
          (currentHighestCards g) (roundWinner g) (gamePhase g) (zIndex g)
          (finishedPlayers g) (gameWinner g) (gameSecond g) (gameThird g)
          (gameLoser g))
  | inl (h', playedCards) =>
      let ps1 := <[seat := set_hand h' player]> (players g) in
      let g2 :=
        if decide (h' = []) then
          let n := finishedPlayers g + 1 in
          let ps2 := alter (markAsFinished n) seat ps1 in
          let over := bool_decide (length (players g) ≤ n) in
          mkGame ps2 (currentPlayerIndex g) (currentRound g)
            (* Clear the table so the next active player starts fresh *)
            (if over then head playedCards else None)
            (if over then playedCards else [])
            (Some (id player))
            (if over then gameOver else gamePhase g)
            (zIndex g) n
            (if decide (n = 1) then Some seat else gameWinner g)
            (if decide (n = 2) then Some seat else gameSecond g)
            (if decide (n = 3) then Some seat else gameThird g)
            (if decide (n = 4) then Some seat else gameLoser g)
        else
          mkGame ps1 (currentPlayerIndex g) (currentRound g)
            (head playedCards) playedCards (Some (id player))
            (gamePhase g) (zIndex g) (finishedPlayers g)
            (gameWinner g) (gameSecond g) (gameThird g) (gameLoser g) in
      Some (true, nextPlayer g2)
  end.

(** Two players at the table, the first to play. *)
Definition twoAtTable : GameState :=
  mkGame
    [ mkPlayer "Ana" 0 [mkCard "hearts" "3" 1; mkCard "clubs" "9" 7] false None;
      mkPlayer "Bruno" 1 [mkCard "spades" "K" 11] false None ]
    0 0 None [] None playing 1 0 None None None None.

(** [Card.compareTo(otherCard)] *)
Definition compareTo (c otherCard : Card) : Z :=
  if decide (value c < value otherCard)%Z then (-1)%Z
  else if decide (value c > value otherCard)%Z then 1%Z
  else 0%Z.

(** [Card.canBePlayed(currentHighestCard)] *)
Definition canBePlayed (c : Card) (currentHighestCard : option Card) : bool :=
  match currentHighestCard with
  | None => true
  | Some highest => bool_decide (value c > value highest)%Z
  end.

(** [Deck.createDeck()], which starts from an empty array. *)
Definition suits : list string := ["clubs"; "diamonds"; "hearts"; "spades"].
Definition ranks : list string :=
  ["3"; "4"; "5"; "6"; "7"; "8"; "9"; "10"; "J"; "Q"; "K"; "A"; "2"].
Definition values : list Z := [1; 2; 3; 4; 5; 6; 7; 8; 9; 10; 11; 12; 13]%Z.

Definition createDeck : list Card :=
  suit ← suits; (λ rv : string * Z, mkCard suit rv.1 rv.2) <$> zip ranks values.

Definition swap (cards : list Card) (i j : nat) : list Card :=
  match cards !! i, cards !! j with
  | Some x, Some y => <[j := x]> (<[i := y]> cards)
  | _, _ => cards
  end.

(** The loop of [Deck.shuffle()]; [k] counts the calls of [Math.random]. *)
Fixpoint shuffle_from (rand : nat → nat) (i k : nat) (cards : list Card) : list Card :=
  match i with
  | 0 => cards
  | S i' =>
      let j := randomBelow (rand k) (i + 1) in
      shuffle_from rand i' (S k) (swap cards i j)
  end.

Definition shuffle (rand : nat → nat) (cards : list Card) : list Card :=
  shuffle_from rand (length cards - 1) 0 cards.

(** [Deck.dealCards(numberOfPlayers, cardsPerPlayer)]: the hands are slices
    of the deck, which stays as it is. *)
Definition dealCards (cards : list Card) (numberOfPlayers cardsPerPlayer : nat)
  : list (list Card) :=
  (λ i, take cardsPerPlayer (drop (i * cardsPerPlayer) cards))
  <$> seq 0 numberOfPlayers.

(** [GameState.initializeGame(playerNames)]; the starting seat is drawn by
    the first call of [Math.random]. *)
Definition initializeGame (rand : nat → nat) (playerNames : list string) : GameState :=
  mkGame (imap (λ index name, mkPlayer name index [] false None) playerNames)
    (randomBelow (rand 0) (length playerNames))
    0 None [] None playing 1 0 None None None None.

(** [GameController.startNewGame()] for the names found in the storage:
    nothing is started unless there are four; then the state is initialised,
    the deck is made, shuffled and dealt and every player receives
    [hands[index]].  (A state that was reset before is initialised just the
    same.) *)
Definition startNewGame (rand : nat → nat) (playerNames : list string)
  : option GameState :=
  if decide (length playerNames ≠ 4) then None
  else
    let g := initializeGame rand playerNames in
    let cards := shuffle (λ k, rand (S k)) createDeck in
    let hands := dealCards cards 4 13 in
    Some (mkGame
            (imap (λ index p, set_hand (default [] (hands !! index)) p) (players g))
            (currentPlayerIndex g) (currentRound g) (currentHighestCard g)
            (currentHighestCards g) (roundWinner g) (gamePhase g) (zIndex g)
            (finishedPlayers g) (gameWinner g) (gameSecond g) (gameThird g)
            (gameLoser g)).

(** Ana has played her 3 of hearts: Bruno is to play his only card. *)
Definition anaPlayed : GameState :=
  default twoAtTable (snd <$> playCards twoAtTable 0 [mkCard "hearts" "3" 1]).

End Client.

(** * The first page ([Web Implementation/game.js])

    The page the game started as deals from a [Baralho] of its own.  Its
    [shuffle] swaps two random places a thousand times; the engine does not
    call it. *)
Module Legacy.

Record Carta := mkCarta { naipe : string; rank : string; valor : Z }.

#[global] Instance Carta_eq_dec : EqDecision Carta.
Proof. solve_decision. Defined.

(** The exchange through [tmp], for places inside the array. *)
Definition swap (cartas : list Carta) (location1 location2 : nat) : list Carta :=
  match cartas !! location1, cartas !! location2 with
  | Some tmp, Some other => <[location2 := tmp]> (<[location1 := other]> cartas)
  | _, _ => cartas
  end.

(** The loop [for (i = 0; i < 1000; i++)] with [left] iterations to go; [k]
    counts the calls of [Math.random] made so far. *)
Fixpoint shuffle_from (rand : nat → nat) (left k : nat) (cartas : list Carta)
  : list Carta :=
  match left with
  | 0 => cartas
  | S left' =>
      let location1 := randomBelow (rand k) (length cartas) in
      let location2 := randomBelow (rand (k + 1)) (length cartas) in
      shuffle_from rand left' (k + 2) (swap cartas location1 location2)
  end.

Definition shuffle (rand : nat → nat) (cartas : list Carta) : list Carta :=
  shuffle_from rand 1000 0 cartas.

(** [Baralho.criarBaralho()]: the 52 cards are pushed onto [this.cartas],
    which the method does not empty first. *)
Definition naipes : list string := ["clubs"; "diamonds"; "hearts"; "spades"].
Definition ranks : list string :=
  ["3"; "4"; "5"; "6"; "7"; "8"; "9"; "10"; "J"; "Q"; "K"; "A"; "2"].
Definition valores : list Z := [1; 2; 3; 4; 5; 6; 7; 8; 9; 10; 11; 12; 13]%Z.

Definition criarBaralho (cartas : list Carta) : list Carta :=
  cartas ++ (naipe ← naipes;
             (λ rv : string * Z, mkCarta naipe rv.1 rv.2) <$> zip ranks valores).

(** [Mesa.renderizarBaralho()]: a new [Baralho] is made and shuffled and the
    four players get the slices [0..13], [13..26], [26..39] and [39..52] of
    it.  The hands, in the order of the players. *)
Definition renderizarBaralho (rand : nat → nat) : list (list Carta) :=
  let cartas := shuffle rand (criarBaralho []) in
  [take 13 cartas; take 13 (drop 13 cartas); take 13 (drop 26 cartas);
   take 13 (drop 39 cartas)].

End Legacy.

(** * Vocabulary of the properties *)

(** ** Runs of the shuffle

    A run of [shuffle] on [n] cards makes [n - 1] calls of [Math.random];
    the call made for index [i] yields a [j] of [[0, i]].  The draws of a run
    are in range when each [rand k] already is that [j]. *)
Definition inRange (rand : nat → nat) (n : nat) : Prop :=
  ∀ k, k < n - 1 → rand k ≤ n - 1 - k.




(** ** Answers of [playCards] *)

(** A call of [playCards] is accepted when it returns [true]. *)
Definition accepted (g : GameState) (seat : nat) (cards : list Card) : Prop :=
  ∃ g', playCards g seat cards = Some (true, g').

(** The test of [canPlayCards] once the caller is known to be the current
    player: a non-empty set of one rank that opens on an empty table or has
    the table's size and a higher rank than its first card. *)
Definition beats (g : GameState) (cards : list Card) : bool :=
  match cards with
  | [] => false
  | first :: _ =>
      sameValue cards &&
      match currentHighestCards g with
      | [] => true
      | highest :: _ =>
          bool_decide (length cards = length (currentHighestCards g)) &&
          bool_decide (value first > value highest)%Z
      end
  end.

(** The state [playCards] has written when the removal loop is over, before
    it looks at the hand and advances the turn. *)
Definition afterPlay (g : GameState) (seat : nat) (p : Player)
    (h' playedCards : list Card) : GameState :=
  mkGame (<[seat := set_hand h' p]> (players g)) (deck g)
    (currentPlayerIndex g) (currentRound g) playedCards playedCards
    (head playedCards) playedCards (Some (id p)) (Some seat) ∅ 0
    (finishedPlayers g) (gamePhase g) (gameWinner g) (gameSecond g)
    (gameThird g) (gameLoser g).

(** The state on which it then calls [nextTurn]. *)
Definition afterFinish (g1 : GameState) (seat : nat) (h' : list Card) : GameState :=
  if decide (h' = []) then handlePlayerFinished g1 seat else g1.

(** The first half of [nextTurn]: the seat and the turn counter move. *)
Definition advance (g : GameState) : GameState :=
  set_currentRound (currentRound g + 1)
    (set_currentPlayerIndex
       (nextSeat (players g) (length (players g)) (currentPlayerIndex g)) g).

(** ** Matches and the states they reach *)

(** What a client can ask of the engine through the socket handlers. *)
Inductive Action :=
  | Play (seat : nat) (cards : list Card)
  | Skip (seat : nat).

Definition perform (g : GameState) (a : Action) : option (bool * GameState) :=
  match a with
  | Play seat cards => onPlayCards g seat cards
  | Skip seat => onSkipTurn g seat
  end.

(** A room starts its match when its fourth player joins ([MAX_PLAYERS]);
    [joinRoom] turns away a socket id that is already in the room.  Every
    handled request, applied or not, leaves a state of the match. *)
Inductive reachable : GameState → Prop :=
  | reachable_new rand infos :
      length infos = 4 → NoDup (info_id <$> infos) →
      reachable (newGameState rand infos)
  | reachable_step g a b g' :
      reachable g → perform g a = Some (b, g') → reachable g'.

(** The state after a list of requests, for running examples. *)
Fixpoint run (g : GameState) (actions : list Action) : option GameState :=
  match actions with
  | [] => Some g
  | a :: rest => '(_, g') ← perform g a; run g' rest
  end.

(** ** Invariants of a match *)

(** The seats are fixed: four players with distinct socket ids, and the
    turn and the round leader point at seats. *)
Record seated (g : GameState) : Prop := {
  seated_four : length (players g) = 4;
  seated_ids : NoDup (id <$> players g);
  seated_current : currentPlayerIndex g < 4;
  seated_leader : ∀ l, roundLeader g = Some l → l < 4
}.

(** The finish bookkeeping.  While the match is played, the players without
    a finish position are the ones that hold cards, the positions given so far
    are at most [finishedPlayers], and at least two players are active.  Once
    it is over everybody has a position and the turn rests with the last
    round leader, whose hand is empty. *)
Record bookkept (g : GameState) : Prop := {
  bk_phase : gamePhase g = playing ∨ gamePhase g = gameOver;
  bk_active : ∀ i p, players g !! i = Some p → finishPosition p = None → hand p ≠ [];
  bk_finished : gamePhase g = playing → ∀ i p k,
    players g !! i = Some p → finishPosition p = Some k →
    hand p = [] ∧ 1 ≤ k ≤ finishedPlayers g;
  bk_count : gamePhase g = playing →
    length (activePlayers (players g)) + finishedPlayers g = 4 ∧
    finishedPlayers g ≤ 2;
  bk_over : gamePhase g = gameOver →
    activePlayers (players g) = [] ∧
    ∃ l p, roundLeader g = Some l ∧ currentPlayerIndex g = l ∧
           players g !! l = Some p ∧ hand p = []
}.

(** ** The table, the cards and the turn *)

(** The four fields that hold the cards to beat agree and the cards share one
    rank.  Before the first accepted play of a match ([roundLeader] is still
    [null]) the table is empty and nobody has a finish position. *)
Record tableKept (g : GameState) : Prop := {
  tk_center : centerCards g = currentHighestCards g;
  tk_last : lastPlayedCards g = currentHighestCards g;
  tk_highest : currentHighestCard g = head (currentHighestCards g);
  tk_rank : sameValue (currentHighestCards g) = true;
  tk_opening : roundLeader g = None →
    currentHighestCards g = [] ∧
    ∀ i p, players g !! i = Some p → finishPosition p = None
}.

(** The cards still in the match: the hands, seat by seat, then the table. *)
Definition cardsInPlay (g : GameState) : list Card :=
  concat (hand <$> players g) ++ currentHighestCards g.

(** The state [endRound] leaves behind when the round leader is a seat: the
    leader has the turn, and the table, the skips and the turn counter are
    cleared. *)
Record atRest (g : GameState) : Prop := {
  rest_leader : ∃ l w,
    roundLeader g = Some l ∧ players g !! l = Some w ∧
    currentPlayerIndex g = l ∧ roundWinner g = Some (id w);
  rest_round : currentRound g = 0;
  rest_table :
    centerCards g = [] ∧ lastPlayedCards g = [] ∧
    currentHighestCard g = None ∧ currentHighestCards g = [];
  rest_skips : playersWhoSkipped g = ∅ ∧ consecutiveSkips g = 0
}.

(** The turn only rests on a finished player in such a state. *)
Definition turnKept (g : GameState) : Prop :=
  finishedAt (players g) (currentPlayerIndex g) = true → atRest g.

(** The seat a request is made for. *)
Definition seatOf (a : Action) : nat :=
  match a with Play seat _ => seat | Skip seat => seat end.

(** ** The server and its rooms *)

(** What a socket can ask of the server.  [rand] stands for the calls of
    [Math.random] a new match makes, [socketRooms] for [socket.rooms] at the
    time the socket leaves. *)
Inductive Request :=
  | JoinRoom (rand : nat → nat) (socket roomId name : string)
  | PlayCards (socket roomId : string) (cards : list Card)
  | SkipTurn (socket roomId : string)
  | Disconnecting (socket : string) (socketRooms : list string).

(** The rooms a request leaves and the ['gameState'] messages its handler
    sends; [None] when the handler throws. *)
Definition answer (rooms : gmap string Room) (req : Request)
  : option (gmap string Room * list (string * GameStateMessage)) :=
  match req with
  | JoinRoom rand socket roomId name =>
      Some ((joinRoom rand rooms socket roomId name).1, [])
  | PlayCards socket roomId cards => socket_playCards rooms socket roomId cards
  | SkipTurn socket roomId => socket_skipTurn rooms socket roomId
  | Disconnecting socket socketRooms =>
      Some (disconnecting rooms socket socketRooms, [])
  end.

(** The rooms of a server that started without rooms and has answered
    requests since. *)
Inductive served : gmap string Room → Prop :=
  | served_start : served ∅
  | served_step rooms req rooms' msgs :
      served rooms → answer rooms req = Some (rooms', msgs) → served rooms'.

(** The rooms after a list of requests, for running examples. *)
Fixpoint serveAll (rooms : gmap string Room) (reqs : list Request)
  : option (gmap string Room) :=
  match reqs with
  | [] => Some rooms
  | req :: rest => '(rooms', _) ← answer rooms req; serveAll rooms' rest
  end.

(** A room in order: at most four players with distinct socket ids, a match
    exactly when the status is ['in-progress'], begun when the fourth player
    came in; the match is in a state matches reach, and the players of the
    room are players of the match, in the order of their seats. *)
Record roomKept (room : Room) : Prop := {
  rk_size : length (room_players room) ≤ MAX_PLAYERS;
  rk_ids : NoDup (rp_id <$> room_players room);
  rk_status : room_status room ≠ status_full;
  rk_started :
    room_status room = status_in_progress ↔ is_Some (room_gameState room);
  rk_full :
    length (room_players room) = MAX_PLAYERS →
    room_status room = status_in_progress;
  rk_state : ∀ gs, room_gameState room = Some gs →
    reachable gs ∧ rp_id <$> room_players room `sublist_of` id <$> players gs
}.

(** The fields that say nothing new: the deck is dealt out, no skip is ever
    counted in [consecutiveSkips], and [roundWinner] is the socket id of the
    round leader. *)
Definition idle (g : GameState) : Prop :=
  deck g = [] ∧ consecutiveSkips g = 0 ∧
  roundWinner g = roundLeader g ≫= ((id <$> players g) !!.).

(** ** The podium *)

(** The player at seat [i] has finish position [k]. *)
Definition positionAt (g : GameState) (i k : nat) : Prop :=
  finishPosition <$> players g !! i = Some (Some k).

(** What the podium tells of a player. *)
Definition standing (p : Player) : option nat * bool :=
  (finishPosition p, isWinner p).

(** [gameWinner], [gameSecond], [gameThird] and [gameLoser] refer to the
    players with the positions 1, 2, 3 and 4, and [isWinner] marks the
    first. *)
Record podiumKept (g : GameState) : Prop := {
  pk_winner : ∀ i, gameWinner g = Some i ↔ positionAt g i 1;
  pk_second : ∀ i, gameSecond g = Some i ↔ positionAt g i 2;
  pk_third : ∀ i, gameThird g = Some i ↔ positionAt g i 3;
  pk_loser : ∀ i, gameLoser g = Some i ↔ positionAt g i 4;
  pk_isWinner : ∀ i p, players g !! i = Some p →
    (isWinner p = true ↔ finishPosition p = Some 1)
}.

(** ** Playing a match to its end *)

(** The cards left in the hands. *)
Definition cardsLeft (g : GameState) : nat :=
  length (concat (hand <$> players g)).

(** A request that moves a match on.  The current player leads the first card
    of the hand when the table is empty; a player who faces cards on the
    table, or who is out, skips. *)
Definition moveOn (g : GameState) : Action :=
  let seat := currentPlayerIndex g in
  match players g !! seat with
  | Some p =>
      match finishPosition p, currentHighestCards g, hand p with
      | None, [], card :: _ => Play seat [card]
      | _, _, _ => Skip seat
      end
  | None => Skip seat
  end.

(** How many requests of that kind it takes at most until a card is led:
    none when the current player can lead, one when a player who is out has to
    skip first, and otherwise the skips that end the round. *)
Definition turnsToLead (g : GameState) : nat :=
  match currentHighestCards g with
  | [] => if finishedAt (players g) (currentPlayerIndex g) then 1 else 0
  | _ => 2 + (length (activePlayers (players g)) - currentRound g)
  end.

(** A bound on the requests it takes to end the match. *)
Definition toGo (g : GameState) : nat := 8 * cardsLeft g + turnsToLead g.

(** ** Steps of the finish order *)

(** No hand has become empty from [g] to [g'], and the finish bookkeeping
    is untouched. *)
Definition nothingFinished (g g' : GameState) : Prop :=
  (∀ j q q', players g !! j = Some q → players g' !! j = Some q' →
             hand q' = [] → hand q = []) ∧
  finishPosition <$> players g' = finishPosition <$> players g ∧
  finishedPlayers g' = finishedPlayers g ∧
  gamePhase g' = gamePhase g.

(** From [g] to [g'] the hand of [seat], whose player had no position, has
    become empty.  With [n] players finished before, the player gets position
    [n + 1], at most 3; the positions given before are at most [n] and stay.
    With [n + 1] below 3 the game goes on and no other player is touched.
    With [n + 1 = 3] the game is over: the one other player without a
    position, who still holds the cards they held, is given position 4. *)
Definition finishes (g : GameState) (seat : nat) (g' : GameState) : Prop :=
  let n := finishedPlayers g in
  ∃ p p',
    players g !! seat = Some p ∧ players g' !! seat = Some p' ∧
    hand p ≠ [] ∧ hand p' = [] ∧
    finishPosition p = None ∧ finishPosition p' = Some (n + 1) ∧
    finishedPlayers g' = n + 1 ∧ n + 1 ≤ 3 ∧
    (∀ j q k, players g !! j = Some q → finishPosition q = Some k →
       k ≤ n ∧ ∃ q', players g' !! j = Some q' ∧ finishPosition q' = Some k) ∧
    (n + 1 < 3 →
       gamePhase g' = playing ∧
       ∀ j q, j ≠ seat → players g !! j = Some q → players g' !! j = Some q) ∧
    (n + 1 = 3 →
       gamePhase g' = gameOver ∧
       ∃ last q, last ≠ seat ∧ players g !! last = Some q ∧
         finishPosition q = None ∧ hand q ≠ [] ∧
         players g' !! last = Some (set_finishPosition 4 q) ∧
         ∀ j r, players g !! j = Some r → finishPosition r = None →
                j = seat ∨ j = last).

(** ** A match to run the engine on *)

Definition fourPlayers : list PlayerInfo :=
  [mkInfo "s0" "Ana"; mkInfo "s1" "Bruno"; mkInfo "s2" "Caio"; mkInfo "s3" "Duda"].

(** These draws make [shuffle] leave the deck sorted by rank, so that seat 0
    is dealt the four 3s, the four 4s, the four 5s and the 6 of hearts; the
    draw that follows them seats player 0 first. *)
Definition rankMajorDraws : list nat :=
  [51; 38; 25; 12; 38; 37; 24; 11; 25; 36; 23; 10; 12; 35; 22; 9; 35; 34; 21;
   8; 22; 21; 20; 7; 24; 8; 19; 6; 11; 22; 18; 5; 19; 18; 17; 4; 9; 5; 4; 3;
   11; 7; 9; 2; 7; 6; 5; 1; 3; 2; 1].

Definition dealer (k : nat) : nat := nth k rankMajorDraws 0.

Definition opening : GameState := newGameState dealer fourPlayers.

(** The four cards of a rank, in the order of [suits]. *)
Definition ofRank (v : Z) : list Card := (λ s, mkCard s v) <$> suits.

(** The state a list of requests leaves when made from [opening]. *)
Definition afterRun (actions : list Action) : GameState :=
  default opening (run opening actions).

(** Seat 0 led the four 3s, everybody skipped, and seat 0 led the 6 of
    hearts: it is the turn of seat 1, who holds the 6 of diamonds and the 7 of
    hearts. *)
Definition sixOnTable : GameState :=
  afterRun [Play 0 (ofRank 3); Skip 1; Skip 2; Skip 3;
            Play 0 [mkCard "hearts" 6]].

(** Seat 0 led with the four 3s and seats 1 and 2 skipped: the skip of
    seat 3 closes the round. *)
Definition lastSkipDue : GameState :=
  afterRun [Play 0 (ofRank 3); Skip 1; Skip 2].

(** Seats 0, 1 and 2 have each played a single card on the other's. *)
Definition threePlayed : GameState :=
  afterRun [Play 0 [mkCard "hearts" 3]; Play 1 [mkCard "diamonds" 6];
            Play 2 [mkCard "clubs" 9]].

(** Seat 0 leads the four 3s, the four 4s and the four 5s, each time followed
    by three skips, and is left with the 6 of hearts. *)
Definition seatZeroLeads (cards : list Card) : list Action :=
  [Play 0 cards; Skip 1; Skip 2; Skip 3].

Definition untilLastCard : list Action :=
  seatZeroLeads (ofRank 3) ++ seatZeroLeads (ofRank 4) ++ seatZeroLeads (ofRank 5).

Definition lastCardDue : GameState := afterRun untilLastCard.

(** Seat 0 has played the 6 of hearts, its last card. *)
Definition seatZeroOut : GameState :=
  afterRun (untilLastCard ++ [Play 0 [mkCard "hearts" 6]]).

(** Seat 0 has led the four 3s of the opening: it is the turn of seat 1. *)
Definition threesOnTable : GameState := afterRun [Play 0 (ofRank 3)].

(** Seat 0 has gone out with the 6 of hearts and seats 1 and 2 have skipped:
    the round count has handed the turn back to seat 0. *)
Definition seatZeroGone : GameState :=
  afterRun (untilLastCard ++ [Play 0 [mkCard "hearts" 6]; Skip 1; Skip 2]).

(** Seat 1, once it leads, plays on while seats 2 and 3 skip. *)
Definition seatOneLeads (cards : list Card) : list Action :=
  [Play 1 cards; Skip 2; Skip 3].

(** The match played to its end: seat 0 goes out, then seat 1, then seat 2,
    and seat 3 is left with its thirteen cards. *)
Definition untilGameOver : list Action :=
  untilLastCard ++ [Play 0 [mkCard "hearts" 6]; Skip 1; Skip 2; Skip 0]
  ++ seatOneLeads [mkCard "diamonds" 6; mkCard "clubs" 6; mkCard "spades" 6]
  ++ seatOneLeads (ofRank 7) ++ seatOneLeads (ofRank 8)
  ++ [Play 1 [mkCard "hearts" 9; mkCard "diamonds" 9];
      Play 2 [mkCard "hearts" 10; mkCard "diamonds" 10];
      Play 2 [mkCard "clubs" 9; mkCard "spades" 9]; Skip 3;
      Play 2 [mkCard "clubs" 10; mkCard "spades" 10]; Skip 3;
      Play 2 (ofRank 11); Skip 3;
      Play 2 [mkCard "hearts" 12; mkCard "diamonds" 12; mkCard "clubs" 12]].

Definition matchOver : GameState := afterRun untilGameOver.

(** A server on which four sockets have joined the room ["mesa"], so that a
    match has begun there, dealt as [opening]. *)
Definition fourJoin : list Request :=
  [JoinRoom dealer "s0" "mesa" "Ana"; JoinRoom dealer "s1" "mesa" "Bruno";
   JoinRoom dealer "s2" "mesa" "Caio"; JoinRoom dealer "s3" "mesa" "Duda"].

Definition roomsAfter (reqs : list Request) : gmap string Room :=
  default ∅ (serveAll ∅ reqs).

Definition mesaStarted : gmap string Room := roomsAfter fourJoin.

(** The socket of seat 0 has then left. *)
Definition mesaAfterLeave : gmap string Room :=
  roomsAfter (fourJoin ++ [Disconnecting "s0" ["mesa"]]).

(** The room ["mesa"] of a server, or a room without players. *)
Definition mesaOf (rooms : gmap string Room) : Room :=
  default (mkRoom [] None status_waiting) (rooms !! "mesa").

(** Two sockets have joined ["mesa"]. *)
Definition mesaWaiting : gmap string Room :=
  roomsAfter [JoinRoom dealer "s0" "mesa" "Ana"; JoinRoom dealer "s1" "mesa" "Bruno"].




(** * Properties *)

(** ** The deck *)

Section deck.
Implicit Types (d : list Card) (rand : nat → nat).

Lemma swap_Permutation d i j : swap d i j ≡ₚ d.
Proof.
  unfold swap. destruct (d !! i) as [x|] eqn:Hi; [|done].
  destruct (d !! j) as [y|] eqn:Hj; [|done].
  by apply Permutation_insert_swap.
Qed.

Lemma length_swap d i j : length (swap d i j) = length d.
Proof. by rewrite (swap_Permutation d i j). Qed.

Lemma shuffle_from_Permutation rand i k d : shuffle_from rand i k d ≡ₚ d.
Proof.
  revert k d. induction i as [|i IH]; intros k d; simpl; [done|].
  by rewrite IH, swap_Permutation.
Qed.

Lemma shuffle_Permutation rand d : shuffle rand d ≡ₚ d.
Proof. apply shuffle_from_Permutation. Qed.

Lemma createDeck_Permutation rand : createDeck rand ≡ₚ orderedDeck.
Proof. exact (shuffle_Permutation rand orderedDeck). Qed.

Lemma length_orderedDeck : length orderedDeck = 52.
Proof. by vm_compute. Qed.

Lemma length_createDeck rand : length (createDeck rand) = 52.
Proof. rewrite createDeck_Permutation. apply length_orderedDeck. Qed.

Lemma NoDup_orderedDeck : NoDup orderedDeck.
Proof. apply (bool_decide_unpack _). by vm_compute. Qed.

Lemma elem_of_orderedDeck c :
  c ∈ orderedDeck ↔ suit c ∈ suits ∧ value c ∈ values.
Proof.
  unfold orderedDeck. rewrite list_elem_of_bind. split.
  - intros (s & Hc & Hs). apply list_elem_of_bind in Hc as (v & Hc & Hv).
    apply list_elem_of_singleton in Hc as ->. done.
  - intros [Hs Hv]. exists (suit c). split; [|done].
    apply list_elem_of_bind. exists (value c). split; [|done].
    destruct c. apply list_elem_of_singleton. done.
Qed.
End deck.

Section deal.
Implicit Types (ps : list Player) (d : list Card).

Lemma dealCards_length ps d : length (dealCards ps d).1 = length ps.
Proof.
  revert d. induction ps as [|p ps IH]; intros d; simpl; [done|].
  specialize (IH (drop 13 d)). destruct (dealCards ps (drop 13 d)). simpl in *.
  by rewrite IH.
Qed.

Lemma dealCards_hands ps d :
  concat (hand <$> (dealCards ps d).1) = take (13 * length ps) d.
Proof.
  revert d. induction ps as [|p ps IH]; intros d; simpl.
  - by rewrite ?Nat.mul_0_r.
  - specialize (IH (drop 13 d)). destruct (dealCards ps (drop 13 d)) as [ps' d'].
    cbn [fst snd] in *. rewrite fmap_cons. cbn [concat set_hand hand].
    rewrite IH, take_take_drop. f_equal. lia.
Qed.

Lemma dealCards_rest ps d : (dealCards ps d).2 = drop (13 * length ps) d.
Proof.
  revert d. induction ps as [|p ps IH]; intros d; simpl.
  - by rewrite ?Nat.mul_0_r.
  - specialize (IH (drop 13 d)). destruct (dealCards ps (drop 13 d)) as [ps' d'].
    cbn [fst snd] in *. rewrite IH, drop_drop. f_equal. lia.
Qed.

Lemma dealCards_thirteen ps d :
  13 * length ps ≤ length d →
  Forall (λ p, length (hand p) = 13) (dealCards ps d).1.
Proof.
  revert d. induction ps as [|p ps IH]; intros d Hlen; cbn [dealCards]; [done|].
  specialize (IH (drop 13 d)). destruct (dealCards ps (drop 13 d)) as [ps' d'].
  cbn [fst snd length] in *. constructor.
  - cbn [set_hand hand]. rewrite length_take. lia.
  - apply IH. rewrite length_drop. lia.
Qed.

(** Dealing touches nothing but the hands. *)
Lemma dealCards_lookup ps d i p' :
  (dealCards ps d).1 !! i = Some p' →
  ∃ p, ps !! i = Some p ∧ p' = set_hand (take 13 (drop (13 * i) d)) p.
Proof.
  revert d i. induction ps as [|p ps IH]; intros d i; cbn [dealCards]; [done|].
  specialize (IH (drop 13 d)). destruct (dealCards ps (drop 13 d)) as [ps' d'].
  cbn [fst snd] in *. destruct i as [|i]; cbn [lookup list_lookup].
  - intros [= <-]. exists p. by rewrite Nat.mul_0_r.
  - intros Hi. destruct (IH _ Hi) as (p0 & ? & ->). exists p0. split; [done|].
    rewrite drop_drop. do 3 f_equal. lia.
Qed.
End deal.

(** The hands of a match created for four players. *)
Lemma newGameState_hands (rand : nat → nat) (infos : list PlayerInfo) :
  length infos = 4 →
  let g := newGameState rand infos in
  length (players g) = 4 ∧
  Forall (λ p, length (hand p) = 13) (players g) ∧
  concat (hand <$> players g) = createDeck rand ∧
  deck g = [].
Proof.
  intros Hlen g. subst g. unfold newGameState.
  set (ps := imap _ infos).
  assert (Hps : length ps = 4) by (unfold ps; by rewrite length_imap).
  pose proof (dealCards_length ps (createDeck rand)) as Hl.
  pose proof (dealCards_hands ps (createDeck rand)) as Hh.
  pose proof (dealCards_rest ps (createDeck rand)) as Hr.
  pose proof (dealCards_thirteen ps (createDeck rand)) as Ht.
  destruct (dealCards ps (createDeck rand)) as [ps' d'].
  cbn [fst snd players deck] in *. rewrite Hps in *.
  pose proof (length_createDeck rand) as Hd.
  rewrite take_ge in Hh by lia. rewrite drop_ge in Hr by lia.
  split_and!; [done|apply Ht; lia|done|done].
Qed.

(** C8.  In a match created for four players every player holds thirteen
    cards, the four hands together hold each card of the standard deck, one
    per pair of a suit and a rank, exactly once, and the deck is empty. *)
Theorem deal_is_one_standard_deck (rand : nat → nat) (infos : list PlayerInfo) :
  length infos = 4 →
  let g := newGameState rand infos in
  length (players g) = 4 ∧
  Forall (λ p, length (hand p) = 13) (players g) ∧
  NoDup (concat (hand <$> players g)) ∧
  (∀ c, c ∈ concat (hand <$> players g) ↔ suit c ∈ suits ∧ value c ∈ values) ∧
  length (concat (hand <$> players g)) = 52 ∧
  deck g = [].
Proof.
  intros Hlen g.
  destruct (newGameState_hands rand infos Hlen) as (H4 & H13 & Hcat & Hdeck).
  fold g in H4, H13, Hcat, Hdeck. rewrite Hcat.
  split_and!; [done|done| | |apply length_createDeck|done].
  - rewrite createDeck_Permutation. apply NoDup_orderedDeck.
  - intros c. rewrite createDeck_Permutation. apply elem_of_orderedDeck.
Qed.

(** Four players, and draws that leave the deck as it was pushed. *)
Lemma deal_is_one_standard_deck_witness :
  let g := newGameState (λ k, 51 - k) fourPlayers in
  length (players g) = 4 ∧
  Forall (λ p, length (hand p) = 13) (players g) ∧
  NoDup (concat (hand <$> players g)) ∧
  (∀ c, c ∈ concat (hand <$> players g) ↔ suit c ∈ suits ∧ value c ∈ values) ∧
  length (concat (hand <$> players g)) = 52 ∧
  deck g = [].
Proof. apply (deal_is_one_standard_deck (λ k, 51 - k) fourPlayers). reflexivity. Defined.

Section fisher_yates.
Implicit Types (d t : list Card) (rand : nat → nat).

Lemma randomBelow_lt r n : 0 < n → randomBelow r n < n.
Proof.
  intros Hn. unfold randomBelow. case_decide; [lia|].
  by apply Nat.mod_upper_bound.
Qed.

Lemma randomBelow_small r n : r < n → randomBelow r n = r.
Proof.
  intros Hn. unfold randomBelow. case_decide; [lia|].
  by apply Nat.mod_small.
Qed.

Lemma swap_lookup_ne d i j m : m ≠ i → m ≠ j → swap d i j !! m = d !! m.
Proof.
  intros Hi Hj. unfold swap.
  destruct (d !! i) as [x|]; [|done]. destruct (d !! j) as [y|]; [|done].
  by rewrite !list_lookup_insert_ne.
Qed.

Lemma swap_lookup_l d i j :
  i < length d → j < length d → swap d i j !! i = d !! j.
Proof.
  intros Hi Hj. unfold swap.
  destruct (lookup_lt_is_Some_2 d i Hi) as [x Hx].
  destruct (lookup_lt_is_Some_2 d j Hj) as [y Hy].
  rewrite Hx, Hy. destruct (decide (i = j)) as [->|Hne].
  - rewrite list_lookup_insert_eq by (by rewrite length_insert). congruence.
  - rewrite list_lookup_insert_ne by done.
    by rewrite list_lookup_insert_eq.
Qed.

Lemma drop_swap d i j n : i < n → j < n → drop n (swap d i j) = drop n d.
Proof.
  intros Hi Hj. unfold swap.
  destruct (d !! i) as [x|]; [|done]. destruct (d !! j) as [y|]; [|done].
  by rewrite !drop_insert_lt.
Qed.

(** The loop for index [i] leaves the cards above [i] where they are. *)
Lemma shuffle_from_lookup_above rand i k d m :
  i < m → shuffle_from rand i k d !! m = d !! m.
Proof.
  revert k d. induction i as [|i IH]; intros k d Hm; [done|].
  cbn [shuffle_from]. rewrite IH by lia.
  pose proof (randomBelow_lt (rand k) (S i + 1)).
  apply swap_lookup_ne; lia.
Qed.

Lemma shuffle_from_drop rand i k d :
  drop (S i) (shuffle_from rand i k d) = drop (S i) d.
Proof.
  revert k d. induction i as [|i IH]; intros k d; [done|].
  cbn [shuffle_from].
  pose proof (randomBelow_lt (rand k) (S i + 1)).
  rewrite <-(drop_swap d (S i) (randomBelow (rand k) (S i + 1)) (S (S i))) by lia.
  replace (S (S i)) with (S i + 1) by lia. rewrite <-!drop_drop. by rewrite IH.
Qed.

Lemma length_shuffle_from rand i k d : length (shuffle_from rand i k d) = length d.
Proof. by rewrite shuffle_from_Permutation. Qed.

(** The card that ends at index [i] is the one the first draw picked. *)
Lemma shuffle_from_lookup_top rand i k d :
  S i < length d →
  shuffle_from rand (S i) k d !! S i = d !! randomBelow (rand k) (S i + 1).
Proof.
  intros Hi. cbn [shuffle_from]. rewrite shuffle_from_lookup_above by lia.
  pose proof (randomBelow_lt (rand k) (S i + 1)).
  apply swap_lookup_l; lia.
Qed.

(** Only the draws of the run matter. *)
Lemma shuffle_from_ext rand1 rand2 i k d :
  (∀ m, m < i → rand1 (k + m) = rand2 (k + m)) →
  shuffle_from rand1 i k d = shuffle_from rand2 i k d.
Proof.
  revert k d. induction i as [|i IH]; intros k d Heq; [done|].
  cbn [shuffle_from]. specialize (Heq 0 ltac:(lia)) as H0.
  rewrite Nat.add_0_r in H0. rewrite H0. apply IH.
  intros m Hm. specialize (Heq (S m) ltac:(lia)).
  by rewrite <-Nat.add_succ_comm in Heq.
Qed.

(** Two runs that end in the same order made the same draws. *)
Lemma shuffle_from_inj rand1 rand2 i k d :
  NoDup d → i < length d →
  (∀ m, m < i → rand1 (k + m) ≤ i - m) →
  (∀ m, m < i → rand2 (k + m) ≤ i - m) →
  shuffle_from rand1 i k d = shuffle_from rand2 i k d →
  ∀ m, m < i → rand1 (k + m) = rand2 (k + m).
Proof.
  revert k d. induction i as [|i IH]; intros k d Hnd Hi H1 H2 Heq m Hm; [lia|].
  pose proof (H1 0 ltac:(lia)) as Hr1. pose proof (H2 0 ltac:(lia)) as Hr2.
  rewrite Nat.add_0_r, Nat.sub_0_r in Hr1, Hr2.
  assert (Hk : rand1 k = rand2 k).
  { pose proof (f_equal (.!! S i) Heq) as Htop. cbn beta in Htop.
    rewrite !shuffle_from_lookup_top in Htop by done.
    rewrite !randomBelow_small in Htop by lia.
    destruct (lookup_lt_is_Some_2 d (rand1 k) ltac:(lia)) as [x Hx].
    rewrite Hx in Htop. by apply (NoDup_lookup d _ _ x). }
  destruct m as [|m]; [by rewrite Nat.add_0_r|].
  cbn [shuffle_from] in Heq. rewrite Hk in Heq.
  rewrite <-Nat.add_succ_comm. eapply (IH (S k)); [| | | |exact Heq|lia].
  - by rewrite swap_Permutation.
  - rewrite length_swap. lia.
  - intros m' Hm'. rewrite Nat.add_succ_comm. etrans; [apply H1; lia|lia].
  - intros m' Hm'. rewrite Nat.add_succ_comm. etrans; [apply H2; lia|lia].
Qed.

(** Every order that agrees with [d] above index [i] is the end of a run. *)
Lemma shuffle_from_surj i k d t :
  i < length d → t ≡ₚ d → drop (S i) t = drop (S i) d →
  ∃ rand, (∀ m, m < i → rand (k + m) ≤ i - m) ∧ shuffle_from rand i k d = t.
Proof.
  revert k d. induction i as [|i IH]; intros k d Hi Hp Hd.
  - exists (λ _, 0). split; [intros; lia|]. cbn [shuffle_from].
    assert (Hlen : length t = length d) by by rewrite Hp.
    rewrite <-(take_drop 1 d), <-(take_drop 1 t), Hd. f_equal.
    rewrite <-(take_drop 1 d), <-(take_drop 1 t), Hd in Hp.
    apply Permutation_app_inv_r in Hp.
    destruct d as [|x d]; [simpl in Hi; lia|].
    destruct t as [|y t]; [done|]. cbn [take] in *.
    by apply Permutation_singleton_inj in Hp as ->.
  - assert (Hlen : length t = length d) by by rewrite Hp.
    destruct (lookup_lt_is_Some_2 t (S i) ltac:(lia)) as [x Hx].
    assert (Hj : ∃ j, d !! j = Some x ∧ j < S (S i)).
    { apply elem_of_take.
      rewrite <-(take_drop (S (S i)) d), <-(take_drop (S (S i)) t), Hd in Hp.
      apply Permutation_app_inv_r in Hp. rewrite <-Hp.
      apply elem_of_take. eauto. }
    destruct Hj as (j & Hj & Hjlt).
    destruct (IH (S k) (swap d (S i) j)) as (rand & Hr & Hs).
    + rewrite length_swap. lia.
    + by rewrite swap_Permutation.
    + rewrite (drop_S t x (S i)) by done.
      rewrite (drop_S (swap d (S i) j) x (S i)).
      * by rewrite drop_swap, Hd by lia.
      * rewrite swap_lookup_l by (eauto using lookup_lt_Some; lia). done.
    + exists (λ c, if decide (c = k) then j else rand c). split.
      * intros m Hm. case_decide as Hc.
        -- assert (m = 0) as -> by lia. lia.
        -- destruct m as [|m]; [by rewrite Nat.add_0_r in Hc|].
           rewrite <-Nat.add_succ_comm. etrans; [apply Hr; lia|lia].
      * cbn [shuffle_from]. rewrite decide_True by done.
        rewrite randomBelow_small by lia. rewrite <-Hs.
        apply shuffle_from_ext. intros m Hm. rewrite decide_False by lia. done.
Qed.
End fisher_yates.

Lemma shuffle_surj (d t : list Card) :
  t ≡ₚ d → ∃ rand, inRange rand (length d) ∧ shuffle rand d = t.
Proof.
  intros Hp. destruct (decide (length d = 0)) as [H0|H0].
  - exists (λ _, 0). split; [intros k Hk; lia|].
    apply length_zero_iff_nil in H0 as ->.
    by apply Permutation_nil_r in Hp as ->.
  - destruct (shuffle_from_surj (length d - 1) 0 d t) as (rand & Hr & Hs);
      [lia|done| |].
    + assert (Hlen : length t = length d) by by rewrite Hp.
      rewrite !drop_ge by lia. done.
    + exists rand. split; [|done]. intros k Hk. by apply Hr.
Qed.

Lemma shuffle_inj (d : list Card) (rand1 rand2 : nat → nat) :
  NoDup d → inRange rand1 (length d) → inRange rand2 (length d) →
  shuffle rand1 d = shuffle rand2 d →
  ∀ k, k < length d - 1 → rand1 k = rand2 k.
Proof.
  intros Hnd H1 H2 Heq k Hk.
  apply (shuffle_from_inj rand1 rand2 (length d - 1) 0 d); try done; lia.
Qed.


Section runs.
Implicit Types (run : list nat) (d t : list Card).





End runs.

(** The draws that are in range and the orderings of the deck correspond
    one to one. *)
Lemma createDeck_bijective :
  (∀ t, t ≡ₚ orderedDeck →
     ∃ rand, inRange rand (length orderedDeck) ∧ createDeck rand = t) ∧
  (∀ rand1 rand2,
     inRange rand1 (length orderedDeck) → inRange rand2 (length orderedDeck) →
     createDeck rand1 = createDeck rand2 →
     ∀ k, k < length orderedDeck - 1 → rand1 k = rand2 k).
Proof.
  split.
  - exact (shuffle_surj orderedDeck).
  - exact (λ rand1 rand2, shuffle_inj orderedDeck rand1 rand2 NoDup_orderedDeck).
Qed.



(** ** Playing cards *)

Lemma forallb_elem_of {A} (f : A → bool) (l : list A) :
  forallb f l = true ↔ ∀ x, x ∈ l → f x = true.
Proof. rewrite forallb_forall. by setoid_rewrite list_elem_of_In. Qed.

Section hands.
Implicit Types (h played cards : list Card) (card c : Card).

Lemma sameCard_eq card c : sameCard card c ↔ c = card.
Proof.
  unfold sameCard. destruct card, c; simpl. split.
  - by intros [-> ->].
  - by intros [= -> ->].
Qed.

Lemma list_find_sameCard_Some h card i c :
  list_find (sameCard card) h = Some (i, c) → c = card ∧ h !! i = Some card.
Proof.
  intros (Hi & Hc & _)%list_find_Some. apply sameCard_eq in Hc as ->. done.
Qed.

Lemma list_find_sameCard_is_Some h card :
  is_Some (list_find (sameCard card) h) ↔ card ∈ h.
Proof.
  split.
  - intros [[i c] Hf]. apply list_find_sameCard_Some in Hf as [_ Hi].
    by eapply list_elem_of_lookup_2.
  - intros Hin. eapply list_find_elem_of; [done|]. by apply sameCard_eq.
Qed.

Lemma hasCards_true h cards : hasCards h cards = true ↔ cards ⊆ h.
Proof.
  unfold hasCards. rewrite forallb_elem_of. split.
  - intros H card Hc. apply list_find_sameCard_is_Some.
    eapply bool_decide_eq_true_1. by apply H.
  - intros H card Hc. apply bool_decide_eq_true_2, list_find_sameCard_is_Some.
    by apply H.
Qed.

(** When the removal loop runs to its end, the played cards are the
    requested ones, in the requested order, and they left the hand. *)
Lemma removeCards_inl h played cards h' pc :
  removeCards h played cards = inl (h', pc) →
  pc = played ++ cards ∧ h ≡ₚ cards ++ h'.
Proof.
  revert h played. induction cards as [|card rest IH]; intros h played; simpl.
  - intros [= -> ->]. by rewrite app_nil_r.
  - destruct (list_find (sameCard card) h) as [[i c]|] eqn:Hf; [|done].
    apply list_find_sameCard_Some in Hf as [-> Hi].
    intros [-> Hp]%IH. split; [by rewrite <-app_assoc|].
    rewrite (delete_Permutation h i card) by done. by rewrite Hp.
Qed.

(** When it gives up, the hand holds the same cards as before. *)
Lemma removeCards_inr h played cards h' :
  removeCards h played cards = inr h' → h' ≡ₚ h ++ played.
Proof.
  revert h played. induction cards as [|card rest IH]; intros h played; simpl.
  - done.
  - destruct (list_find (sameCard card) h) as [[i c]|] eqn:Hf.
    + apply list_find_sameCard_Some in Hf as [-> Hi].
      intros ->%IH. transitivity ((card :: delete i h) ++ played).
      * simpl. rewrite app_assoc. symmetry. apply Permutation_cons_append.
      * apply Permutation_app_tail. symmetry. by apply delete_Permutation.
    + by intros [= <-].
Qed.

(** Distinct cards of the hand are all removed. *)
Lemma removeCards_NoDup h played cards :
  NoDup cards → cards ⊆ h →
  ∃ h', removeCards h played cards = inl (h', played ++ cards).
Proof.
  revert h played. induction cards as [|card rest IH]; intros h played Hnd Hsub.
  - exists h. simpl. by rewrite app_nil_r.
  - simpl. apply NoDup_cons in Hnd as [Hnotin Hnd].
    assert (Hin : card ∈ h) by (apply Hsub; left).
    apply list_find_sameCard_is_Some in Hin as [[i c] Hf]. rewrite Hf.
    apply list_find_sameCard_Some in Hf as [-> Hi].
    destruct (IH (delete i h) (played ++ [card]) Hnd) as [h' Hr].
    + intros r Hr. assert (r ∈ h) as Hrh by (apply Hsub; by right).
      rewrite (delete_Permutation h i card) in Hrh by done.
      apply elem_of_cons in Hrh as [->|]; done.
    + exists h'. by rewrite Hr, <-app_assoc.
Qed.

Lemma sameValue_true cards :
  sameValue cards = true ↔ ∀ c c', c ∈ cards → c' ∈ cards → value c = value c'.
Proof.
  destruct cards as [|first rest]; simpl.
  - split; [intros _ c c' Hc|done]. by apply not_elem_of_nil in Hc.
  - rewrite bool_decide_true by done. simpl.
    rewrite forallb_elem_of. split.
    + intros H c c' Hc Hc'.
      assert (∀ x, x ∈ first :: rest → value x = value first) as Hall.
      { intros x [->|Hx]%elem_of_cons; [done|].
        eapply bool_decide_eq_true_1. by apply H. }
      by rewrite (Hall c), (Hall c').
    + intros H c Hc. apply bool_decide_eq_true_2, H; [by right|by left].
Qed.
End hands.

Section playCards.
Implicit Types (g : GameState) (p : Player) (cards : list Card).

Lemma canPlayCards_beats g current p cards :
  players g !! currentPlayerIndex g = Some current →
  canPlayCards g p cards = Some (bool_decide (id current = id p) && beats g cards).
Proof.
  intros Hc. unfold canPlayCards, beats. rewrite Hc. simpl. f_equal.
  case_decide as Hid.
  - by rewrite bool_decide_false.
  - rewrite bool_decide_true by done. simpl.
    destruct cards as [|first rest]; [done|].
    destruct (sameValue (first :: rest)); [|done]. simpl.
    destruct (currentHighestCards g) as [|highest tbl]; [done|].
    case_decide as Hlen.
    + by rewrite (bool_decide_eq_false_2 _ Hlen).
    + by rewrite (bool_decide_eq_true_2 _ Hlen).
Qed.

(** What an accepted call has checked and done. *)
Lemma playCards_accepted_inv g seat cards g' :
  playCards g seat cards = Some (true, g') →
  ∃ current p h',
    players g !! currentPlayerIndex g = Some current ∧
    players g !! seat = Some p ∧
    id current = id p ∧
    beats g cards = true ∧
    cards ⊆ hand p ∧
    removeCards (hand p) [] cards = inl (h', cards) ∧
    hand p ≡ₚ cards ++ h' ∧
    g' = nextTurn (afterFinish (afterPlay g seat p h' cards) seat h').
Proof.
  unfold playCards. intros H.
  destruct (players g !! currentPlayerIndex g) as [current|] eqn:Hc; [|done].
  destruct (players g !! seat) as [p|] eqn:Hp; [|done]. simpl in H.
  rewrite (canPlayCards_beats g current p cards Hc) in H. simpl in H.
  destruct (bool_decide (id current = id p)) eqn:Hid; [|done].
  apply bool_decide_eq_true_1 in Hid.
  destruct (beats g cards) eqn:Hb; [|done]. simpl in H.
  destruct (hasCards (hand p) cards) eqn:Hh; [|done]. simpl in H.
  apply hasCards_true in Hh.
  destruct (removeCards (hand p) [] cards) as [[h' pc]|h'] eqn:Hr; [|done].
  apply removeCards_inl in Hr as Hr'. destruct Hr' as [-> Hperm].
  simpl in Hr. injection H as <-. by exists current, p, h'.
Qed.

Lemma playCards_accepted_intro g seat cards current p h' :
  players g !! currentPlayerIndex g = Some current →
  players g !! seat = Some p →
  id current = id p →
  beats g cards = true →
  cards ⊆ hand p →
  removeCards (hand p) [] cards = inl (h', cards) →
  playCards g seat cards =
    Some (true, nextTurn (afterFinish (afterPlay g seat p h' cards) seat h')).
Proof.
  intros Hc Hp Hid Hb Hsub Hr. unfold playCards. rewrite Hc, Hp. simpl.
  rewrite (canPlayCards_beats g current p cards Hc).
  rewrite bool_decide_true, Hb by done. simpl.
  apply hasCards_true in Hsub. rewrite Hsub, Hr. done.
Qed.

(** A set of distinct cards of the current player's hand is accepted
    exactly when it passes the test. *)
Lemma playCards_current_iff g p cards :
  players g !! currentPlayerIndex g = Some p →
  NoDup cards → cards ⊆ hand p →
  accepted g (currentPlayerIndex g) cards ↔ beats g cards = true.
Proof.
  intros Hp Hnd Hsub. split.
  - intros [g' Hg']. by apply playCards_accepted_inv in Hg' as (?&?&?&?&?&?&?&?).
  - intros Hb. destruct (removeCards_NoDup (hand p) [] cards Hnd Hsub) as [h' Hr].
    eexists. by eapply playCards_accepted_intro.
Qed.
End playCards.

(** C1.  The beat rule.  Let the current player offer distinct cards of
    their hand.  On a table of [N] cards of rank [R] they are accepted exactly
    when they are [N] cards of one rank above [R]; on an empty table exactly
    when they are a non-empty set of one rank. *)
Theorem beat_rule (g : GameState) (p : Player) (cards : list Card) :
  players g !! currentPlayerIndex g = Some p →
  NoDup cards → cards ⊆ hand p →
  (∀ R N,
     currentHighestCards g ≠ [] →
     length (currentHighestCards g) = N →
     (∀ c, c ∈ currentHighestCards g → value c = R) →
     accepted g (currentPlayerIndex g) cards ↔
       length cards = N ∧ ∃ v, (∀ c, c ∈ cards → value c = v) ∧ (R < v)%Z) ∧
  (currentHighestCards g = [] →
     accepted g (currentPlayerIndex g) cards ↔
       cards ≠ [] ∧ ∃ v, ∀ c, c ∈ cards → value c = v).
Proof.
  intros Hp Hnd Hsub.
  pose proof (playCards_current_iff g p cards Hp Hnd Hsub) as Hacc. split.
  - intros R N Hne HN HR. rewrite Hacc. unfold beats.
    destruct (currentHighestCards g) as [|highest tbl] eqn:Ht; [done|].
    assert (value highest = R) as HhR by (apply HR; left).
    destruct cards as [|first rest].
    { split; [done|]. intros [Hl _]. simpl in *. lia. }
    rewrite !andb_true_iff, !bool_decide_eq_true, sameValue_true. split.
    + intros (Hsame & Hlen & Hgt). split; [congruence|].
      exists (value first). split; [|lia].
      intros c Hc. apply Hsame; [done|by left].
    + intros (Hlen & v & Hv & Hgt). split_and!; [|congruence|].
      * intros c c' Hc Hc'. by rewrite (Hv c), (Hv c').
      * rewrite (Hv first) by by left. lia.
  - intros Ht. rewrite Hacc. unfold beats. rewrite Ht.
    destruct cards as [|first rest].
    { split; [done|]. by intros [? _]. }
    rewrite andb_true_r, sameValue_true. split.
    + intros Hsame. split; [done|]. exists (value first).
      intros c Hc. apply Hsame; [done|by left].
    + intros (_ & v & Hv) c c' Hc Hc'. by rewrite (Hv c), (Hv c').
Qed.

(** Seat 1 holds the 6 of diamonds and the 7 of hearts: on the 6 of hearts
    the 7 is accepted and the 6 is not. *)
Lemma beat_rule_witness :
  accepted sixOnTable 1 [mkCard "hearts" 7] ∧
  ¬ accepted sixOnTable 1 [mkCard "diamonds" 6].
Proof.
  pose (p := default (mkPlayer "" "" 0 [] false None) (players sixOnTable !! 1)).
  assert (players sixOnTable !! currentPlayerIndex sixOnTable = Some p) as Hp
    by (by vm_compute).
  assert (∀ c, c ∈ currentHighestCards sixOnTable → value c = 6%Z) as Htable.
  { intros c Hc. vm_compute in Hc. apply list_elem_of_singleton in Hc as ->. done. }
  assert (currentHighestCards sixOnTable ≠ []) as Hne by (by vm_compute).
  split.
  - apply (proj1 (beat_rule sixOnTable p [mkCard "hearts" 7] Hp
             ltac:(apply (bool_decide_unpack _); by vm_compute)
             ltac:(apply (bool_decide_unpack _); by vm_compute))
           6%Z 1 Hne ltac:(by vm_compute) Htable).
    split; [done|]. exists 7%Z. split; [|lia].
    intros c Hc. apply list_elem_of_singleton in Hc as ->. done.
  - intros Hacc.
    apply (proj1 (beat_rule sixOnTable p [mkCard "diamonds" 6] Hp
             ltac:(apply (bool_decide_unpack _); by vm_compute)
             ltac:(apply (bool_decide_unpack _); by vm_compute))
           6%Z 1 Hne ltac:(by vm_compute) Htable) in Hacc.
    destruct Hacc as (_ & v & Hv & Hlt).
    specialize (Hv (mkCard "diamonds" 6) ltac:(by left)). simpl in Hv. lia.
Defined.
(** ** Matches and the states they reach *)

Lemma reachable_run g actions g' :
  reachable g → run g actions = Some g' → reachable g'.
Proof.
  revert g. induction actions as [|a rest IH]; intros g Hg; simpl.
  - by intros [= <-].
  - destruct (perform g a) as [[b g1]|] eqn:Ha; [|done]. simpl.
    apply IH. by eapply reachable_step.
Qed.

(** ** The match of the examples *)

(** The hands [rankMajorDraws] deals, and the seat that begins. *)
Example opening_hands :
  hand <$> players opening =
    [ ofRank 3 ++ ofRank 4 ++ ofRank 5 ++ [mkCard "hearts" 6];
      [mkCard "diamonds" 6; mkCard "clubs" 6; mkCard "spades" 6]
        ++ ofRank 7 ++ ofRank 8 ++ [mkCard "hearts" 9; mkCard "diamonds" 9];
      [mkCard "clubs" 9; mkCard "spades" 9] ++ ofRank 10 ++ ofRank 11
        ++ [mkCard "hearts" 12; mkCard "diamonds" 12; mkCard "clubs" 12];
      [mkCard "spades" 12] ++ ofRank 13 ++ ofRank 14 ++ ofRank 15 ]
  ∧ currentPlayerIndex opening = 0.
Proof. by vm_compute. Qed.

Lemma reachable_opening : reachable opening.
Proof.
  apply reachable_new; [reflexivity|]. apply (bool_decide_unpack _). by vm_compute.
Defined.

Lemma reachable_afterRun actions :
  is_Some (run opening actions) → reachable (afterRun actions).
Proof.
  intros [g Hg]. unfold afterRun. rewrite Hg. simpl.
  exact (reachable_run opening actions g reachable_opening Hg).
Defined.

(** ** The seats of a match *)

Section seats.
Implicit Types (g : GameState) (ps : list Player) (p : Player).

Lemma ids_alter (f : Player → Player) i ps :
  (∀ p, id (f p) = id p) → id <$> alter f i ps = id <$> ps.
Proof.
  intros Hf. apply list_eq. intros j. rewrite !list_lookup_fmap.
  destruct (decide (i = j)) as [->|Hne].
  - rewrite list_lookup_alter_eq. destruct (ps !! j); simpl; by rewrite ?Hf.
  - by rewrite list_lookup_alter_ne.
Qed.

Lemma ids_insert i p p' ps :
  ps !! i = Some p → id p' = id p → id <$> <[i := p']> ps = id <$> ps.
Proof.
  intros Hi Hid. rewrite list_fmap_insert, Hid. apply list_insert_id.
  by rewrite list_lookup_fmap, Hi.
Qed.

Lemma ids_dealCards ps d : id <$> (dealCards ps d).1 = id <$> ps.
Proof.
  revert d. induction ps as [|p ps IH]; intros d; cbn [dealCards]; [done|].
  specialize (IH (drop 13 d)). destruct (dealCards ps (drop 13 d)) as [ps' d'].
  cbn [fst] in *. by rewrite !fmap_cons, IH.
Qed.

(** Players with distinct ids are told apart by their id. *)
Lemma seat_of_id ps i j p q :
  NoDup (id <$> ps) → ps !! i = Some p → ps !! j = Some q → id p = id q → i = j.
Proof.
  intros Hnd Hi Hj Hid. apply (NoDup_lookup (id <$> ps) i j (id p)); [done| |].
  - by rewrite list_lookup_fmap, Hi.
  - by rewrite list_lookup_fmap, Hj, Hid.
Qed.

Lemma nextSeat_lt ps left cur : 0 < length ps → nextSeat ps left cur < length ps.
Proof.
  intros Hlen. revert cur. induction left as [|left IH]; intros cur; simpl.
  - apply Nat.mod_upper_bound. lia.
  - case_decide; [apply Nat.mod_upper_bound; lia|].
    destruct (finishedAt ps _); [apply IH|apply Nat.mod_upper_bound; lia].
Qed.

Lemma players_endRound g : players (endRound g) = players g.
Proof. unfold endRound. by destruct (roundLeader g ≫= _). Qed.

Lemma roundLeader_endRound g : roundLeader (endRound g) = roundLeader g.
Proof. unfold endRound. by destruct (roundLeader g ≫= _). Qed.

Lemma players_nextTurn g : players (nextTurn g) = players g.
Proof. unfold nextTurn. case_decide; [by rewrite players_endRound|done]. Qed.

Lemma roundLeader_nextTurn g : roundLeader (nextTurn g) = roundLeader g.
Proof. unfold nextTurn. case_decide; [by rewrite roundLeader_endRound|done]. Qed.

(** When the round leader is a seat, [endRound] clears the table and the
    skips and hands the turn to the leader. *)
Lemma endRound_leader g l :
  roundLeader g = Some l → l < length (players g) →
  currentPlayerIndex (endRound g) = l ∧
  currentHighestCards (endRound g) = [] ∧
  playersWhoSkipped (endRound g) = ∅ ∧
  currentRound (endRound g) = 0.
Proof.
  intros Hl Hlt. unfold endRound. rewrite Hl. simpl.
  destruct (lookup_lt_is_Some_2 _ _ Hlt) as [w ->]. done.
Qed.

Lemma seated_endRound g : seated g → seated (endRound g).
Proof.
  intros [H4 Hids Hcur Hl]. split.
  - by rewrite players_endRound.
  - by rewrite players_endRound.
  - unfold endRound. destruct (roundLeader g ≫= _) eqn:Hw; simpl.
    + destruct (roundLeader g) as [l|]; [|done]. simpl. by apply Hl.
    + rewrite H4. apply Nat.mod_upper_bound. lia.
  - by rewrite roundLeader_endRound.
Qed.

Lemma seated_nextTurn g : seated g → seated (nextTurn g).
Proof.
  intros [H4 Hids Hcur Hl]. unfold nextTurn.
  match goal with |- seated (if _ then endRound ?x else _) =>
    assert (seated x) as Hx end.
  { split; simpl; try done.
    pose proof (nextSeat_lt (players g) (length (players g)) (currentPlayerIndex g)).
    lia. }
  case_decide; [by apply seated_endRound|done].
Qed.

Lemma ids_handlePlayerFinished g seat :
  id <$> players (handlePlayerFinished g seat) = id <$> players g.
Proof.
  unfold handlePlayerFinished.
  assert (∀ n i ps, id <$> alter (set_finishPosition n) i ps = id <$> ps) as Hf
    by (intros; by apply ids_alter).
  assert (∀ b i ps, id <$> alter (set_isWinner b) i ps = id <$> ps) as Hw
    by (intros; by apply ids_alter).
  repeat (case_decide || case_match); simpl; by rewrite ?Hf, ?Hw, ?Hf.
Qed.

Lemma currentPlayerIndex_handlePlayerFinished g seat :
  currentPlayerIndex (handlePlayerFinished g seat) = currentPlayerIndex g.
Proof. unfold handlePlayerFinished. by repeat (case_decide || case_match). Qed.

Lemma roundLeader_handlePlayerFinished g seat :
  roundLeader (handlePlayerFinished g seat) = roundLeader g.
Proof. unfold handlePlayerFinished. by repeat (case_decide || case_match). Qed.

Lemma seated_handlePlayerFinished g seat :
  seated g → seated (handlePlayerFinished g seat).
Proof.
  intros [H4 Hids Hcur Hl]. split.
  - rewrite <-(length_fmap id), ids_handlePlayerFinished, length_fmap. done.
  - by rewrite ids_handlePlayerFinished.
  - by rewrite currentPlayerIndex_handlePlayerFinished.
  - by rewrite roundLeader_handlePlayerFinished.
Qed.

Lemma seated_afterPlay g seat p h' cards :
  seated g → players g !! seat = Some p → seated (afterPlay g seat p h' cards).
Proof.
  intros [H4 Hids Hcur Hl] Hp. split; simpl.
  - by rewrite length_insert.
  - by rewrite (ids_insert seat p).
  - done.
  - intros l [= <-]. rewrite <-H4. by eapply lookup_lt_Some.
Qed.

Lemma seated_newGameState rand infos :
  length infos = 4 → NoDup (info_id <$> infos) → seated (newGameState rand infos).
Proof.
  intros H4 Hnd. unfold newGameState.
  set (ps := imap _ infos).
  assert (id <$> ps = info_id <$> infos) as Hids.
  { apply list_eq. intros i. unfold ps.
    rewrite !list_lookup_fmap, list_lookup_imap. by destruct (infos !! i). }
  pose proof (ids_dealCards ps (createDeck rand)) as Hd.
  destruct (dealCards ps (createDeck rand)) as [ps' d']. cbn [fst] in Hd.
  split; simpl.
  - by rewrite <-(length_fmap id), Hd, Hids, length_fmap.
  - by rewrite Hd, Hids.
  - rewrite H4. apply randomBelow_lt. lia.
  - done.
Qed.

Lemma seated_playCards g seat cards b g' :
  seated g → playCards g seat cards = Some (b, g') → seated g'.
Proof.
  intros Hs. destruct b.
  - intros (current & p & h' & Hc & Hp & _ & _ & _ & _ & _ & ->)%playCards_accepted_inv.
    apply seated_nextTurn. unfold afterFinish.
    case_decide; [apply seated_handlePlayerFinished|]; by apply seated_afterPlay.
  - unfold playCards. intros H.
    destruct (players g !! currentPlayerIndex g) as [current|]; [|done].
    destruct (players g !! seat) as [p|] eqn:Hp; [|done]. simpl in H.
    destruct (canPlayCards g p cards) as [[]|]; simpl in H; [|by injection H as <-|done].
    destruct (hasCards (hand p) cards); simpl in H; [|by injection H as <-].
    destruct (removeCards (hand p) [] cards) as [[h' pc]|h']; [done|].
    injection H as <-. destruct Hs as [H4 Hids Hcur Hl]. split; simpl; try done.
    + by rewrite length_insert.
    + by rewrite (ids_insert seat p).
Qed.

Lemma seated_skipTurn g g' : seated g → skipTurn g = Some g' → seated g'.
Proof.
  intros Hs. unfold skipTurn.
  destruct (players g !! currentPlayerIndex g) as [current|]; [|done]. simpl.
  intros [= <-].
  match goal with |- context [nextTurn ?x] => assert (seated (nextTurn x)) as Hx end.
  { apply seated_nextTurn. by destruct Hs. }
  repeat (case_match || case_decide); try done; by apply seated_endRound.
Qed.

Lemma reachable_seated g : reachable g → seated g.
Proof.
  induction 1 as [rand infos H4 Hnd|g a b g' _ IH Ha].
  - by apply seated_newGameState.
  - destruct a as [seat cards|seat]; simpl in Ha.
    + by eapply seated_playCards.
    + unfold onSkipTurn in Ha. case_decide; [by injection Ha as _ <-|].
      destruct (skipTurn g) as [g1|] eqn:Hsk; [|done]. simpl in Ha.
      injection Ha as _ <-. by eapply seated_skipTurn.
Qed.
End seats.

(** ** Whose turn it is *)

(** C7.  Turn legality.  In every state a match reaches, a request made for a
    seat other than the current one is rejected, [playCards] by its answer
    [false] and [skipTurn] by its handler, and the state stays as it is. *)
Theorem turn_legality (g : GameState) (seat : nat) :
  reachable g → seat < 4 → seat ≠ currentPlayerIndex g →
  (∀ cards, onPlayCards g seat cards = Some (false, g)) ∧
  onSkipTurn g seat = Some (false, g).
Proof.
  intros [H4 Hids Hcur Hl]%reachable_seated Hseat Hne. split.
  - intros cards. unfold onPlayCards, playCards.
    destruct (lookup_lt_is_Some_2 (players g) (currentPlayerIndex g)) as [current Hc];
      [lia|].
    destruct (lookup_lt_is_Some_2 (players g) seat) as [p Hp]; [lia|].
    rewrite Hc, Hp. simpl. rewrite (canPlayCards_beats g current p cards Hc).
    rewrite bool_decide_false; [done|].
    intros Hid. apply Hne. symmetry. by eapply seat_of_id.
  - unfold onSkipTurn. by rewrite decide_True.
Qed.

(** At the opening it is the turn of seat 0: seat 1 is turned away. *)
Lemma turn_legality_witness :
  (∀ cards, onPlayCards opening 1 cards = Some (false, opening)) ∧
  onSkipTurn opening 1 = Some (false, opening).
Proof.
  apply (turn_legality opening 1).
  - exact reachable_opening.
  - lia.
  - intros H. vm_compute in H. discriminate H.
Defined.
(** ** Closing a round *)

Section rounds.
Implicit Types (g : GameState).

Lemma nextTurn_advance g :
  nextTurn g =
    if decide (length (activePlayers (players g)) ≤ currentRound g + 1)
    then endRound (advance g) else advance g.
Proof. done. Qed.

Lemma hasSkipped_seat g i p :
  NoDup (id <$> players g) → players g !! i = Some p →
  hasSkipped g p = bool_decide (i ∈ playersWhoSkipped g).
Proof.
  intros Hnd Hi. unfold hasSkipped.
  destruct (list_find _ (players g)) as [[j q]|] eqn:Hf.
  - apply list_find_Some in Hf as (Hj & Hid & _).
    by rewrite (seat_of_id (players g) j i q p).
  - apply list_find_None in Hf. rewrite Forall_forall in Hf.
    destruct (Hf p); [by eapply list_elem_of_lookup_2|done].
Qed.
End rounds.

(** C2.  Round closure.  In a state a match reaches, with a round leader,
    let the current seat skip.  If with that skip every seat that is still
    active, the leader apart, has skipped, then the skip is applied and the
    state it leaves has the turn at the round leader, an empty table and no
    recorded skips. *)
Theorem round_closure (g : GameState) (leader : nat) :
  reachable g →
  roundLeader g = Some leader →
  (∀ i p, players g !! i = Some p → finishPosition p = None → i ≠ leader →
          i ∈ ({[currentPlayerIndex g]} ∪ playersWhoSkipped g : gset nat)) →
  ∃ g', onSkipTurn g (currentPlayerIndex g) = Some (true, g') ∧
        currentPlayerIndex g' = leader ∧
        currentHighestCards g' = [] ∧
        playersWhoSkipped g' = ∅.
Proof.
  intros [H4 Hids Hcur Hl]%reachable_seated Hleader Hall.
  assert (leader < 4) as Hlt by by apply Hl.
  unfold onSkipTurn. rewrite decide_False by (intros ?; done).
  unfold skipTurn.
  destruct (lookup_lt_is_Some_2 (players g) (currentPlayerIndex g)) as [current Hc];
    [lia|].
  rewrite Hc. simpl. eexists. split; [done|].
  set (g1 := set_playersWhoSkipped _ g).
  assert (∀ x, roundLeader x = Some leader → length (players x) = 4 →
            currentPlayerIndex (endRound x) = leader ∧
            currentHighestCards (endRound x) = [] ∧
            playersWhoSkipped (endRound x) = ∅) as Hend.
  { intros x Hx Hx4. destruct (endRound_leader x leader Hx) as (?&?&?&?); [lia|done]. }
  rewrite roundLeader_nextTurn. change (roundLeader g1) with (roundLeader g).
  rewrite Hleader.
  assert (length (players (nextTurn g1)) = 4) as Hn4 by by rewrite players_nextTurn.
  assert (roundLeader (nextTurn g1) = Some leader) as Hnl
    by by rewrite roundLeader_nextTurn.
  case_decide as Hback; [by apply Hend|].
  (* the turn did not come back to the leader, so [nextTurn] closed nothing *)
  assert (nextTurn g1 = advance g1) as Hadv.
  { rewrite nextTurn_advance in Hback |- *. case_decide; [|done].
    destruct Hback. by apply Hend. }
  rewrite (proj2 (forallb_elem_of _ _)); [by apply Hend|].
  intros [i p] [[Hact Hi] Hin]%list_elem_of_filter. simpl in *.
  apply elem_of_lookup_imap in Hin as (i' & p' & [= -> ->] & Hp).
  rewrite Hadv in Hp |- *.
  rewrite (hasSkipped_seat (advance g1) i' p') by done.
  apply bool_decide_eq_true_2. by apply (Hall i' p').
Qed.

(** Seats 1 and 2 have skipped on the four 3s of seat 0: the skip of seat 3
    gives the turn back to seat 0, on an empty table. *)
Lemma round_closure_witness :
  ∃ g', onSkipTurn lastSkipDue (currentPlayerIndex lastSkipDue) = Some (true, g') ∧
        currentPlayerIndex g' = 0 ∧
        currentHighestCards g' = [] ∧
        playersWhoSkipped g' = ∅.
Proof.
  apply (round_closure lastSkipDue 0).
  - apply reachable_afterRun. eexists. by vm_compute.
  - by vm_compute.
  - intros i p Hi _ Hne. apply lookup_lt_Some in Hi.
    assert (length (players lastSkipDue) = 4) as H4 by (by vm_compute).
    rewrite H4 in Hi.
    assert (i = 1 ∨ i = 2 ∨ i = 3) as Hcases by lia.
    destruct Hcases as [-> | [-> | ->]]; apply (bool_decide_unpack _); by vm_compute.
Defined.
(** ** What an accepted play leaves behind *)

Section accepted_play.
Implicit Types (g : GameState).

Lemma table_handlePlayerFinished g seat :
  currentHighestCards (handlePlayerFinished g seat) = currentHighestCards g ∧
  playersWhoSkipped (handlePlayerFinished g seat) = playersWhoSkipped g ∧
  currentRound (handlePlayerFinished g seat) = currentRound g.
Proof. unfold handlePlayerFinished. by repeat (case_decide || case_match). Qed.

Lemma length_players_handlePlayerFinished g seat :
  length (players (handlePlayerFinished g seat)) = length (players g).
Proof. by rewrite <-(length_fmap id), ids_handlePlayerFinished, length_fmap. Qed.

Lemma playersWhoSkipped_nextTurn g :
  playersWhoSkipped g = ∅ → playersWhoSkipped (nextTurn g) = ∅.
Proof.
  intros He. rewrite nextTurn_advance. case_decide; [|done].
  unfold endRound. by destruct (roundLeader (advance g) ≫= _).
Qed.

(** The fields an accepted play has written when it calls [nextTurn]. *)
Lemma afterFinish_fields g seat p h' cards :
  players g !! seat = Some p →
  let gf := afterFinish (afterPlay g seat p h' cards) seat h' in
  roundLeader gf = Some seat ∧
  currentHighestCards gf = cards ∧
  playersWhoSkipped gf = ∅ ∧
  currentRound gf = currentRound g ∧
  seat < length (players gf).
Proof.
  intros Hp gf. subst gf. unfold afterFinish.
  assert (seat < length (players g)) by by eapply lookup_lt_Some.
  case_decide.
  - rewrite roundLeader_handlePlayerFinished, length_players_handlePlayerFinished.
    destruct (table_handlePlayerFinished (afterPlay g seat p h' cards) seat)
      as (-> & -> & ->).
    simpl. by rewrite length_insert.
  - simpl. by rewrite length_insert.
Qed.
End accepted_play.

(** C3, as the code has it.  After an accepted play the acting seat is the
    round leader and no skip is recorded.  When the play leaves the acting
    player with cards, the table holds exactly the played cards, unless this
    play is the turn that completes the round count of [nextTurn] (the turns
    taken since the last round end reach the number of players still
    active): then [endRound] has cleared the table and handed the turn back
    to the acting seat. *)
Theorem play_sets_table (g : GameState) (seat : nat) (cards : list Card) (g' : GameState) :
  playCards g seat cards = Some (true, g') →
  roundLeader g' = Some seat ∧
  playersWhoSkipped g' = ∅ ∧
  (∀ p', players g' !! seat = Some p' → hand p' ≠ [] →
     if decide (length (activePlayers (players g')) ≤ currentRound g + 1)
     then currentHighestCards g' = [] ∧ currentPlayerIndex g' = seat
     else currentHighestCards g' = cards).
Proof.
  intros (current & p & h' & Hc & Hp & _ & _ & _ & _ & _ & ->)%playCards_accepted_inv.
  destruct (afterFinish_fields g seat p h' cards Hp) as (Hl & Ht & Hs & Hr & Hlt).
  set (gf := afterFinish _ seat h') in *.
  rewrite roundLeader_nextTurn, playersWhoSkipped_nextTurn by done.
  split; [done|]. split; [done|]. intros p' _ _.
  rewrite players_nextTurn, nextTurn_advance, Hr. case_decide.
  - destruct (endRound_leader (advance gf) seat) as (? & ? & ? & _); done.
  - done.
Qed.

(** The first play of the match. *)
Lemma play_sets_table_witness :
  ∃ g', playCards opening 0 [mkCard "hearts" 3] = Some (true, g') ∧
        roundLeader g' = Some 0 ∧ playersWhoSkipped g' = ∅ ∧
        currentHighestCards g' = [mkCard "hearts" 3].
Proof.
  eexists. split; [by vm_compute|].
  destruct (play_sets_table opening 0 [mkCard "hearts" 3] _
              ltac:(by vm_compute)) as (Hl & Hs & Ht).
  split_and!; [exact Hl|exact Hs|].
  eapply Ht; [by vm_compute|]. intros Hnil. vm_compute in Hnil. discriminate Hnil.
Defined.

(** The fourth play in a row is accepted and leaves an empty table, not the
    played queen: the round count of [nextTurn] has ended the round. *)
Lemma play_clears_table_counterexample :
  reachable threePlayed ∧
  ∃ g', playCards threePlayed 3 [mkCard "spades" 12] = Some (true, g') ∧
        currentHighestCards g' = [] ∧
        currentHighestCards g' ≠ [mkCard "spades" 12].
Proof.
  split; [apply reachable_afterRun; eexists; by vm_compute|].
  eexists. split; [by vm_compute|]. split; by vm_compute.
Qed.

(** ** Rejected requests *)

Section rejected_play.
Implicit Types (g : GameState) (cards : list Card).

(** A rejected [playCards] has at most put the cards of the acting player's
    hand in another order. *)
Lemma playCards_rejected_inv g seat cards g' :
  playCards g seat cards = Some (false, g') →
  g' = g ∨
  ∃ p h', players g !! seat = Some p ∧ h' ≡ₚ hand p ∧ cards ⊆ hand p ∧
          ¬ NoDup cards ∧
          g' = set_players (<[seat := set_hand h' p]> (players g)) g.
Proof.
  unfold playCards. intros H.
  destruct (players g !! currentPlayerIndex g) as [current|]; [|done].
  destruct (players g !! seat) as [p|] eqn:Hp; [|done]. simpl in H.
  destruct (canPlayCards g p cards) as [[]|]; simpl in H;
    [|left; by injection H as <-|done].
  destruct (hasCards (hand p) cards) eqn:Hh; simpl in H; [|left; by injection H as <-].
  apply hasCards_true in Hh.
  destruct (removeCards (hand p) [] cards) as [[h' pc]|h'] eqn:Hr; [done|].
  injection H as <-. right. exists p, h'. split_and!; try done.
  - apply removeCards_inr in Hr. by rewrite app_nil_r in Hr.
  - intros Hnd. destruct (removeCards_NoDup (hand p) [] cards Hnd Hh) as [h'' Hr'].
    congruence.
Qed.

(** Requests that name no card twice are rejected without a trace. *)
Lemma playCards_rejected_NoDup g seat cards g' :
  NoDup cards → playCards g seat cards = Some (false, g') → g' = g.
Proof.
  intros Hnd [->|(p & h' & _ & _ & _ & Hdup & _)]%playCards_rejected_inv; done.
Qed.
End rejected_play.

(** C4 at its failing input.  At the opening of the match seat 0 asks to play
    the 3 of hearts twice.  The request is rejected, but the put-back of the
    removal loop has moved the 3 of hearts from the front of the hand to its
    end: the state is not the one before the call. *)
Theorem duplicate_request_reorders_hand :
  reachable opening ∧
  ∃ g', playCards opening 0 [mkCard "hearts" 3; mkCard "hearts" 3] = Some (false, g') ∧
        (hand <$> players opening !! 0) =
          Some (mkCard "hearts" 3 ::
                [mkCard "diamonds" 3; mkCard "clubs" 3; mkCard "spades" 3]
                ++ ofRank 4 ++ ofRank 5 ++ [mkCard "hearts" 6]) ∧
        (hand <$> players g' !! 0) =
          Some ([mkCard "diamonds" 3; mkCard "clubs" 3; mkCard "spades" 3]
                ++ ofRank 4 ++ ofRank 5 ++ [mkCard "hearts" 6]
                ++ [mkCard "hearts" 3]) ∧
        g' ≠ opening.
Proof.
  split; [exact reachable_opening|].
  eexists. split; [by vm_compute|]. split; [by vm_compute|]. split; [by vm_compute|].
  intros Heq. apply (f_equal (λ g, hand <$> players g !! 0)) in Heq.
  vm_compute in Heq. discriminate Heq.
Qed.

(** ** Finishing *)

Section active.
Implicit Types (ps : list Player) (p q : Player).

Lemma activePlayers_cons p ps :
  activePlayers (p :: ps) =
    if decide (finishPosition p = None) then p :: activePlayers ps
    else activePlayers ps.
Proof. done. Qed.

(** The number of active players depends on the finish positions only. *)
Lemma length_activePlayers_positions ps ps' :
  finishPosition <$> ps = finishPosition <$> ps' →
  length (activePlayers ps) = length (activePlayers ps').
Proof.
  revert ps'. induction ps as [|p ps IH]; intros [|p' ps'] Heq; try done.
  rewrite !fmap_cons in Heq. injection Heq as Hp Hps.
  rewrite !activePlayers_cons, Hp. case_decide; simpl; by rewrite (IH ps').
Qed.

Lemma positions_alter (f : Player → Player) i ps :
  (∀ p, finishPosition (f p) = finishPosition p) →
  finishPosition <$> alter f i ps = finishPosition <$> ps.
Proof.
  intros Hf. apply list_eq. intros j. rewrite !list_lookup_fmap.
  destruct (decide (i = j)) as [->|Hne].
  - rewrite list_lookup_alter_eq. destruct (ps !! j); simpl; by rewrite ?Hf.
  - by rewrite list_lookup_alter_ne.
Qed.

Lemma positions_insert i p p' ps :
  ps !! i = Some p → finishPosition p' = finishPosition p →
  finishPosition <$> <[i := p']> ps = finishPosition <$> ps.
Proof.
  intros Hi Hpos. rewrite list_fmap_insert, Hpos. apply list_insert_id.
  by rewrite list_lookup_fmap, Hi.
Qed.

(** Giving an active player a finish position leaves one active player less. *)
Lemma length_activePlayers_finish n i p ps :
  ps !! i = Some p → finishPosition p = None →
  S (length (activePlayers (alter (set_finishPosition n) i ps))) =
    length (activePlayers ps).
Proof.
  revert i. induction ps as [|q ps IH]; intros [|i] Hi Hp; simplify_eq/=.
  - rewrite !activePlayers_cons. simpl. by rewrite decide_True.
  - rewrite !activePlayers_cons. case_decide; simpl; by rewrite <-(IH i).
Qed.

Lemma activePlayers_lookup ps i p :
  ps !! i = Some p → finishPosition p = None → p ∈ activePlayers ps.
Proof.
  intros Hi Hp. apply list_elem_of_filter. split; [done|].
  by eapply list_elem_of_lookup_2.
Qed.

(** With at most one active player, two active seats are the same seat. *)
Lemma active_seat_unique ps i j p q :
  length (activePlayers ps) ≤ 1 →
  ps !! i = Some p → finishPosition p = None →
  ps !! j = Some q → finishPosition q = None → i = j.
Proof.
  revert i j. induction ps as [|r ps IH]; intros i j Hlen Hi Hp Hj Hq; [done|].
  rewrite activePlayers_cons in Hlen. destruct i as [|i], j as [|j]; simplify_eq/=.
  - done.
  - rewrite decide_True in Hlen by done. simpl in Hlen.
    pose proof (activePlayers_lookup ps j q Hj Hq) as Hin.
    destruct (activePlayers ps); [by apply not_elem_of_nil in Hin|simpl in Hlen; lia].
  - rewrite decide_True in Hlen by done. simpl in Hlen.
    pose proof (activePlayers_lookup ps i p Hi Hp) as Hin.
    destruct (activePlayers ps); [by apply not_elem_of_nil in Hin|simpl in Hlen; lia].
  - f_equal. apply (IH i j); try done. case_decide; simpl in Hlen; lia.
Qed.

Lemma activePlayers_all ps :
  (∀ p, p ∈ ps → finishPosition p = None) → activePlayers ps = ps.
Proof.
  induction ps as [|p ps IH]; intros Hall; [done|].
  rewrite activePlayers_cons, decide_True by (apply Hall; left).
  f_equal. apply IH. intros q Hq. apply Hall. by right.
Qed.

Lemma activePlayers_nil ps :
  activePlayers ps = [] ↔ ∀ i p, ps !! i = Some p → finishPosition p ≠ None.
Proof.
  split.
  - intros Hnil i p Hi Hp. pose proof (activePlayers_lookup ps i p Hi Hp) as Hin.
    rewrite Hnil in Hin. by apply not_elem_of_nil in Hin.
  - intros Hall. destruct (activePlayers ps) as [|p l] eqn:Ha; [done|].
    assert (p ∈ activePlayers ps) as [Hp Hin]%list_elem_of_filter
      by (rewrite Ha; left).
    apply list_elem_of_lookup in Hin as [i Hi]. by destruct (Hall i p).
Qed.
End active.

Section handlePlayerFinished.
Implicit Types (g : GameState) (p q : Player).

(** [handlePlayerFinished] on an active player, short of a fourth finisher:
    the player gets the next position; when two players were active, the
    other one is given the last position and the game is over; nobody else
    is touched. *)
Lemma handlePlayerFinished_spec g seat p :
  players g !! seat = Some p → finishPosition p = None →
  finishedPlayers g + 1 ≠ 4 →
  let g' := handlePlayerFinished g seat in
  let n := finishedPlayers g + 1 in
  finishedPlayers g' = n ∧
  (∃ p', players g' !! seat = Some p' ∧ finishPosition p' = Some n ∧
         hand p' = hand p) ∧
  ((length (activePlayers (players g)) ≠ 2 ∧ gamePhase g' = gamePhase g ∧
    S (length (activePlayers (players g'))) = length (activePlayers (players g)) ∧
    ∀ j, j ≠ seat → players g' !! j = players g !! j)
   ∨
   (length (activePlayers (players g)) = 2 ∧ gamePhase g' = gameOver ∧
    activePlayers (players g') = [] ∧
    ∃ last q, last ≠ seat ∧ players g !! last = Some q ∧
      finishPosition q = None ∧
      players g' !! last = Some (set_finishPosition (length (players g)) q) ∧
      ∀ j, j ≠ seat → j ≠ last →
        players g' !! j = players g !! j ∧
        ∀ r, players g !! j = Some r → finishPosition r ≠ None)).
Proof.
  intros Hp Hnone Hn4 g' n. subst g'. unfold handlePlayerFinished. cbv zeta.
  fold n. rewrite !(decide_False (P := n = 4)) by done.
  set (ps1 := alter (set_finishPosition n) seat (players g)).
  set (ps2 := if decide (n = 1) then alter (set_isWinner true) seat ps1 else ps1).
  assert (∃ p2, ps2 !! seat = Some p2 ∧ finishPosition p2 = Some n ∧
                hand p2 = hand p) as (p2 & Hp2 & Hn2 & Hh2).
  { unfold ps2, ps1. case_decide.
    - exists (set_isWinner true (set_finishPosition n p)).
      by rewrite !list_lookup_alter_eq, Hp.
    - exists (set_finishPosition n p). by rewrite list_lookup_alter_eq, Hp. }
  assert (∀ j, j ≠ seat → ps2 !! j = players g !! j) as Hother.
  { intros j Hj. unfold ps2, ps1.
    case_decide; by rewrite ?list_lookup_alter_ne by done. }
  assert (S (length (activePlayers ps2)) = length (activePlayers (players g))) as Hact.
  { rewrite <-(length_activePlayers_finish n seat p (players g)) by done.
    f_equal. apply length_activePlayers_positions. unfold ps2. case_decide; [|done].
    by apply positions_alter. }
  assert (length ps2 = length (players g)) as Hlen.
  { unfold ps2, ps1. case_decide; by rewrite ?length_alter. }
  destruct (list_find _ ps2) as [[last q]|] eqn:Hfind.
  - apply list_find_Some in Hfind as (Hlast & Hq & _).
    assert (last ≠ seat) as Hne by (intros ->; congruence).
    pose proof Hlast as Hlast'. rewrite Hother in Hlast' by done.
    pose proof (activePlayers_lookup ps2 last q Hlast Hq) as Hin.
    case_decide as Hle.
    + simpl. split; [done|]. split.
      { exists p2. by rewrite list_lookup_alter_ne. }
      right. split.
      { destruct (activePlayers ps2) as [|? [|? ?]];
          [by apply not_elem_of_nil in Hin|simpl in Hact; lia|simpl in Hle; lia]. }
      split; [done|]. split.
      { pose proof (length_activePlayers_finish (length ps2) last q ps2 Hlast Hq).
        apply length_zero_iff_nil. lia. }
      exists last, q. split_and!; try done.
      * by rewrite list_lookup_alter_eq, Hlast, Hlen.
      * intros j Hj Hjl. rewrite list_lookup_alter_ne by done. split; [by apply Hother|].
        intros r Hr Hrn. rewrite <-Hother in Hr by done.
        by destruct (Hjl (active_seat_unique ps2 j last r q Hle Hr Hrn Hlast Hq)).
    + simpl. split; [done|]. split; [by exists p2|].
      left. split_and!; [lia|done|done|done].
  - apply list_find_None in Hfind.
    assert (activePlayers ps2 = []) as Hnil.
    { apply activePlayers_nil. intros i r Hi Hr.
      rewrite Forall_forall in Hfind. apply (Hfind r); [|done].
      by eapply list_elem_of_lookup_2. }
    pose proof Hact as Hact'. rewrite Hnil in Hact'. simpl in Hact'.
    simpl. split; [done|]. split; [by exists p2|].
    left. split_and!; [lia|done|done|done].
Qed.
End handlePlayerFinished.

Section bookkeeping.
Implicit Types (g : GameState) (p q : Player).

Lemma bookkeeping_endRound g :
  gamePhase (endRound g) = gamePhase g ∧
  finishedPlayers (endRound g) = finishedPlayers g.
Proof. unfold endRound. by destruct (roundLeader g ≫= _). Qed.

Lemma bookkeeping_nextTurn g :
  gamePhase (nextTurn g) = gamePhase g ∧
  finishedPlayers (nextTurn g) = finishedPlayers g.
Proof.
  rewrite nextTurn_advance. case_decide; [|done].
  exact (bookkeeping_endRound (advance g)).
Qed.

(** A state with the same players and bookkeeping is as well kept, provided
    the turn stays with the round leader once the game is over. *)
Lemma bookkept_same g g' :
  players g' = players g → gamePhase g' = gamePhase g →
  finishedPlayers g' = finishedPlayers g → roundLeader g' = roundLeader g →
  (gamePhase g = gameOver → ∀ l, roundLeader g = Some l → currentPlayerIndex g' = l) →
  bookkept g → bookkept g'.
Proof.
  intros Hps Hph Hfp Hrl Hcur [Hphase Hactive Hfin Hcount Hover].
  split; rewrite ?Hps, ?Hph, ?Hfp, ?Hrl; try done.
  intros Hgo. destruct (Hover Hgo) as (Hnil & l & p & Hl & Hc & Hp & Hh).
  split; [done|]. exists l, p. split_and!; try done. by apply Hcur.
Qed.

Lemma bookkept_endRound g : bookkept g → bookkept (endRound g).
Proof.
  intros Hbk. apply (bookkept_same g); try done;
    try apply players_endRound; try apply roundLeader_endRound;
    try apply bookkeeping_endRound.
  intros Hgo l Hl. destruct (bk_over g Hbk Hgo) as (_ & l' & p & Hl' & _ & Hp & _).
  assert (l' = l) as -> by congruence.
  destruct (endRound_leader g l Hl) as [? _]; [by eapply lookup_lt_Some|done].
Qed.

Lemma bookkept_advance g :
  gamePhase g = playing → bookkept g → bookkept (advance g).
Proof. intros Hpl. apply bookkept_same; try done. by rewrite Hpl. Qed.

Lemma bookkept_nextTurn g : bookkept g → bookkept (nextTurn g).
Proof.
  intros Hbk. destruct (bk_phase g Hbk) as [Hpl|Hgo].
  - rewrite nextTurn_advance.
    case_decide; [apply bookkept_endRound|]; by apply bookkept_advance.
  - apply (bookkept_same g); try done;
      try apply players_nextTurn; try apply roundLeader_nextTurn;
      try apply bookkeeping_nextTurn.
    intros _ l Hl. destruct (bk_over g Hbk Hgo) as (Hnil & l' & p & Hl' & _ & Hp & _).
    assert (l' = l) as -> by congruence.
    rewrite nextTurn_advance, Hnil, decide_True by (simpl; lia).
    destruct (endRound_leader (advance g) l Hl) as [? _]; [|done].
    by eapply lookup_lt_Some.
Qed.

Lemma bookkept_skipTurn g g' : bookkept g → skipTurn g = Some g' → bookkept g'.
Proof.
  intros Hbk. unfold skipTurn.
  destruct (players g !! currentPlayerIndex g) as [current|]; [|done]. simpl.
  intros [= <-].
  match goal with |- context [nextTurn ?x] => assert (bookkept (nextTurn x)) as Hx end.
  { apply bookkept_nextTurn. apply (bookkept_same g); try done.
    intros Hgo l Hl. destruct (bk_over g Hbk Hgo) as (_ & l' & p & Hl' & Hc & _).
    simpl. congruence. }
  repeat (case_match || case_decide); try done; by apply bookkept_endRound.
Qed.

(** Writing a hand that is empty exactly when the old one was. *)
Lemma bookkept_set_hand g g1 seat p h' :
  players g !! seat = Some p →
  (h' = [] ↔ hand p = []) →
  players g1 = <[seat := set_hand h' p]> (players g) →
  gamePhase g1 = gamePhase g → finishedPlayers g1 = finishedPlayers g →
  (gamePhase g = gameOver →
     roundLeader g1 = roundLeader g ∧ currentPlayerIndex g1 = currentPlayerIndex g) →
  bookkept g → bookkept g1.
Proof.
  intros Hp Hh Hps Hph Hfp Hgo [Hphase Hactive Hfin Hcount Hover].
  assert (∀ i q', players g1 !! i = Some q' →
            ∃ q, players g !! i = Some q ∧ finishPosition q' = finishPosition q ∧
                 (hand q' = [] ↔ hand q = [])) as Hlook.
  { intros i q' Hi. rewrite Hps in Hi. destruct (decide (i = seat)) as [->|Hne].
    - rewrite list_lookup_insert_eq in Hi by by eapply lookup_lt_Some.
      injection Hi as <-. by exists p.
    - rewrite list_lookup_insert_ne in Hi by done. by exists q'. }
  assert (length (activePlayers (players g1)) = length (activePlayers (players g)))
    as Hlen.
  { apply length_activePlayers_positions. rewrite Hps. by apply (positions_insert seat p). }
  split; rewrite ?Hph, ?Hfp.
  - done.
  - intros i q' Hi Hnone. destruct (Hlook i q' Hi) as (q & Hq & Hpos & Hhq).
    rewrite Hhq. apply (Hactive i q Hq). congruence.
  - intros Hpl i q' k Hi Hk. destruct (Hlook i q' Hi) as (q & Hq & Hpos & Hhq).
    rewrite Hpos in Hk. destruct (Hfin Hpl i q k Hq Hk) as [Hempty Hle].
    split; [by apply Hhq|done].
  - intros Hpl. rewrite Hlen. by apply Hcount.
  - intros Hover'. destruct (Hover Hover') as (Hnil & l & q & Hl & Hc & Hq & Hempty).
    destruct (Hgo Hover') as [-> ->]. split.
    + apply length_zero_iff_nil. rewrite Hlen, Hnil. done.
    + destruct (decide (l = seat)) as [->|Hne].
      * exists seat, (set_hand h' p). split_and!; try done.
        -- rewrite Hps. apply list_lookup_insert_eq. by eapply lookup_lt_Some.
        -- simpl. apply Hh. congruence.
      * exists l, q. split_and!; try done.
        rewrite Hps. by rewrite list_lookup_insert_ne.
Qed.
End bookkeeping.

Section finishing.
Implicit Types (g : GameState) (p q : Player) (cards : list Card).

Lemma skipTurn_bookkeeping g g' :
  skipTurn g = Some g' →
  players g' = players g ∧ gamePhase g' = gamePhase g ∧
  finishedPlayers g' = finishedPlayers g.
Proof.
  unfold skipTurn.
  destruct (players g !! currentPlayerIndex g) as [current|]; [|done]. simpl.
  intros [= <-]. set (g1 := set_playersWhoSkipped _ g).
  assert (∀ x, players x = players g1 → gamePhase x = gamePhase g1 →
            finishedPlayers x = finishedPlayers g1 →
            players (endRound x) = players g ∧ gamePhase (endRound x) = gamePhase g ∧
            finishedPlayers (endRound x) = finishedPlayers g) as Hend.
  { intros x Hps Hph Hfp. rewrite players_endRound.
    destruct (bookkeeping_endRound x) as [-> ->]. by rewrite Hps, Hph, Hfp. }
  pose proof (players_nextTurn g1) as Hps.
  destruct (bookkeeping_nextTurn g1) as [Hph Hfp].
  repeat (case_match || case_decide); try (by apply Hend); done.
Qed.

(** An accepted play in a match is made by the current seat, whose player is
    still active, while the game is on. *)
Lemma accepted_in_match g seat cards g' :
  seated g → bookkept g → playCards g seat cards = Some (true, g') →
  ∃ p h',
    players g !! seat = Some p ∧ seat = currentPlayerIndex g ∧
    gamePhase g = playing ∧ finishPosition p = None ∧
    hand p ≡ₚ cards ++ h' ∧ cards ≠ [] ∧
    g' = nextTurn (afterFinish (afterPlay g seat p h' cards) seat h').
Proof.
  intros Hs Hbk
    (current & p & h' & Hc & Hp & Hid & Hb & Hsub & _ & Hperm & ->)%playCards_accepted_inv.
  assert (seat = currentPlayerIndex g) as Hseat.
  { symmetry. eapply seat_of_id; [apply (seated_ids g Hs)|done..]. }
  assert (cards ≠ []) as Hne by (intros ->; done).
  assert (hand p ≠ []) as Hhand.
  { intros Hnil. rewrite Hnil in Hperm. symmetry in Hperm.
    apply Permutation_nil_r in Hperm. by destruct cards. }
  assert (gamePhase g = playing) as Hpl.
  { destruct (bk_phase g Hbk) as [?|Hgo]; [done|].
    destruct (bk_over g Hbk Hgo) as (_ & l & q & _ & Hl & Hq & Hnil).
    rewrite <-Hseat in Hl. subst l. congruence. }
  exists p, h'. split_and!; try done.
  destruct (finishPosition p) as [k|] eqn:Hk; [|done].
  by destruct (bk_finished g Hbk Hpl seat p k Hp Hk).
Qed.

(** The play that empties a hand. *)
Lemma finishing_facts g seat p cards :
  seated g → bookkept g →
  players g !! seat = Some p → finishPosition p = None → gamePhase g = playing →
  let gf := handlePlayerFinished (afterPlay g seat p [] cards) seat in
  let n := finishedPlayers g + 1 in
  finishedPlayers gf = n ∧ n ≤ 3 ∧
  (∃ p', players gf !! seat = Some p' ∧ finishPosition p' = Some n ∧ hand p' = []) ∧
  ((n < 3 ∧ gamePhase gf = playing ∧
    length (activePlayers (players gf)) + n = 4 ∧
    ∀ j, j ≠ seat → players gf !! j = players g !! j)
   ∨
   (n = 3 ∧ gamePhase gf = gameOver ∧ activePlayers (players gf) = [] ∧
    ∃ last q, last ≠ seat ∧ players g !! last = Some q ∧
      finishPosition q = None ∧
      players gf !! last = Some (set_finishPosition 4 q) ∧
      ∀ j, j ≠ seat → j ≠ last →
        players gf !! j = players g !! j ∧
        ∀ r, players g !! j = Some r → finishPosition r ≠ None)).
Proof.
  intros Hs Hbk Hp Hnone Hpl gf n. subst gf.
  set (g1 := afterPlay g seat p [] cards).
  destruct (bk_count g Hbk Hpl) as [Hcount Hle].
  assert (seat < length (players g)) as Hlt by by eapply lookup_lt_Some.
  assert (players g1 !! seat = Some (set_hand [] p)) as Hp1
    by by apply list_lookup_insert_eq.
  assert (∀ j, j ≠ seat → players g1 !! j = players g !! j) as Hother
    by (intros j Hj; by apply list_lookup_insert_ne).
  assert (length (activePlayers (players g1)) = length (activePlayers (players g)))
    as Hact.
  { apply length_activePlayers_positions. by apply (positions_insert seat p). }
  assert (length (players g1) = 4) as H4.
  { unfold g1. simpl. rewrite length_insert. apply (seated_four g Hs). }
  destruct (handlePlayerFinished_spec g1 seat (set_hand [] p) Hp1 Hnone)
    as (Hfp & (p' & Hp' & Hn' & Hh') & Hcases); [simpl; lia|].
  change (finishedPlayers g1) with (finishedPlayers g) in *. fold n in Hfp, Hn'.
  split; [done|]. split; [lia|]. split; [by exists p'|].
  destruct Hcases as [(Hne2 & Hph & Hact' & Hoth)|(He2 & Hph & Hnil & last & q & Hcase)].
  - left. rewrite Hact in Hne2, Hact'. split_and!; [lia|by rewrite Hph|lia|].
    intros j Hj. rewrite Hoth by done. by apply Hother.
  - right. rewrite Hact in He2. split_and!; [lia|done|done|].
    destruct Hcase as (Hlast & Hq & Hqn & Hq' & Hrest).
    exists last, q. rewrite Hother in Hq by done. rewrite H4 in Hq'.
    split_and!; try done.
    intros j Hj Hjl. destruct (Hrest j Hj Hjl) as [Hsame Hfin].
    rewrite Hother in Hsame, Hfin by done. done.
Qed.

Lemma bookkept_playCards g seat cards b g' :
  seated g → bookkept g → playCards g seat cards = Some (b, g') → bookkept g'.
Proof.
  intros Hs Hbk Hplay. destruct b.
  - destruct (accepted_in_match g seat cards g' Hs Hbk Hplay)
      as (p & h' & Hp & Hseat & Hpl & Hnone & Hperm & Hne & ->).
    apply bookkept_nextTurn. unfold afterFinish. case_decide as Hh'.
    + subst h'.
      destruct (finishing_facts g seat p cards Hs Hbk Hp Hnone Hpl)
        as (Hfp & Hle & (p' & Hp' & Hn' & Hh') & Hcases).
      set (gf := handlePlayerFinished _ seat) in *.
      destruct Hcases as [(Hlt & Hph & Hact & Hoth)|(He & Hph & Hnil & _)].
      * split; rewrite ?Hph, ?Hfp; try done.
        -- by left.
        -- intros i q Hi Hq. destruct (decide (i = seat)) as [->|Hi'];
             [congruence|]. rewrite Hoth in Hi by done. by apply (bk_active g Hbk i).
        -- intros _ i q k Hi Hk. destruct (decide (i = seat)) as [->|Hi'].
           ++ assert (q = p') as -> by congruence. split; [done|].
              assert (k = finishedPlayers g + 1) by congruence. lia.
           ++ rewrite Hoth in Hi by done.
              destruct (bk_finished g Hbk Hpl i q k Hi Hk). split; [done|lia].
        -- intros _. split; [lia|lia].
      * split; rewrite ?Hph; try done.
        -- by right.
        -- intros i q Hi Hq. exfalso. revert Hq.
           by apply (proj1 (activePlayers_nil _) Hnil i q).
        -- intros _. split; [done|]. exists seat, p'. split_and!; try done.
           ++ unfold gf. by rewrite roundLeader_handlePlayerFinished.
           ++ unfold gf. by rewrite currentPlayerIndex_handlePlayerFinished.
    + apply (bookkept_set_hand g _ seat p h'); try done.
      * split; [done|]. intros Hnil. rewrite Hnil in Hperm. symmetry in Hperm.
        apply Permutation_nil_r in Hperm. by destruct cards.
      * intros Hgo. congruence.
  - apply playCards_rejected_inv in Hplay
      as [->|(p & h' & Hp & Hperm & _ & _ & ->)]; [done|].
    apply (bookkept_set_hand g _ seat p h'); try done.
    split; intros Hnil; rewrite Hnil in Hperm.
    + by apply Permutation_nil_l in Hperm.
    + by apply Permutation_nil_r in Hperm.
Qed.

Lemma bookkept_newGameState rand infos :
  length infos = 4 → bookkept (newGameState rand infos).
Proof.
  intros H4. pose proof (newGameState_hands rand infos H4) as (Hlen & H13 & _).
  unfold newGameState in *.
  set (ps := imap _ infos) in *.
  assert (∀ i p, ps !! i = Some p → finishPosition p = None) as Hnone.
  { intros i p Hi. unfold ps in Hi. rewrite list_lookup_imap in Hi.
    destruct (infos !! i); by simplify_eq/=. }
  pose proof (dealCards_lookup ps (createDeck rand)) as Hlook.
  destruct (dealCards ps (createDeck rand)) as [ps' d']. cbn [fst snd players] in *.
  assert (∀ i p, ps' !! i = Some p → finishPosition p = None) as Hnone'.
  { intros i p' Hi. destruct (Hlook i p' Hi) as (p & Hp & ->). simpl. by eapply Hnone. }
  split; simpl.
  - by left.
  - intros i p Hi _ Hnil. rewrite Forall_forall in H13.
    pose proof (H13 p ltac:(by eapply list_elem_of_lookup_2)) as Hl.
    rewrite Hnil in Hl. done.
  - intros _ i p k Hi Hk. rewrite (Hnone' i p Hi) in Hk. done.
  - intros _. split; [|lia]. rewrite Nat.add_0_r, <-Hlen. f_equal.
    apply activePlayers_all. intros p Hp.
    apply list_elem_of_lookup in Hp as [i Hi]. by eapply Hnone'.
  - done.
Qed.

Lemma reachable_bookkept g : reachable g → bookkept g.
Proof.
  induction 1 as [rand infos H4 Hnd|g a b g' Hg IH Ha].
  - by apply bookkept_newGameState.
  - apply reachable_seated in Hg. destruct a as [seat cards|seat]; simpl in Ha.
    + by eapply bookkept_playCards.
    + unfold onSkipTurn in Ha. case_decide; [by injection Ha as _ <-|].
      destruct (skipTurn g) as [g1|] eqn:Hsk; [|done]. simpl in Ha.
      injection Ha as _ <-. by eapply bookkept_skipTurn.
Qed.
End finishing.

(** C5.  Finish ordering, request by request, in every match.  A handled
    request either empties no hand and leaves every finish position, the count
    of finished players and the phase as they are, or it is an accepted play
    that empties the hand of the acting seat.  The positions 1, 2, 3 are thus
    given in the order in which hands become empty, each above the ones given
    before, and position 4 is given, with [gameOver], to the one player left
    at the moment the third hand is emptied, without a play of theirs. *)
Theorem finish_order (g : GameState) (a : Action) (b : bool) (g' : GameState) :
  reachable g → perform g a = Some (b, g') →
  nothingFinished g g' ∨
  ∃ seat cards, a = Play seat cards ∧ b = true ∧ finishes g seat g'.
Proof.
  intros Hreach Ha. unfold nothingFinished, finishes. set (n := finishedPlayers g).
  pose proof (reachable_seated g Hreach) as Hs.
  pose proof (reachable_bookkept g Hreach) as Hbk.
  destruct a as [seat cards|seat]; simpl in Ha.
  2:{ left. unfold onSkipTurn in Ha. case_decide.
      - injection Ha as _ <-. split_and!; try done. congruence.
      - destruct (skipTurn g) as [g1|] eqn:Hsk; [|done]. simpl in Ha.
        injection Ha as _ <-.
        destruct (skipTurn_bookkeeping g g1 Hsk) as (Hps & Hph & Hfp).
        rewrite Hps. split_and!; try done. congruence. }
  unfold onPlayCards in Ha. destruct b.
  2:{ left. apply playCards_rejected_inv in Ha
        as [->|(p & h' & Hp & Hperm & _ & _ & ->)].
      - split_and!; try done. congruence.
      - simpl. split_and!; try done; [|by apply (positions_insert seat p)].
        intros j q q' Hq Hq' Hnil. destruct (decide (j = seat)) as [->|Hne].
        + rewrite list_lookup_insert_eq in Hq' by by eapply lookup_lt_Some.
          simplify_eq/=. by apply Permutation_nil_l in Hperm.
        + rewrite list_lookup_insert_ne in Hq' by done. congruence. }
  destruct (accepted_in_match g seat cards g' Hs Hbk Ha)
    as (p & h' & Hp & Hseat & Hpl & Hnone & Hperm & Hne & ->).
  assert (hand p ≠ []) as Hhand.
  { intros Hnil. rewrite Hnil in Hperm. symmetry in Hperm.
    apply Permutation_nil_r in Hperm. by destruct cards. }
  rewrite players_nextTurn.
  destruct (bookkeeping_nextTurn (afterFinish (afterPlay g seat p h' cards) seat h'))
    as [-> ->].
  unfold afterFinish. case_decide as Hh'.
  2:{ left. simpl. split_and!; try done; [|by apply (positions_insert seat p)].
      intros j q q' Hq Hq' Hnil. destruct (decide (j = seat)) as [->|Hj].
      - rewrite list_lookup_insert_eq in Hq' by by eapply lookup_lt_Some.
        by simplify_eq/=.
      - rewrite list_lookup_insert_ne in Hq' by done. congruence. }
  subst h'. right.
  destruct (finishing_facts g seat p cards Hs Hbk Hp Hnone Hpl)
    as (Hfp & Hle & (p' & Hp' & Hn' & Hh') & Hcases).
  set (gf := handlePlayerFinished _ seat) in *. fold n in Hfp, Hle, Hn', Hcases.
  exists seat, cards. split; [done|]. split; [done|].
  exists p, p'. split_and!; try done.
  - intros j q k Hq Hk. destruct (bk_finished g Hbk Hpl j q k Hq Hk) as [_ Hkn].
    split; [fold n in Hkn; lia|]. exists q. split; [|done].
    assert (j ≠ seat) as Hj by (intros ->; congruence).
    destruct Hcases as [(_ & _ & _ & Hoth)|(_ & _ & _ & last & r & _ & Hr & Hrn & _ & Hoth)].
    + by rewrite Hoth.
    + assert (j ≠ last) as Hjl by (intros ->; congruence).
      destruct (Hoth j Hj Hjl) as [-> _]. done.
  - intros Hlt.
    destruct Hcases as [(_ & Hph & _ & Hoth)|(He & _)]; [|lia].
    split; [done|]. intros j q Hj Hq. by rewrite Hoth.
  - intros He.
    destruct Hcases as [(Hlt & _)|(_ & Hph & _ & last & q & Hlast & Hq & Hqn & Hq' & Hoth)];
      [lia|].
    split; [done|]. exists last, q. split_and!; try done.
    + by apply (bk_active g Hbk last).
    + intros j r Hr Hrn. destruct (decide (j = seat)) as [|Hj]; [by left|].
      destruct (decide (j = last)) as [|Hjl]; [by right|].
      destruct (Hoth j Hj Hjl) as [_ Hfin]. by destruct (Hfin r).
Qed.

(** ** A player goes out *)

(** The state in which seat 0 is to play its last card. *)
Example lastCardDue_state :
  is_Some (run opening untilLastCard) ∧
  currentPlayerIndex lastCardDue = 0 ∧
  hand <$> players lastCardDue !! 0 = Some [mkCard "hearts" 6] ∧
  finishedPlayers lastCardDue = 0 ∧
  currentHighestCards lastCardDue = [].
Proof. split; [eexists; by vm_compute|by vm_compute]. Qed.

Lemma reachable_lastCardDue : reachable lastCardDue.
Proof. apply reachable_afterRun. eexists. by vm_compute. Defined.

(** The play of the 6 of hearts, the last card of seat 0. *)
Lemma finish_order_witness :
  nothingFinished lastCardDue seatZeroOut ∨
  ∃ seat cards,
    Play 0 [mkCard "hearts" 6] = Play seat cards ∧ true = true ∧
    finishes lastCardDue seat seatZeroOut.
Proof.
  apply (finish_order lastCardDue (Play 0 [mkCard "hearts" 6]) true seatZeroOut).
  - exact reachable_lastCardDue.
  - by vm_compute.
Defined.

Section going_out.
Implicit Types (g : GameState) (cards : list Card).

(** After an accepted play the acting seat leads the round and nobody has
    skipped. *)
Lemma accepted_leader g seat cards g' :
  playCards g seat cards = Some (true, g') →
  roundLeader g' = Some seat ∧ playersWhoSkipped g' = ∅.
Proof.
  intros (current & p & h' & Hc & Hp & _ & _ & _ & _ & _ & ->)%playCards_accepted_inv.
  destruct (afterFinish_fields g seat p h' cards Hp) as (Hl & _ & Hs & _).
  by rewrite roundLeader_nextTurn, playersWhoSkipped_nextTurn.
Qed.
End going_out.

(** C6, as the code has it.  An accepted play that empties the acting
    player's hand while the game goes on gives that player the next finish
    position and otherwise ends like any accepted play: the acting seat, now
    finished, is the round leader ([roundLeader] is never reset) and no skip
    is recorded. *)
Theorem finishing_play_keeps_leader
    (g : GameState) (seat : nat) (cards : list Card) (g' : GameState) :
  reachable g →
  playCards g seat cards = Some (true, g') →
  hand <$> players g' !! seat = Some [] →
  gamePhase g' = playing →
  roundLeader g' = Some seat ∧
  playersWhoSkipped g' = ∅ ∧
  finishPosition <$> players g' !! seat = Some (Some (finishedPlayers g + 1)) ∧
  finishedPlayers g' = finishedPlayers g + 1.
Proof.
  intros Hreach Hplay Hempty Hpl'.
  destruct (accepted_leader g seat cards g' Hplay) as [Hl Hsk].
  split; [done|]. split; [done|].
  pose proof (reachable_seated g Hreach) as Hs.
  pose proof (reachable_bookkept g Hreach) as Hbk.
  destruct (accepted_in_match g seat cards g' Hs Hbk Hplay)
    as (p & h' & Hp & Hseat & Hpl & Hnone & Hperm & Hne & ->).
  rewrite players_nextTurn in Hempty |- *.
  destruct (bookkeeping_nextTurn (afterFinish (afterPlay g seat p h' cards) seat h'))
    as [_ ->].
  unfold afterFinish in *. case_decide as Hh'.
  - subst h'.
    destruct (finishing_facts g seat p cards Hs Hbk Hp Hnone Hpl)
      as (Hfp & _ & (p' & Hp' & Hn' & _) & _).
    by rewrite Hp', Hfp, <-Hn'.
  - simpl in Hempty.
    rewrite list_lookup_insert_eq in Hempty by by eapply lookup_lt_Some.
    by simplify_eq/=.
Qed.

(** Seat 0 has gone out first and leads the round. *)
Lemma finishing_play_keeps_leader_witness :
  roundLeader seatZeroOut = Some 0 ∧
  playersWhoSkipped seatZeroOut = ∅ ∧
  finishPosition <$> players seatZeroOut !! 0
    = Some (Some (finishedPlayers lastCardDue + 1)) ∧
  finishedPlayers seatZeroOut = finishedPlayers lastCardDue + 1.
Proof.
  apply (finishing_play_keeps_leader lastCardDue 0 [mkCard "hearts" 6] seatZeroOut).
  - exact reachable_lastCardDue.
  - by vm_compute.
  - by vm_compute.
  - by vm_compute.
Defined.

(** Seat 0 plays its last card with nobody finished before.  The play is
    accepted and the game goes on, with the 6 of hearts on the table and
    seat 0 as round leader: the table is not cleared and the leader is not
    reset. *)
Lemma finishing_play_counterexample :
  reachable lastCardDue ∧
  finishedPlayers lastCardDue = 0 ∧
  ∃ g', playCards lastCardDue 0 [mkCard "hearts" 6] = Some (true, g') ∧
        hand <$> players g' !! 0 = Some [] ∧
        gamePhase g' = playing ∧
        currentHighestCards g' = [mkCard "hearts" 6] ∧
        roundLeader g' = Some 0 ∧
        ¬ (currentHighestCards g' = [] ∧ roundLeader g' = None).
Proof.
  split; [exact reachable_lastCardDue|]. split; [by vm_compute|].
  eexists. split; [by vm_compute|]. split_and!; try by vm_compute.
  intros [Ht _]. vm_compute in Ht. discriminate Ht.
Qed.

(** The loop of [nextTurn] does keep the turn off finished players: with
    four seats and somebody active, the seat it stops at is active. *)
Lemma nextSeat_active (ps : list Player) (cur : nat) :
  length ps = 4 → cur < 4 →
  (∃ i p, ps !! i = Some p ∧ finishPosition p = None) →
  finishedAt ps (nextSeat ps 4 cur) = false.
Proof.
  intros Hlen Hcur (i & p & Hi & Hp).
  destruct ps as [|[? ? ? ? ? f0] [|[? ? ? ? ? f1] [|[? ? ? ? ? f2]
    [|[? ? ? ? ? f3] [|]]]]]; try done.
  assert (i < 4) as Hi4 by (apply lookup_lt_Some in Hi; simpl in Hi; lia).
  assert (cur = 0 ∨ cur = 1 ∨ cur = 2 ∨ cur = 3) as Hc by lia.
  destruct Hc as [-> | [-> | [-> | ->]]];
    destruct f0, f1, f2, f3; try (by vm_compute);
    exfalso; destruct i as [|[|[|[|]]]]; simplify_eq/=; lia.
Qed.

Lemma advance_active (g : GameState) :
  seated g →
  (∃ i p, players g !! i = Some p ∧ finishPosition p = None) →
  finishedAt (players g) (currentPlayerIndex (advance g)) = false.
Proof.
  intros [H4 _ Hcur _] Hactive. simpl. rewrite H4. by apply nextSeat_active.
Qed.

(** C9 at its failing input.  Seat 0 has gone out with the 6 of hearts and
    seats 1 and 2 skip.  The round count of [nextTurn] then ends the round and
    [endRound] hands the turn to the round leader: seat 0, which has finish
    position 1, while the three other players hold thirteen cards each and
    the game is on. *)
Theorem turn_handed_to_finished_player :
  let g := afterRun (untilLastCard ++ [Play 0 [mkCard "hearts" 6]; Skip 1; Skip 2]) in
  reachable g ∧
  gamePhase g = playing ∧
  currentPlayerIndex g = 0 ∧
  finishPosition <$> players g !! currentPlayerIndex g = Some (Some 1) ∧
  (λ p, length (hand p)) <$> players g = [0; 13; 13; 13] ∧
  finishPosition <$> players g = [Some 1; None; None; None].
Proof.
  split; [apply reachable_afterRun; eexists; by vm_compute|]. by vm_compute.
Qed.

(** ** The table *)

Lemma positions_newGameState rand infos i p :
  players (newGameState rand infos) !! i = Some p → finishPosition p = None.
Proof.
  unfold newGameState. set (ps := imap _ infos).
  pose proof (dealCards_lookup ps (createDeck rand)) as Hlook.
  destruct (dealCards ps (createDeck rand)) as [ps' d']. cbn [fst players] in *.
  intros Hi. destruct (Hlook i p Hi) as (p0 & Hp0 & ->). simpl.
  unfold ps in Hp0. rewrite list_lookup_imap in Hp0.
  destruct (infos !! i); by simplify_eq/=.
Qed.

Lemma round_handlePlayerFinished g seat :
  centerCards (handlePlayerFinished g seat) = centerCards g ∧
  lastPlayedCards (handlePlayerFinished g seat) = lastPlayedCards g ∧
  currentHighestCard (handlePlayerFinished g seat) = currentHighestCard g ∧
  roundWinner (handlePlayerFinished g seat) = roundWinner g ∧
  consecutiveSkips (handlePlayerFinished g seat) = consecutiveSkips g ∧
  deck (handlePlayerFinished g seat) = deck g.
Proof. unfold handlePlayerFinished. by repeat (case_decide || case_match). Qed.

Section table.
Implicit Types (g : GameState) (cards : list Card).

Lemma tableKept_endRound g : tableKept g → tableKept (endRound g).
Proof.
  intros [Hc Hl Hh Hr Ho]. unfold endRound.
  destruct (roundLeader g ≫= _) as [w|] eqn:Hw.
  - split; simpl; try done. intros Hnone. by rewrite Hnone in Hw.
  - by split.
Qed.

Lemma tableKept_advance g : tableKept g → tableKept (advance g).
Proof. intros [? ? ? ? ?]. by split. Qed.

Lemma tableKept_nextTurn g : tableKept g → tableKept (nextTurn g).
Proof.
  intros Ht. rewrite nextTurn_advance.
  case_decide; [apply tableKept_endRound|]; by apply tableKept_advance.
Qed.

Lemma tableKept_skipTurn g g' : tableKept g → skipTurn g = Some g' → tableKept g'.
Proof.
  intros Ht. unfold skipTurn.
  destruct (players g !! currentPlayerIndex g) as [current|]; [|done]. simpl.
  intros [= <-].
  match goal with |- context [nextTurn ?x] => assert (tableKept (nextTurn x)) as Hx end.
  { apply tableKept_nextTurn. destruct Ht. by split. }
  repeat (case_match || case_decide); try done; by apply tableKept_endRound.
Qed.

Lemma tableKept_playCards g seat cards b g' :
  tableKept g → playCards g seat cards = Some (b, g') → tableKept g'.
Proof.
  intros Ht Hplay. destruct b.
  - apply playCards_accepted_inv in Hplay
      as (current & p & h' & Hc & Hp & _ & Hb & _ & _ & _ & ->).
    apply tableKept_nextTurn.
    assert (tableKept (afterPlay g seat p h' cards)) as Hap.
    { split; simpl; try done. unfold beats in Hb.
      destruct cards as [|first rest]; [done|]. by apply andb_true_iff in Hb as [? _]. }
    unfold afterFinish. case_decide; [|done].
    destruct Hap as [Hc' Hl' Hh' Hr' _].
    destruct (round_handlePlayerFinished (afterPlay g seat p h' cards) seat)
      as (Hc1 & Hl1 & Hh1 & _).
    destruct (table_handlePlayerFinished (afterPlay g seat p h' cards) seat)
      as (Ht1 & _).
    split; rewrite ?Hc1, ?Hl1, ?Hh1, ?Ht1, ?roundLeader_handlePlayerFinished; done.
  - apply playCards_rejected_inv in Hplay
      as [->|(p & h' & Hp & _ & _ & _ & ->)]; [done|].
    destruct Ht as [Hc Hl Hh Hr Ho]. split; simpl; try done.
    intros Hnone. destruct (Ho Hnone) as [Hnil Hpos]. split; [done|].
    intros i q Hi. destruct (decide (i = seat)) as [->|Hne].
    + rewrite list_lookup_insert_eq in Hi by by eapply lookup_lt_Some.
      injection Hi as <-. simpl. by eapply Hpos.
    + rewrite list_lookup_insert_ne in Hi by done. by eapply Hpos.
Qed.

Lemma reachable_tableKept g : reachable g → tableKept g.
Proof.
  induction 1 as [rand infos H4 Hnd|g a b g' Hg IH Ha].
  - split; try (unfold newGameState; by destruct (dealCards _ _)).
    intros _. split; [unfold newGameState; by destruct (dealCards _ _)|].
    apply positions_newGameState.
  - destruct a as [seat cards|seat]; simpl in Ha.
    + by eapply tableKept_playCards.
    + unfold onSkipTurn in Ha. case_decide; [by injection Ha as _ <-|].
      destruct (skipTurn g) as [g1|] eqn:Hsk; [|done]. simpl in Ha.
      injection Ha as _ <-. by eapply tableKept_skipTurn.
Qed.
End table.

(** ** The cards *)

Lemma fmap_alter_same {B} (proj : Player → B) (f : Player → Player) i (ps : list Player) :
  (∀ p, proj (f p) = proj p) → proj <$> alter f i ps = proj <$> ps.
Proof.
  intros Hf. apply list_eq. intros j. rewrite !list_lookup_fmap.
  destruct (decide (i = j)) as [->|Hne].
  - rewrite list_lookup_alter_eq. destruct (ps !! j); simpl; by rewrite ?Hf.
  - by rewrite list_lookup_alter_ne.
Qed.

Section cards.
Implicit Types (g : GameState) (ps : list Player) (p : Player) (cards h : list Card).

(** [handlePlayerFinished] touches no hand. *)
Lemma hands_handlePlayerFinished g seat :
  hand <$> players (handlePlayerFinished g seat) = hand <$> players g.
Proof.
  unfold handlePlayerFinished.
  assert (∀ n i ps, hand <$> alter (set_finishPosition n) i ps = hand <$> ps) as Hf
    by (intros; by apply fmap_alter_same).
  assert (∀ b i ps, hand <$> alter (set_isWinner b) i ps = hand <$> ps) as Hw
    by (intros; by apply fmap_alter_same).
  repeat (case_decide || case_match); simpl; by rewrite ?Hf, ?Hw, ?Hf.
Qed.

(** Taking [cards] out of the hand of one seat takes them out of the hands. *)
Lemma hands_insert ps seat p cards h' :
  ps !! seat = Some p → hand p ≡ₚ cards ++ h' →
  concat (hand <$> ps) ≡ₚ cards ++ concat (hand <$> <[seat := set_hand h' p]> ps).
Proof.
  revert seat. induction ps as [|q ps IH]; intros [|seat] Hp Hperm; simplify_eq/=.
  - by rewrite Hperm, app_assoc.
  - rewrite (IH seat Hp Hperm), !app_assoc.
    by rewrite (Permutation_app_comm (hand q) cards).
Qed.

(** The hand the removal loop leaves keeps the order of the cards. *)
Lemma removeCards_sublist h played cards h' pc :
  removeCards h played cards = inl (h', pc) → h' `sublist_of` h.
Proof.
  revert h played. induction cards as [|card rest IH]; intros h played; simpl.
  - by intros [= -> _].
  - destruct (list_find (sameCard card) h) as [[i c]|]; [|done].
    intros Hr%IH. etrans; [done|]. apply sublist_delete.
Qed.

Lemma cardsInPlay_endRound g : cardsInPlay (endRound g) ⊆+ cardsInPlay g.
Proof.
  unfold cardsInPlay, endRound. destruct (roundLeader g ≫= _); [|done]. simpl.
  rewrite app_nil_r. by apply submseteq_inserts_r.
Qed.

Lemma cardsInPlay_nextTurn g : cardsInPlay (nextTurn g) ⊆+ cardsInPlay g.
Proof.
  rewrite nextTurn_advance. case_decide; [|done].
  exact (cardsInPlay_endRound (advance g)).
Qed.

Lemma cardsInPlay_skipTurn g g' :
  skipTurn g = Some g' → cardsInPlay g' ⊆+ cardsInPlay g.
Proof.
  unfold skipTurn.
  destruct (players g !! currentPlayerIndex g) as [current|]; [|done]. simpl.
  intros [= <-]. set (g1 := set_playersWhoSkipped _ g).
  pose proof (cardsInPlay_nextTurn g1) as Hn.
  pose proof (cardsInPlay_endRound (nextTurn g1)) as He.
  change (cardsInPlay g1) with (cardsInPlay g) in Hn.
  repeat (case_match || case_decide); try done; by etrans.
Qed.

Lemma cardsInPlay_playCards g seat cards b g' :
  playCards g seat cards = Some (b, g') → cardsInPlay g' ⊆+ cardsInPlay g.
Proof.
  intros Hplay. destruct b.
  - apply playCards_accepted_inv in Hplay
      as (current & p & h' & Hc & Hp & _ & _ & _ & _ & Hperm & ->).
    etrans; [apply cardsInPlay_nextTurn|].
    assert (cardsInPlay (afterFinish (afterPlay g seat p h' cards) seat h')
            = concat (hand <$> <[seat := set_hand h' p]> (players g)) ++ cards) as ->.
    { unfold afterFinish, cardsInPlay. case_decide; [|done].
      rewrite hands_handlePlayerFinished.
      by destruct (table_handlePlayerFinished (afterPlay g seat p h' cards) seat)
        as (-> & _). }
    unfold cardsInPlay. rewrite (hands_insert (players g) seat p cards h' Hp Hperm).
    rewrite (Permutation_app_comm cards). by apply submseteq_inserts_r.
  - apply playCards_rejected_inv in Hplay
      as [->|(p & h' & Hp & Hperm & _ & _ & ->)]; [done|].
    unfold cardsInPlay. simpl.
    rewrite (hands_insert (players g) seat p [] h' Hp) by done. done.
Qed.

Lemma reachable_cardsInPlay g : reachable g → cardsInPlay g ⊆+ orderedDeck.
Proof.
  induction 1 as [rand infos H4 Hnd|g a b g' Hg IH Ha].
  - destruct (newGameState_hands rand infos H4) as (_ & _ & Hcat & _).
    unfold cardsInPlay. rewrite Hcat.
    assert (currentHighestCards (newGameState rand infos) = []) as ->
      by (unfold newGameState; by destruct (dealCards _ _)).
    rewrite app_nil_r. by rewrite createDeck_Permutation.
  - etrans; [|exact IH]. destruct a as [seat cards|seat]; simpl in Ha.
    + by eapply cardsInPlay_playCards.
    + unfold onSkipTurn in Ha. case_decide; [by injection Ha as _ <-|].
      destruct (skipTurn g) as [g1|] eqn:Hsk; [|done]. simpl in Ha.
      injection Ha as _ <-. by eapply cardsInPlay_skipTurn.
Qed.
End cards.

(** ** The turn *)

Section turn.
Implicit Types (g : GameState) (ps : list Player) (p : Player) (cards : list Card).

Lemma atRest_endRound g : atRest g → endRound g = g.
Proof.
  intros [(l & w & Hl & Hw & Hc & Hrw) Hr (Hcc & Hlp & Hhc & Hhcs) (Hs & Hcs)].
  unfold endRound. rewrite Hl. simpl. rewrite Hw.
  destruct g. simpl in *. by subst.
Qed.

Lemma endRound_atRest g :
  is_Some (roundLeader g ≫= (players g !!.)) → atRest (endRound g).
Proof.
  intros [w Hw]. unfold endRound. rewrite Hw.
  destruct (roundLeader g) as [l|] eqn:Hl; [|done]. simpl in Hw.
  split; simpl; try done. by exists l, w.
Qed.

(** [endRound] reads the seats, the leader and the bookkeeping alone. *)
Lemma endRound_rest x g :
  atRest g →
  players x = players g → deck x = deck g → roundLeader x = roundLeader g →
  finishedPlayers x = finishedPlayers g → gamePhase x = gamePhase g →
  gameWinner x = gameWinner g → gameSecond x = gameSecond g →
  gameThird x = gameThird g → gameLoser x = gameLoser g →
  endRound x = g.
Proof.
  intros Hrest Hps Hd Hl Hfp Hph H1 H2 H3 H4.
  transitivity (endRound g); [|by apply atRest_endRound].
  unfold endRound. rewrite Hps, Hd, Hl, Hfp, Hph, H1, H2, H3, H4.
  destruct Hrest as [(l & w & Hl' & Hw & _) _ _ _]. rewrite Hl'. simpl.
  by rewrite Hw.
Qed.

Lemma active_exists ps :
  activePlayers ps ≠ [] → ∃ i p, ps !! i = Some p ∧ finishPosition p = None.
Proof.
  intros Hne. destruct (activePlayers ps) as [|p l] eqn:Ha; [done|].
  assert (p ∈ activePlayers ps) as [Hp Hin]%list_elem_of_filter by (rewrite Ha; left).
  apply list_elem_of_lookup in Hin as [i Hi]. by exists i, p.
Qed.

Lemma finishedAt_false ps i :
  (∀ j p, ps !! j = Some p → finishPosition p = None) → finishedAt ps i = false.
Proof.
  intros H. unfold finishedAt. destruct (ps !! i) as [p|] eqn:Hi; [|done].
  by rewrite (H i p Hi).
Qed.

Lemma finishedAt_insert ps seat p h' i :
  ps !! seat = Some p → finishedAt (<[seat := set_hand h' p]> ps) i = finishedAt ps i.
Proof.
  intros Hp. unfold finishedAt. destruct (decide (i = seat)) as [->|Hne].
  - rewrite list_lookup_insert_eq by by eapply lookup_lt_Some. by rewrite Hp.
  - by rewrite list_lookup_insert_ne.
Qed.

Lemma atRest_set_hand g seat p h' :
  players g !! seat = Some p → atRest g →
  atRest (set_players (<[seat := set_hand h' p]> (players g)) g).
Proof.
  intros Hp [(l & w & Hl & Hw & Hc & Hrw) Hr Ht Hs]. split; simpl; try done.
  destruct (decide (l = seat)) as [->|Hne].
  - exists seat, (set_hand h' p). split_and!; try done.
    + apply list_lookup_insert_eq. by eapply lookup_lt_Some.
    + simpl. congruence.
  - exists l, w. split_and!; try done. by rewrite list_lookup_insert_ne.
Qed.

Lemma turnKept_nextTurn g : seated g → is_Some (roundLeader g) → turnKept (nextTurn g).
Proof.
  intros Hs [l Hl]. rewrite nextTurn_advance. case_decide as Hround.
  - intros _. apply endRound_atRest. simpl. rewrite Hl. simpl.
    apply lookup_lt_is_Some_2. rewrite (seated_four g Hs). by apply (seated_leader g Hs).
  - intros Hfin. change (players (advance g)) with (players g) in Hfin.
    rewrite advance_active in Hfin; [done|done|].
    apply active_exists. intros Hnil. rewrite Hnil in Hround. simpl in Hround. lia.
Qed.

Lemma turnKept_skipTurn g g' :
  seated g → tableKept g → skipTurn g = Some g' → turnKept g'.
Proof.
  intros Hs Ht Hsk. destruct (roundLeader g) as [l|] eqn:Hl.
  - revert Hsk. unfold skipTurn.
    destruct (players g !! currentPlayerIndex g) as [current|]; [|done]. simpl.
    intros [= <-]. set (g1 := set_playersWhoSkipped _ g).
    assert (seated g1) as Hs1 by (by destruct Hs).
    assert (turnKept (nextTurn g1)) as Hn by (apply turnKept_nextTurn; by eauto).
    assert (atRest (endRound (nextTurn g1))) as He.
    { apply endRound_atRest. rewrite roundLeader_nextTurn, players_nextTurn.
      simpl. rewrite Hl. simpl. apply lookup_lt_is_Some_2.
      rewrite (seated_four g Hs). by apply (seated_leader g Hs). }
    repeat (case_match || case_decide); try done; by intros _.
  - destruct (skipTurn_bookkeeping g g' Hsk) as (Hps & _).
    intros Hfin. rewrite Hps, finishedAt_false in Hfin; [done|].
    by apply (tk_opening g Ht).
Qed.

Lemma turnKept_playCards g seat cards b g' :
  seated g → turnKept g → playCards g seat cards = Some (b, g') → turnKept g'.
Proof.
  intros Hs Htk Hplay. destruct b.
  - apply playCards_accepted_inv in Hplay
      as (current & p & h' & Hc & Hp & _ & _ & _ & _ & _ & ->).
    apply turnKept_nextTurn.
    + unfold afterFinish.
      case_decide; [apply seated_handlePlayerFinished|]; by apply seated_afterPlay.
    + destruct (afterFinish_fields g seat p h' cards Hp) as (Hl & _). by eexists.
  - apply playCards_rejected_inv in Hplay
      as [->|(p & h' & Hp & _ & _ & _ & ->)]; [done|].
    intros Hfin. simpl in Hfin. rewrite finishedAt_insert in Hfin by done.
    apply atRest_set_hand; [done|]. by apply Htk.
Qed.

Lemma reachable_turnKept g : reachable g → turnKept g.
Proof.
  induction 1 as [rand infos H4 Hnd|g a b g' Hg IH Ha].
  - intros Hfin. rewrite finishedAt_false in Hfin; [done|].
    apply positions_newGameState.
  - pose proof (reachable_seated g Hg) as Hs.
    pose proof (reachable_tableKept g Hg) as Ht.
    destruct a as [seat cards|seat]; simpl in Ha.
    + by eapply turnKept_playCards.
    + unfold onSkipTurn in Ha. case_decide; [by injection Ha as _ <-|].
      destruct (skipTurn g) as [g1|] eqn:Hsk; [|done]. simpl in Ha.
      injection Ha as _ <-. by eapply turnKept_skipTurn.
Qed.
End turn.

(** ** What a match keeps *)

(** X1.  In every state of a match the four fields that describe the table,
    [centerCards], [lastPlayedCards], [currentHighestCards] and
    [currentHighestCard], agree; the cards on the table share one rank; and a
    table that holds cards has a round leader. *)
Theorem table_fields_agree (g : GameState) :
  reachable g →
  centerCards g = currentHighestCards g ∧
  lastPlayedCards g = currentHighestCards g ∧
  currentHighestCard g = head (currentHighestCards g) ∧
  (∀ c c', c ∈ currentHighestCards g → c' ∈ currentHighestCards g →
           value c = value c') ∧
  (currentHighestCards g ≠ [] → is_Some (roundLeader g)).
Proof.
  intros [Hc Hl Hh Hr Ho]%reachable_tableKept. split_and!; try done.
  - by apply sameValue_true.
  - intros Hne. destruct (roundLeader g) as [l|]; [by eexists|].
    by destruct (Ho eq_refl).
Qed.

(** The 6 of hearts of seat 0 lies on the table. *)
Lemma table_fields_agree_witness :
  centerCards sixOnTable = currentHighestCards sixOnTable ∧
  lastPlayedCards sixOnTable = currentHighestCards sixOnTable ∧
  currentHighestCard sixOnTable = head (currentHighestCards sixOnTable) ∧
  (∀ c c', c ∈ currentHighestCards sixOnTable → c' ∈ currentHighestCards sixOnTable →
           value c = value c') ∧
  (currentHighestCards sixOnTable ≠ [] → is_Some (roundLeader sixOnTable)).
Proof.
  apply (table_fields_agree sixOnTable).
  apply reachable_afterRun. eexists. by vm_compute.
Defined.

(** X2.  No card is made up, copied or held twice: in every state of a match
    the cards of the four hands and of the table, taken together, are cards
    of the standard deck, each at most once. *)
Theorem cards_stay_in_deck (g : GameState) :
  reachable g →
  cardsInPlay g ⊆+ orderedDeck ∧ NoDup (cardsInPlay g).
Proof.
  intros Hsub%reachable_cardsInPlay. split; [done|].
  apply submseteq_Permutation in Hsub as [k Hk].
  pose proof NoDup_orderedDeck as Hnd. rewrite Hk in Hnd.
  by apply NoDup_app in Hnd as [? _].
Qed.

Lemma cards_stay_in_deck_witness :
  cardsInPlay sixOnTable ⊆+ orderedDeck ∧ NoDup (cardsInPlay sixOnTable).
Proof.
  apply (cards_stay_in_deck sixOnTable).
  apply reachable_afterRun. eexists. by vm_compute.
Defined.

(** X3.  An accepted play takes exactly the played cards out of the acting
    player's hand, leaves the other cards of that hand in their order, and
    touches no other hand. *)
Theorem accepted_play_takes_cards
    (g : GameState) (seat : nat) (cards : list Card) (g' : GameState) :
  playCards g seat cards = Some (true, g') →
  ∃ p p',
    players g !! seat = Some p ∧ players g' !! seat = Some p' ∧
    hand p ≡ₚ cards ++ hand p' ∧
    hand p' `sublist_of` hand p ∧
    ∀ j, j ≠ seat → hand <$> players g' !! j = hand <$> players g !! j.
Proof.
  intros (current & p & h' & Hc & Hp & _ & _ & _ & Hr & Hperm & ->)%playCards_accepted_inv.
  assert (hand <$> players (nextTurn (afterFinish (afterPlay g seat p h' cards) seat h'))
          = hand <$> <[seat := set_hand h' p]> (players g)) as Hhands.
  { rewrite players_nextTurn. unfold afterFinish. case_decide; [|done].
    by rewrite hands_handlePlayerFinished. }
  set (g' := nextTurn _) in *.
  assert (seat < length (players g)) as Hlt by by eapply lookup_lt_Some.
  assert ((hand <$> players g') !! seat = Some h') as Hseat.
  { rewrite Hhands, list_lookup_fmap, list_lookup_insert_eq by done. done. }
  rewrite list_lookup_fmap in Hseat.
  destruct (players g' !! seat) as [p'|] eqn:Hp'; [|done].
  injection Hseat as Hh'. exists p, p'. rewrite Hh'. split_and!; try done.
  - by eapply removeCards_sublist.
  - intros j Hj. rewrite <-!list_lookup_fmap, Hhands, list_fmap_insert.
    by rewrite list_lookup_insert_ne.
Qed.

(** Seat 0 opens with the 3 of hearts. *)
Lemma accepted_play_takes_cards_witness :
  ∃ g' p p',
    playCards opening 0 [mkCard "hearts" 3] = Some (true, g') ∧
    players opening !! 0 = Some p ∧ players g' !! 0 = Some p' ∧
    hand p ≡ₚ [mkCard "hearts" 3] ++ hand p' ∧
    hand p' `sublist_of` hand p ∧
    ∀ j, j ≠ 0 → hand <$> players g' !! j = hand <$> players opening !! j.
Proof.
  eexists.
  destruct (accepted_play_takes_cards opening 0 [mkCard "hearts" 3] _
              ltac:(by vm_compute)) as (p & p' & H).
  exists p, p'. split; [by vm_compute|exact H].
Defined.

(** ** Requests that change nothing *)

Section turned_away.
Implicit Types (g : GameState) (p : Player) (cards : list Card).

Lemma playCards_not_current g seat cards :
  seated g → seat < 4 → seat ≠ currentPlayerIndex g →
  playCards g seat cards = Some (false, g).
Proof.
  intros [H4 Hids Hcur Hl] Hseat Hne. unfold playCards.
  destruct (lookup_lt_is_Some_2 (players g) (currentPlayerIndex g)) as [current Hc];
    [lia|].
  destruct (lookup_lt_is_Some_2 (players g) seat) as [p Hp]; [lia|].
  rewrite Hc, Hp. simpl. rewrite (canPlayCards_beats g current p cards Hc).
  rewrite bool_decide_false; [done|].
  intros Hid. apply Hne. symmetry. by eapply seat_of_id.
Qed.

Lemma playCards_empty_hand g p cards :
  players g !! currentPlayerIndex g = Some p → hand p = [] →
  playCards g (currentPlayerIndex g) cards = Some (false, g).
Proof.
  intros Hp Hnil. unfold playCards. rewrite Hp. simpl.
  rewrite (canPlayCards_beats g p p cards Hp), bool_decide_true by done. simpl.
  destruct (beats g cards) eqn:Hb; [|done]. simpl.
  rewrite Hnil. by destruct cards as [|c rest].
Qed.

(** With nobody active, the skip of a state at rest leaves it at rest. *)
Lemma skipTurn_over g :
  seated g → atRest g → activePlayers (players g) = [] → skipTurn g = Some g.
Proof.
  intros Hs Hrest Hnil. unfold skipTurn.
  destruct (lookup_lt_is_Some_2 (players g) (currentPlayerIndex g)) as [current Hc].
  { rewrite (seated_four g Hs). apply (seated_current g Hs). }
  rewrite Hc. simpl. f_equal. set (g1 := set_playersWhoSkipped _ g).
  assert (nextTurn g1 = g) as ->.
  { rewrite nextTurn_advance. change (players g1) with (players g).
    rewrite Hnil, decide_True by (simpl; lia). by apply endRound_rest. }
  destruct (rest_leader g Hrest) as (l & w & Hl & Hw & Hcur & _).
  rewrite Hl, decide_True by done. by apply atRest_endRound.
Qed.

Lemma playCards_finished g seat p cards :
  reachable g → players g !! seat = Some p → finishPosition p ≠ None →
  playCards g seat cards = Some (false, g).
Proof.
  intros Hreach Hp Hfin.
  pose proof (reachable_seated g Hreach) as Hs.
  pose proof (reachable_bookkept g Hreach) as Hbk.
  assert (seat < 4) as Hseat.
  { rewrite <-(seated_four g Hs). by eapply lookup_lt_Some. }
  destruct (decide (seat = currentPlayerIndex g)) as [->|Hne];
    [|by apply playCards_not_current].
  apply (playCards_empty_hand g p); [done|].
  destruct (bk_phase g Hbk) as [Hpl|Hgo].
  - destruct (finishPosition p) as [k|] eqn:Hk; [|done].
    by destruct (bk_finished g Hbk Hpl _ p k Hp Hk).
  - destruct (bk_over g Hbk Hgo) as (_ & l & q & _ & Hl & Hq & Hnil).
    subst l. congruence.
Qed.
End turned_away.

(** X4.  A player who has a finish position never plays again: whatever
    cards are asked for their seat, [playCards] answers [false] and leaves the
    state as it is. *)
Theorem finished_player_cannot_play
    (g : GameState) (seat : nat) (p : Player) (cards : list Card) :
  reachable g → players g !! seat = Some p → finishPosition p ≠ None →
  playCards g seat cards = Some (false, g).
Proof. apply playCards_finished. Qed.

(** Seat 0 has gone out and has the turn again: it asks for a card of
    seat 1. *)
Lemma finished_player_cannot_play_witness :
  playCards seatZeroGone 0 [mkCard "diamonds" 6] = Some (false, seatZeroGone).
Proof.
  pose (p := default (mkPlayer "" "" 0 [] false None) (players seatZeroGone !! 0)).
  apply (finished_player_cannot_play seatZeroGone 0 p).
  - apply reachable_afterRun. eexists. by vm_compute.
  - by vm_compute.
  - intros H. vm_compute in H. discriminate H.
Defined.

(** X5.  [gameOver] is final.  Once a match is over, every request of a seat,
    a play or a skip, leaves the state exactly as it is, and no play is
    accepted. *)
Theorem game_over_is_final (g : GameState) (seat : nat) :
  reachable g → gamePhase g = gameOver → seat < 4 →
  (∀ cards, onPlayCards g seat cards = Some (false, g)) ∧
  ∃ b, onSkipTurn g seat = Some (b, g).
Proof.
  intros Hreach Hgo Hseat.
  pose proof (reachable_seated g Hreach) as Hs.
  pose proof (reachable_bookkept g Hreach) as Hbk.
  destruct (bk_over g Hbk Hgo) as (Hnil & l & q & Hl & Hcur & Hq & Hh).
  split.
  - intros cards. unfold onPlayCards.
    destruct (lookup_lt_is_Some_2 (players g) seat) as [p Hp];
      [by rewrite (seated_four g Hs)|].
    apply (playCards_finished g seat p); [done|done|].
    by apply (proj1 (activePlayers_nil _) Hnil seat p).
  - unfold onSkipTurn. case_decide as Hne; [by eexists|].
    rewrite skipTurn_over; [by eexists|done| |done].
    apply (reachable_turnKept g Hreach). unfold finishedAt.
    rewrite Hcur, Hq. apply bool_decide_eq_true_2.
    by apply (proj1 (activePlayers_nil _) Hnil l q).
Qed.

(** The match is over and seat 3 asks to play, then to skip. *)
Lemma game_over_is_final_witness :
  (∀ cards, onPlayCards matchOver 3 cards = Some (false, matchOver)) ∧
  ∃ b, onSkipTurn matchOver 3 = Some (b, matchOver).
Proof.
  apply (game_over_is_final matchOver 3).
  - apply reachable_afterRun. eexists. by vm_compute.
  - by vm_compute.
  - lia.
Defined.

(** ** Skips *)

Section skips.
Implicit Types (g : GameState) (ps : list Player) (p : Player).

Lemma endRound_no_leader g :
  roundLeader g = None →
  endRound g =
    set_currentPlayerIndex ((currentPlayerIndex g + 1) mod length (players g)) g.
Proof. intros Hl. unfold endRound. by rewrite Hl. Qed.

Lemma skipTurn_no_leader g :
  is_Some (players g !! currentPlayerIndex g) → roundLeader g = None →
  skipTurn g =
    Some (endRound (nextTurn (set_playersWhoSkipped
                                ({[currentPlayerIndex g]} ∪ playersWhoSkipped g) g))).
Proof.
  intros [current Hc] Hl. unfold skipTurn. rewrite Hc. simpl.
  rewrite roundLeader_nextTurn. simpl. by rewrite Hl.
Qed.

(** The loop of [nextTurn] stops at once at a seat that has not finished. *)
Lemma nextSeat_next ps left cur :
  2 ≤ left → finishedAt ps ((cur + 1) mod length ps) = false →
  nextSeat ps left cur = (cur + 1) mod length ps.
Proof.
  intros Hleft Hfin. destruct left as [|left]; [lia|]. simpl.
  rewrite decide_False by lia. by rewrite Hfin.
Qed.

Lemma finishedAt_active ps i :
  i < length ps → finishedAt ps i = false →
  ∃ p, ps !! i = Some p ∧ finishPosition p = None.
Proof.
  intros Hi Hfin. destruct (lookup_lt_is_Some_2 ps i Hi) as [p Hp].
  exists p. split; [done|]. unfold finishedAt in Hfin. rewrite Hp in Hfin.
  apply bool_decide_eq_false_1 in Hfin.
  destruct (finishPosition p) as [k|]; [by destruct Hfin|done].
Qed.

(** A skip that ends no round: the skip is recorded and the turn moves to
    the next active seat. *)
Lemma skipTurn_passes g leader i p :
  seated g → roundLeader g = Some leader →
  currentRound g + 1 < length (activePlayers (players g)) →
  nextSeat (players g) 4 (currentPlayerIndex g) ≠ leader →
  players g !! i = Some p → finishPosition p = None → i ≠ leader →
  i ∉ ({[currentPlayerIndex g]} ∪ playersWhoSkipped g : gset nat) →
  skipTurn g =
    Some (advance (set_playersWhoSkipped
                     ({[currentPlayerIndex g]} ∪ playersWhoSkipped g) g)).
Proof.
  intros Hs Hl Hround Hnext Hp Hact Hil Hnot. unfold skipTurn.
  destruct (lookup_lt_is_Some_2 (players g) (currentPlayerIndex g)) as [current Hc].
  { rewrite (seated_four g Hs). apply (seated_current g Hs). }
  rewrite Hc. simpl. f_equal. set (g1 := set_playersWhoSkipped _ g).
  assert (nextTurn g1 = advance g1) as ->.
  { rewrite nextTurn_advance. change (players g1) with (players g).
    change (currentRound g1) with (currentRound g). by rewrite decide_False by lia. }
  change (roundLeader (advance g1)) with (roundLeader g). rewrite Hl.
  rewrite decide_False.
  2:{ simpl. by rewrite (seated_four g Hs). }
  destruct (forallb _ _) eqn:Hall; [|done].
  rewrite forallb_elem_of in Hall.
  assert (hasSkipped (advance g1) p = true) as Hsk.
  { apply (Hall (i, p)). apply list_elem_of_filter. split; [done|].
    apply elem_of_lookup_imap. by exists i, p. }
  rewrite (hasSkipped_seat (advance g1) i p) in Hsk;
    [|apply (seated_ids g Hs)|done].
  apply bool_decide_eq_true_1 in Hsk. by destruct Hnot.
Qed.
End skips.

(** The skip of a player who is out and has the turn. *)
Lemma skipTurn_stuck (g : GameState) :
  reachable g → gamePhase g = playing →
  finishedAt (players g) (currentPlayerIndex g) = true →
  ∃ g', onSkipTurn g (currentPlayerIndex g) = Some (true, g') ∧
        finishedAt (players g') (currentPlayerIndex g') = false ∧
        players g' = players g ∧
        currentHighestCards g' = [] ∧
        roundLeader g' = Some (currentPlayerIndex g).
Proof.
  intros Hreach Hpl Hfin.
  pose proof (reachable_seated g Hreach) as Hs.
  pose proof (reachable_bookkept g Hreach) as Hbk.
  destruct (reachable_turnKept g Hreach Hfin)
    as [(l & w & Hl & Hw & Hcur & _) Hr (_ & _ & _ & Ht) (Hsk & _)].
  destruct (bk_count g Hbk Hpl) as [Hcount Hle].
  assert (∃ i p, players g !! i = Some p ∧ finishPosition p = None)
    as Hactive.
  { apply active_exists. intros Hnil. rewrite Hnil in Hcount. simpl in Hcount. lia. }
  pose proof (advance_active g Hs Hactive) as Hnext.
  set (next := nextSeat (players g) (length (players g)) (currentPlayerIndex g)).
  change (currentPlayerIndex (advance g)) with next in Hnext.
  assert (next ≠ currentPlayerIndex g) as Hne by (intros Heq; congruence).
  assert (next < length (players g)) as Hlt.
  { apply nextSeat_lt. rewrite (seated_four g Hs). lia. }
  destruct (finishedAt_active (players g) next Hlt Hnext) as (p & Hp & Hnone).
  unfold onSkipTurn. rewrite decide_False by (intros ?; done).
  rewrite (skipTurn_passes g l next p); try done.
  - simpl. eexists. split; [done|]. simpl.
    split_and!; [exact Hnext|done|done|congruence].
  - rewrite Hr. lia.
  - rewrite <-(seated_four g Hs). fold next. congruence.
  - congruence.
  - rewrite Hsk, union_empty_r_L. by apply not_elem_of_singleton.
Qed.

(** X6.  When the turn has been handed to a player who is out while the game
    goes on, the skip of that seat is applied and hands the turn to a player
    who still holds cards; the table stays empty and the hands are not
    touched. *)
Theorem skip_releases_stuck_turn (g : GameState) :
  reachable g → gamePhase g = playing →
  finishedAt (players g) (currentPlayerIndex g) = true →
  ∃ g', onSkipTurn g (currentPlayerIndex g) = Some (true, g') ∧
        finishedAt (players g') (currentPlayerIndex g') = false ∧
        players g' = players g ∧
        currentHighestCards g' = [] ∧
        roundLeader g' = Some (currentPlayerIndex g).
Proof. apply skipTurn_stuck. Qed.

(** Seat 0 is out and has the turn: its skip hands the turn to seat 1. *)
Lemma skip_releases_stuck_turn_witness :
  ∃ g', onSkipTurn seatZeroGone (currentPlayerIndex seatZeroGone) = Some (true, g') ∧
        finishedAt (players g') (currentPlayerIndex g') = false ∧
        players g' = players seatZeroGone ∧
        currentHighestCards g' = [] ∧
        roundLeader g' = Some (currentPlayerIndex seatZeroGone).
Proof.
  apply (skip_releases_stuck_turn seatZeroGone).
  - apply reachable_afterRun. eexists. by vm_compute.
  - by vm_compute.
  - by vm_compute.
Defined.

(** X7.  A skip that ends no round.  With a round leader, when the turn
    counter has not reached the number of active players, the next active
    seat is not the leader and some other active seat has not skipped yet,
    the skip of the current seat is recorded and the turn moves to the next
    active seat; the table and the hands stay as they are. *)
Theorem skip_passes_turn (g : GameState) (leader i : nat) (p : Player) :
  reachable g → roundLeader g = Some leader →
  currentRound g + 1 < length (activePlayers (players g)) →
  nextSeat (players g) 4 (currentPlayerIndex g) ≠ leader →
  players g !! i = Some p → finishPosition p = None → i ≠ leader →
  i ∉ ({[currentPlayerIndex g]} ∪ playersWhoSkipped g : gset nat) →
  ∃ g', onSkipTurn g (currentPlayerIndex g) = Some (true, g') ∧
        currentPlayerIndex g' = nextSeat (players g) 4 (currentPlayerIndex g) ∧
        finishedAt (players g') (currentPlayerIndex g') = false ∧
        playersWhoSkipped g' = {[currentPlayerIndex g]} ∪ playersWhoSkipped g ∧
        currentRound g' = currentRound g + 1 ∧
        currentHighestCards g' = currentHighestCards g ∧
        roundLeader g' = Some leader ∧
        players g' = players g.
Proof.
  intros Hreach Hl Hround Hnext Hp Hnone Hil Hnot.
  pose proof (reachable_seated g Hreach) as Hs.
  unfold onSkipTurn. rewrite decide_False by (intros ?; done).
  rewrite (skipTurn_passes g leader i p) by done.
  eexists. split; [reflexivity|]. split_and!; try reflexivity; try assumption.
  - change (nextSeat (players g) (length (players g)) (currentPlayerIndex g)
            = nextSeat (players g) 4 (currentPlayerIndex g)).
    by rewrite (seated_four g Hs).
  - apply (advance_active g Hs). by exists i, p.
Qed.

(** Seat 1 skips on the four 3s of seat 0: the turn goes to seat 2. *)
Lemma skip_passes_turn_witness :
  ∃ g', onSkipTurn threesOnTable (currentPlayerIndex threesOnTable) = Some (true, g') ∧
        currentPlayerIndex g' =
          nextSeat (players threesOnTable) 4 (currentPlayerIndex threesOnTable) ∧
        finishedAt (players g') (currentPlayerIndex g') = false ∧
        playersWhoSkipped g' =
          {[currentPlayerIndex threesOnTable]} ∪ playersWhoSkipped threesOnTable ∧
        currentRound g' = currentRound threesOnTable + 1 ∧
        currentHighestCards g' = currentHighestCards threesOnTable ∧
        roundLeader g' = Some 0 ∧
        players g' = players threesOnTable.
Proof.
  pose (p := default (mkPlayer "" "" 0 [] false None) (players threesOnTable !! 2)).
  apply (skip_passes_turn threesOnTable 0 2 p).
  - apply reachable_afterRun. eexists. by vm_compute.
  - by vm_compute.
  - vm_compute. lia.
  - intros H. vm_compute in H. discriminate H.
  - by vm_compute.
  - by vm_compute.
  - lia.
  - apply (bool_decide_unpack _). by vm_compute.
Defined.

(** X8.  Before the first accepted play of a match there is no round leader,
    and a skip of the current seat moves the turn two seats on, not one:
    [nextTurn] moves it once and the [endRound] that [skipTurn] then calls
    moves it again.  From the fourth skip on, the round count of [nextTurn]
    calls [endRound] as well and the turn moves three seats on.  The turn
    counter keeps growing, and there still is no round leader. *)
Theorem opening_skip_moves_two_seats (g : GameState) :
  reachable g → roundLeader g = None →
  ∃ g', onSkipTurn g (currentPlayerIndex g) = Some (true, g') ∧
        (currentRound g + 1 < 4 →
           currentPlayerIndex g' = (currentPlayerIndex g + 2) mod 4) ∧
        (4 ≤ currentRound g + 1 →
           currentPlayerIndex g' = (currentPlayerIndex g + 3) mod 4) ∧
        currentRound g' = currentRound g + 1 ∧
        roundLeader g' = None ∧
        currentHighestCards g' = [] ∧
        players g' = players g.
Proof.
  intros Hreach Hl.
  pose proof (reachable_seated g Hreach) as Hs.
  destruct (tk_opening g (reachable_tableKept g Hreach) Hl) as [Ht Hpos].
  pose proof (seated_four g Hs) as H4.
  unfold onSkipTurn. rewrite decide_False by (intros ?; done).
  rewrite skipTurn_no_leader; [|apply lookup_lt_is_Some_2; rewrite H4;
                                 apply (seated_current g Hs)|done].
  eexists. split; [reflexivity|].
  set (g1 := set_playersWhoSkipped _ g).
  assert (advance g1 =
          set_currentRound (currentRound g + 1)
            (set_currentPlayerIndex ((currentPlayerIndex g + 1) mod 4) g1)) as Hadv.
  { unfold advance. change (players g1) with (players g).
    change (currentPlayerIndex g1) with (currentPlayerIndex g).
    rewrite nextSeat_next; rewrite H4; [done|lia|].
    by apply finishedAt_false. }
  assert (length (activePlayers (players g)) = 4) as Hact.
  { rewrite activePlayers_all; [done|]. intros q Hq.
    apply list_elem_of_lookup in Hq as [j Hj]. by eapply Hpos. }
  rewrite nextTurn_advance. change (players g1) with (players g).
  change (currentRound g1) with (currentRound g). rewrite Hact, Hadv.
  case_decide as Hround.
  - rewrite !endRound_no_leader by (rewrite ?roundLeader_endRound; exact Hl).
    cbn [currentPlayerIndex currentRound roundLeader currentHighestCards players
         set_currentPlayerIndex set_currentRound set_playersWhoSkipped g1].
    rewrite H4. split_and!; try done; [intros ?; exfalso; lia|]. intros _.
    rewrite Nat.Div0.add_mod_idemp_l, <-Nat.add_assoc, Nat.Div0.add_mod_idemp_l.
    f_equal. lia.
  - rewrite endRound_no_leader by exact Hl.
    cbn [currentPlayerIndex currentRound roundLeader currentHighestCards players
         set_currentPlayerIndex set_currentRound set_playersWhoSkipped g1].
    rewrite H4. split_and!; try done. intros _.
    rewrite Nat.Div0.add_mod_idemp_l. f_equal. lia.
Qed.

(** At the opening seat 0 is to play: its skip gives the turn to seat 2. *)
Lemma opening_skip_moves_two_seats_witness :
  ∃ g', onSkipTurn opening (currentPlayerIndex opening) = Some (true, g') ∧
        (currentRound opening + 1 < 4 →
           currentPlayerIndex g' = (currentPlayerIndex opening + 2) mod 4) ∧
        (4 ≤ currentRound opening + 1 →
           currentPlayerIndex g' = (currentPlayerIndex opening + 3) mod 4) ∧
        currentRound g' = currentRound opening + 1 ∧
        roundLeader g' = None ∧
        currentHighestCards g' = [] ∧
        players g' = players opening.
Proof.
  apply (opening_skip_moves_two_seats opening).
  - exact reachable_opening.
  - by vm_compute.
Defined.

(** ** Rejected plays *)

(** X9.  A rejected [playCards] changes nothing but, at most, the order of
    the cards in the hand of the seat it was made for; when the request names
    no card twice it changes nothing at all. *)
Theorem rejected_play_keeps_cards
    (g : GameState) (seat : nat) (cards : list Card) (g' : GameState) :
  playCards g seat cards = Some (false, g') →
  (NoDup cards → g' = g) ∧
  ∃ p h', players g !! seat = Some p ∧ h' ≡ₚ hand p ∧
          g' = set_players (<[seat := set_hand h' p]> (players g)) g.
Proof.
  intros Hplay. split; [intros Hnd; by eapply playCards_rejected_NoDup|].
  pose proof Hplay as [->|(p & h' & Hp & Hperm & _ & _ & ->)]%playCards_rejected_inv.
  - unfold playCards in Hplay.
    destruct (players g !! currentPlayerIndex g) as [current|]; [|done].
    destruct (players g !! seat) as [p|] eqn:Hp; [|done].
    exists p, (hand p). split_and!; try done.
    assert (set_hand (hand p) p = p) as -> by by destruct p.
    rewrite list_insert_id by done. by destruct g.
  - by exists p, h'.
Qed.

(** Seat 0 asks for the 7 of hearts, which it does not hold. *)
Lemma rejected_play_keeps_cards_witness :
  ∃ g', playCards opening 0 [mkCard "hearts" 7] = Some (false, g') ∧
    (NoDup [mkCard "hearts" 7] → g' = opening) ∧
    ∃ p h', players opening !! 0 = Some p ∧ h' ≡ₚ hand p ∧
            g' = set_players (<[0 := set_hand h' p]> (players opening)) opening.
Proof.
  eexists. split; [by vm_compute|].
  apply (rejected_play_keeps_cards opening 0 [mkCard "hearts" 7]). by vm_compute.
Defined.

(** ** What the clients are told *)

Section told.
Implicit Types (g : GameState) (ps : list Player) (p : Player).

(** The references of [getState] are made from the public part of the
    players. *)
Lemma playerRef_views g field :
  playerRef g field =
    seat ← field; v ← (playerView <$> players g) !! seat;
    Some (mkPlayerRef (view_id v) (view_name v) (view_index v)).
Proof.
  unfold playerRef. destruct field as [seat|]; [|done]. simpl.
  rewrite list_lookup_fmap. by destruct (players g !! seat).
Qed.

Lemma views_new_hands ps (hs : list (list Card)) :
  Forall2 (λ p h, length h = length (hand p)) ps hs →
  playerView <$> zip_with (λ p h, set_hand h p) ps hs = playerView <$> ps.
Proof.
  induction 1 as [|p h ps hs Hlen _ IH]; [done|].
  cbn [zip_with]. rewrite !fmap_cons, IH. f_equal.
  unfold playerView. simpl. by rewrite Hlen.
Qed.

Lemma getPlayerHand_own g i p :
  NoDup (id <$> players g) → players g !! i = Some p →
  getPlayerHand g (id p) = hand p.
Proof.
  intros Hnd Hp. unfold getPlayerHand.
  destruct (list_find _ (players g)) as [[j q]|] eqn:Hf.
  - apply list_find_Some in Hf as (Hq & Hid & _).
    assert (j = i) as -> by by eapply seat_of_id. congruence.
  - apply list_find_None in Hf. rewrite Forall_forall in Hf.
    destruct (Hf p); [by eapply list_elem_of_lookup_2|done].
Qed.

Lemma getPlayerHand_unknown g playerId :
  playerId ∉ id <$> players g → getPlayerHand g playerId = [].
Proof.
  intros Hnot. unfold getPlayerHand.
  destruct (list_find _ (players g)) as [[j q]|] eqn:Hf; [|done].
  apply list_find_Some in Hf as (Hq & Hid & _). destruct Hnot.
  apply list_elem_of_fmap. exists q. split; [done|].
  by eapply list_elem_of_lookup_2.
Qed.
End told.

(** X10.  [getState] tells nothing of the hands but their sizes: whatever
    cards the players hold in place of their own, as many for each, the
    object it returns is the same. *)
Theorem getState_hides_hands (g : GameState) (hs : list (list Card)) :
  Forall2 (λ p h, length h = length (hand p)) (players g) hs →
  getState (set_players (zip_with (λ p h, set_hand h p) (players g) hs) g)
  = getState g.
Proof.
  intros Hhs. pose proof (views_new_hands (players g) hs Hhs) as Hviews.
  unfold getState. rewrite !playerRef_views. simpl. by rewrite Hviews.
Qed.

(** At the opening, seats 0 and 1 hold each other's cards. *)
Lemma getState_hides_hands_witness :
  let hs := [default [] (hand <$> players opening !! 1);
             default [] (hand <$> players opening !! 0);
             default [] (hand <$> players opening !! 2);
             default [] (hand <$> players opening !! 3)] in
  getState (set_players (zip_with (λ p h, set_hand h p) (players opening) hs) opening)
  = getState opening.
Proof.
  intros hs. apply (getState_hides_hands opening hs).
  apply (bool_decide_unpack _). by vm_compute.
Defined.

(** X11.  In every state of a match [getPlayerHand] gives each player's id
    that player's own hand, and an id that no player has the empty hand. *)
Theorem getPlayerHand_is_own_hand (g : GameState) :
  reachable g →
  (∀ i p, players g !! i = Some p → getPlayerHand g (id p) = hand p) ∧
  (∀ playerId, playerId ∉ id <$> players g → getPlayerHand g playerId = []).
Proof.
  intros Hs%reachable_seated. split.
  - intros i p. apply getPlayerHand_own, (seated_ids g Hs).
  - apply getPlayerHand_unknown.
Qed.

Lemma getPlayerHand_is_own_hand_witness :
  (∀ i p, players sixOnTable !! i = Some p →
          getPlayerHand sixOnTable (id p) = hand p) ∧
  (∀ playerId, playerId ∉ id <$> players sixOnTable →
               getPlayerHand sixOnTable playerId = []).
Proof.
  apply (getPlayerHand_is_own_hand sixOnTable).
  apply reachable_afterRun. eexists. by vm_compute.
Defined.

(** ** The rooms of the server *)

Section rooms.
Implicit Types (g gs : GameState) (room : Room) (rooms : gmap string Room).

Lemma ids_newGameState rand infos :
  id <$> players (newGameState rand infos) = info_id <$> infos.
Proof.
  unfold newGameState. set (ps := imap _ infos).
  assert (id <$> ps = info_id <$> infos) as Hids.
  { apply list_eq. intros i. unfold ps.
    rewrite !list_lookup_fmap, list_lookup_imap. by destruct (infos !! i). }
  pose proof (ids_dealCards ps (createDeck rand)) as Hd.
  destruct (dealCards ps (createDeck rand)) as [ps' d']. cbn [fst] in Hd.
  simpl. by rewrite Hd.
Qed.

(** The seats keep their socket ids. *)
Lemma ids_perform g a b g' :
  perform g a = Some (b, g') → id <$> players g' = id <$> players g.
Proof.
  destruct a as [seat cards|seat]; simpl.
  - unfold onPlayCards. destruct b.
    + intros (current & p & h' & _ & Hp & _ & _ & _ & _ & _ & ->)%playCards_accepted_inv.
      rewrite players_nextTurn. unfold afterFinish.
      case_decide; rewrite ?ids_handlePlayerFinished; simpl;
        by rewrite (ids_insert seat p).
    + intros [->|(p & h' & Hp & _ & _ & _ & ->)]%playCards_rejected_inv; [done|].
      simpl. by rewrite (ids_insert seat p).
  - unfold onSkipTurn. case_decide; [by intros [= _ <-]|].
    destruct (skipTurn g) as [g1|] eqn:Hsk; [|done]. simpl. intros [= _ <-].
    by destruct (skipTurn_bookkeeping g g1 Hsk) as (-> & _).
Qed.

Lemma roomKept_new : roomKept (mkRoom [] None status_waiting).
Proof.
  split; simpl; try done.
  - unfold MAX_PLAYERS. lia.
  - apply NoDup_nil_2.
Qed.

(** The same players, and the match a request later. *)
Lemma roomKept_perform room gs a b gs' :
  roomKept room → room_gameState room = Some gs → perform gs a = Some (b, gs') →
  roomKept (mkRoom (room_players room) (Some gs') (room_status room)).
Proof.
  intros [Hsize Hids Hst Hstarted Hfull Hstate] Hgs Ha.
  destruct (Hstate gs Hgs) as [Hreach Hsub].
  split; simpl; try done.
  - rewrite Hstarted, Hgs. split; by eexists.
  - intros gs1 [= <-]. split; [by eapply reachable_step|].
    by rewrite (ids_perform gs a b gs' Ha).
Qed.

Lemma roomKept_leave room socket :
  roomKept room →
  roomKept (mkRoom (filter (λ p, rp_id p ≠ socket) (room_players room))
              (room_gameState room) (room_status room)).
Proof.
  intros [Hsize Hids Hst Hstarted Hfull Hstate].
  pose proof (length_filter (λ p, rp_id p ≠ socket) (room_players room)) as Hlen.
  assert (filter (λ p, rp_id p ≠ socket) (room_players room)
            `sublist_of` room_players room) as Hsub by apply sublist_filter.
  split; simpl; try done.
  - lia.
  - eapply sublist_NoDup; [exact Hids|by apply fmap_sublist].
  - intros Hfour. apply Hfull. lia.
  - intros gs Hgs. destruct (Hstate gs Hgs) as [Hreach Hin]. split; [done|].
    etrans; [|exact Hin]. by apply fmap_sublist.
Qed.

Lemma roomKept_joinRoom rand rooms socket roomId name :
  (∀ r room, rooms !! r = Some room → roomKept room) →
  ∀ r room, (joinRoom rand rooms socket roomId name).1 !! r = Some room →
            roomKept room.
Proof.
  intros Hall. unfold joinRoom.
  set (room0 := default (mkRoom [] None status_waiting) (rooms !! roomId)).
  assert (roomKept room0) as H0.
  { unfold room0. destruct (rooms !! roomId) as [room|] eqn:Hr; simpl.
    - by eapply Hall.
    - apply roomKept_new. }
  assert (∀ new, roomKept new →
            ∀ r room, <[roomId := new]> rooms !! r = Some room → roomKept room)
    as Hins.
  { intros new Hnew r room. destruct (decide (r = roomId)) as [->|Hne].
    - rewrite lookup_insert_eq. by intros [= <-].
    - rewrite lookup_insert_ne by done. apply Hall. }
  destruct H0 as [Hsize Hids Hst Hstarted Hfull Hstate].
  case_decide as Hprog; [by apply Hins|].
  case_bool_decide as Hin; [by apply Hins|].
  case_decide as Hmax; [by apply Hins|].
  set (ps := room_players room0 ++ [_]).
  assert (rp_id <$> ps = (rp_id <$> room_players room0) ++ [socket]) as Hps
    by (unfold ps; by rewrite fmap_app).
  assert (NoDup (rp_id <$> ps)) as Hnd.
  { rewrite Hps. apply NoDup_app. split; [done|]. split; [|apply NoDup_singleton].
    intros x Hx ->%list_elem_of_singleton. destruct Hin.
    apply list_elem_of_fmap in Hx as (q & Hq & Hqin).
    eapply list_find_elem_of; [exact Hqin|done]. }
  assert (length ps = S (length (room_players room0))) as Hlen
    by (unfold ps; rewrite length_app; simpl; lia).
  case_decide as Hstart; simpl; rewrite insert_insert_eq; apply Hins.
  - destruct Hstart as [Hfour _]. split; simpl; try done.
    + lia.
    + intros gs [= <-]. rewrite ids_newGameState, <-list_fmap_compose.
      split; [|done]. apply reachable_new.
      * by rewrite length_fmap.
      * by rewrite <-list_fmap_compose.
  - assert (room_gameState room0 = None) as Hnone.
    { destruct (room_gameState room0) eqn:Hgs; [|done].
      destruct Hprog. apply Hstarted. by eexists. }
    split; simpl; try done.
    + unfold MAX_PLAYERS in *. lia.
    + intros Hfour. destruct Hstart. done.
    + rewrite Hnone. done.
Qed.

Lemma roomKept_disconnecting rooms socket socketRooms :
  (∀ r room, rooms !! r = Some room → roomKept room) →
  ∀ r room, disconnecting rooms socket socketRooms !! r = Some room →
            roomKept room.
Proof.
  unfold disconnecting. revert rooms.
  induction socketRooms as [|r0 rest IH]; intros rooms Hall; [done|].
  simpl. apply IH. destruct (rooms !! r0) as [room0|] eqn:Hr0; [|done].
  intros r room. destruct (decide (r = r0)) as [->|Hne].
  - rewrite lookup_insert_eq. intros [= <-]. apply roomKept_leave. by eapply Hall.
  - rewrite lookup_insert_ne by done. apply Hall.
Qed.

Lemma roomKept_seat room gs :
  roomKept room → room_gameState room = Some gs →
  ∀ a b gs', perform gs a = Some (b, gs') →
  ∀ rooms roomId r room',
    (∀ r room, rooms !! r = Some room → roomKept room) →
    <[roomId := mkRoom (room_players room) (Some gs') (room_status room)]> rooms !! r
      = Some room' →
    roomKept room'.
Proof.
  intros Hroom Hgs a b gs' Ha rooms roomId r room' Hall.
  destruct (decide (r = roomId)) as [->|Hne].
  - rewrite lookup_insert_eq. intros [= <-]. by eapply roomKept_perform.
  - rewrite lookup_insert_ne by done. apply Hall.
Qed.

Lemma served_roomKept rooms :
  served rooms → ∀ r room, rooms !! r = Some room → roomKept room.
Proof.
  induction 1 as [|rooms req rooms' msgs _ IH Hreq]; [done|].
  destruct req as [rand socket roomId name|socket roomId cards|socket roomId
                   |socket socketRooms]; simpl in Hreq.
  - injection Hreq as <- _. by apply roomKept_joinRoom.
  - unfold socket_playCards in Hreq.
    destruct (rooms !! roomId) as [room|] eqn:Hr; [|by injection Hreq as <- _].
    destruct (room_gameState room) as [gs|] eqn:Hgs; [|by injection Hreq as <- _].
    destruct (list_find _ (room_players room)) as [[playerIndex q]|];
      [|by injection Hreq as <- _].
    destruct (onPlayCards gs playerIndex cards) as [[ok gs']|] eqn:Ha; [|done].
    simpl in Hreq. injection Hreq as <- _. intros r room'.
    eapply (roomKept_seat room gs (IH roomId room Hr) Hgs (Play playerIndex cards));
      done.
  - unfold socket_skipTurn in Hreq.
    destruct (rooms !! roomId) as [room|] eqn:Hr; [|by injection Hreq as <- _].
    destruct (room_gameState room) as [gs|] eqn:Hgs; [|by injection Hreq as <- _].
    destruct (list_find _ (room_players room)) as [[playerIndex q]|];
      [|by injection Hreq as <- _].
    destruct (onSkipTurn gs playerIndex) as [[ok gs']|] eqn:Ha; [|done].
    simpl in Hreq. injection Hreq as <- _. intros r room'.
    eapply (roomKept_seat room gs (IH roomId room Hr) Hgs (Skip playerIndex));
      done.
  - injection Hreq as <- _. by apply roomKept_disconnecting.
Qed.

Lemma served_serveAll rooms reqs rooms' :
  served rooms → serveAll rooms reqs = Some rooms' → served rooms'.
Proof.
  revert rooms. induction reqs as [|req rest IH]; intros rooms Hs; simpl.
  - by intros [= <-].
  - destruct (answer rooms req) as [[rooms1 msgs]|] eqn:Ha; [|done]. simpl.
    apply IH. by eapply served_step.
Defined.

Lemma served_roomsAfter reqs :
  is_Some (serveAll ∅ reqs) → served (roomsAfter reqs).
Proof.
  intros [rooms Hr]. unfold roomsAfter. rewrite Hr. simpl.
  exact (served_serveAll ∅ reqs rooms served_start Hr).
Defined.
End rooms.

(** X12.  The rooms of the server stay in order under every sequence of
    requests: a room never holds more than four players, their socket ids
    are distinct, it has a match exactly when its status is ['in-progress'],
    and a room of four players has a match. *)
Theorem rooms_in_order (rooms : gmap string Room) (roomId : string) (room : Room) :
  served rooms → rooms !! roomId = Some room →
  length (room_players room) ≤ MAX_PLAYERS ∧
  NoDup (rp_id <$> room_players room) ∧
  (is_Some (room_gameState room) ↔ room_status room = status_in_progress) ∧
  (length (room_players room) = MAX_PLAYERS → is_Some (room_gameState room)).
Proof.
  intros Hs Hr.
  destruct (served_roomKept rooms Hs roomId room Hr)
    as [Hsize Hids Hst Hstarted Hfull Hstate].
  split_and!; try done. intros Hfour. by apply Hstarted, Hfull.
Qed.

Lemma rooms_in_order_witness :
  length (room_players (mesaOf mesaStarted)) ≤ MAX_PLAYERS ∧
  NoDup (rp_id <$> room_players (mesaOf mesaStarted)) ∧
  (is_Some (room_gameState (mesaOf mesaStarted)) ↔
   room_status (mesaOf mesaStarted) = status_in_progress) ∧
  (length (room_players (mesaOf mesaStarted)) = MAX_PLAYERS →
   is_Some (room_gameState (mesaOf mesaStarted))).
Proof.
  apply (rooms_in_order mesaStarted "mesa").
  - apply served_roomsAfter. eexists. by vm_compute.
  - by vm_compute.
Defined.

(** X13.  Whatever the sockets ask, the [GameState] a room holds is a state
    of a match: made by the constructor for four players with distinct socket
    ids and changed by the two game handlers only.  The players still in
    the room are players of the match, in the order of their seats. *)
Theorem room_state_is_match_state
    (rooms : gmap string Room) (roomId : string) (room : Room) (gs : GameState) :
  served rooms → rooms !! roomId = Some room → room_gameState room = Some gs →
  reachable gs ∧ rp_id <$> room_players room `sublist_of` id <$> players gs.
Proof.
  intros Hs Hr Hgs. by apply (rk_state room (served_roomKept rooms Hs roomId room Hr)).
Qed.

Lemma room_state_is_match_state_witness :
  reachable opening ∧
  rp_id <$> room_players (mesaOf mesaAfterLeave) `sublist_of` id <$> players opening.
Proof.
  apply (room_state_is_match_state mesaAfterLeave "mesa").
  - apply served_roomsAfter. eexists. by vm_compute.
  - by vm_compute.
  - by vm_compute.
Defined.

Section joining.
Implicit Types (room : Room) (rooms : gmap string Room).

(** The socket ids of a room that [find] has searched in vain. *)
Lemma list_find_rp_id_None (ps : list RoomPlayer) socket :
  socket ∉ rp_id <$> ps → list_find (λ p, rp_id p = socket) ps = None.
Proof.
  intros Hnot. apply list_find_None, Forall_forall. intros q Hq Hid.
  destruct Hnot. apply list_elem_of_fmap. by exists q.
Qed.

(** Where [findIndex] finds a socket id among distinct ones. *)
Lemma list_find_rp_id (ps : list RoomPlayer) i q :
  NoDup (rp_id <$> ps) → ps !! i = Some q →
  list_find (λ p, rp_id p = rp_id q) ps = Some (i, q).
Proof.
  intros Hnd Hq. apply list_find_Some. split_and!; try done.
  intros j y Hy Hlt Hid.
  assert (j = i) as ->; [|lia].
  apply (NoDup_lookup (rp_id <$> ps) j i (rp_id q)); [done| |].
  - rewrite list_lookup_fmap, Hy. simpl. by rewrite Hid.
  - by rewrite list_lookup_fmap, Hq.
Qed.

(** What [joinRoom] answers to a socket that is new to a room in order. *)
Lemma joinRoom_open rand rooms socket roomId name room :
  rooms !! roomId = Some room → roomKept room →
  room_gameState room = None → length (room_players room) < MAX_PLAYERS →
  socket ∉ rp_id <$> room_players room →
  (joinRoom rand rooms socket roomId name).2 =
    joined (length (room_players room))
           (bool_decide (length (room_players room) = 3)).
Proof.
  intros Hr [Hsize Hids Hst Hstarted Hfull Hstate] Hgs Hlt Hnew.
  unfold joinRoom. rewrite Hr. simpl.
  assert (room_status room ≠ status_in_progress) as Hprog.
  { intros Hp. apply Hstarted in Hp as [gs Hp]. congruence. }
  rewrite decide_False by done.
  rewrite list_find_rp_id_None by done.
  rewrite bool_decide_false by (by intros [? ?]).
  rewrite decide_False by lia.
  rewrite length_app. simpl. unfold MAX_PLAYERS.
  case_decide as Hstart; simpl; f_equal.
  - rewrite bool_decide_true; [done|]. lia.
  - rewrite bool_decide_false; [done|]. intros H3. apply Hstart. split; [lia|done].
Qed.
End joining.

(** X14.  The server never answers ['roomFull']: a room of four players has
    begun its match, and the socket is told ['gameAlreadyStarted'] before
    the size of the room is looked at. *)
Theorem roomFull_is_never_answered
    (rand : nat → nat) (rooms : gmap string Room) (socket roomId name : string) :
  served rooms → (joinRoom rand rooms socket roomId name).2 ≠ roomFull.
Proof.
  intros Hs. unfold joinRoom.
  set (room0 := default (mkRoom [] None status_waiting) (rooms !! roomId)).
  assert (roomKept room0) as [Hsize Hids Hst Hstarted Hfull Hstate].
  { unfold room0. destruct (rooms !! roomId) as [room|] eqn:Hr; simpl.
    - by eapply served_roomKept.
    - apply roomKept_new. }
  case_decide as Hprog; [done|]. case_bool_decide; [done|].
  case_decide as Hmax; [|by case_decide].
  destruct Hprog. apply Hfull. lia.
Qed.

(** A fifth socket asks for the room of a match. *)
Lemma roomFull_is_never_answered_witness :
  (joinRoom dealer mesaStarted "s4" "mesa" "Edu").2 ≠ roomFull.
Proof.
  apply (roomFull_is_never_answered dealer mesaStarted).
  apply served_roomsAfter. eexists. by vm_compute.
Defined.

(** X15.  [getAvailableRooms] lists exactly the rooms that hold fewer than
    four players and no match, each once, with the number of its players; the
    status it gives is always ['turnsToLead'], never ['in-game']. *)
Theorem available_rooms_are_open (rooms : gmap string Room) :
  (∀ e, e ∈ getAvailableRooms rooms ↔
     ∃ room, rooms !! entry_id e = Some room ∧
             entry_count e = length (room_players room) ∧
             length (room_players room) < MAX_PLAYERS ∧
             room_gameState room = None ∧
             entry_status e = listed_waiting) ∧
  NoDup (entry_id <$> getAvailableRooms rooms).
Proof.
  unfold getAvailableRooms. split.
  - intros e. rewrite list_elem_of_fmap. split.
    + intros ([r room] & -> & [[Hlt Hgs] Hin]%list_elem_of_filter). simpl in *.
      apply elem_of_map_to_list in Hin. exists room. by rewrite Hgs.
    + intros (room & Hr & Hc & Hlt & Hgs & Hst). exists (entry_id e, room). split.
      * destruct e as [r c st]. simpl in *. rewrite Hgs. by subst.
      * apply list_elem_of_filter. split; [done|]. by apply elem_of_map_to_list.
  - rewrite <-list_fmap_compose.
    eapply sublist_NoDup; [apply (NoDup_fst_map_to_list rooms)|].
    apply fmap_sublist, sublist_filter.
Qed.

(** X16.  A room of the list can be joined.  A socket that is not yet in a
    listed room is let in, is told as its index the number of players the
    list gave, and begins the match exactly when the list gave three. *)
Theorem listed_room_can_be_joined
    (rand : nat → nat) (rooms : gmap string Room) (e : RoomEntry)
    (socket name : string) :
  served rooms → e ∈ getAvailableRooms rooms →
  (∀ room, rooms !! entry_id e = Some room → socket ∉ rp_id <$> room_players room) →
  (joinRoom rand rooms socket (entry_id e) name).2 =
    joined (entry_count e) (bool_decide (entry_count e = 3)).
Proof.
  intros Hs He Hnew. unfold getAvailableRooms in He.
  apply list_elem_of_fmap in He
    as ([r room] & -> & [[Hlt Hgs] Hin]%list_elem_of_filter).
  simpl in *. apply elem_of_map_to_list in Hin.
  apply (joinRoom_open rand rooms socket r name room); try done.
  - by eapply served_roomKept.
  - by apply Hnew.
Qed.

(** Two players wait in ["mesa"] and a third socket comes. *)
Lemma listed_room_can_be_joined_witness :
  (joinRoom dealer mesaWaiting "s2" "mesa" "Caio").2 = joined 2 (bool_decide (2 = 3)).
Proof.
  apply (listed_room_can_be_joined dealer mesaWaiting
           (mkRoomEntry "mesa" 2 listed_waiting) "s2" "Caio").
  - apply served_roomsAfter. eexists. by vm_compute.
  - apply (bool_decide_unpack _). by vm_compute.
  - intros room Hroom. vm_compute in Hroom. injection Hroom as <-.
    apply (bool_decide_unpack _). by vm_compute.
Defined.

Section messages.
Implicit Types (room : Room) (rooms : gmap string Room) (gs : GameState).


End messages.




Section seats_of_sockets.
Implicit Types (room : Room) (rooms : gmap string Room) (gs : GameState).

(** The two game handlers, for a socket found at place [k] of
    [room.players]. *)
Lemma socket_handlers_at rooms roomId room gs socket k q cards :
  rooms !! roomId = Some room → room_gameState room = Some gs →
  list_find (λ p, rp_id p = socket) (room_players room) = Some (k, q) →
  fst <$> socket_playCards rooms socket roomId cards =
    (λ r : bool * GameState,
       <[roomId := mkRoom (room_players room) (Some r.2) (room_status room)]> rooms)
    <$> onPlayCards gs k cards ∧
  fst <$> socket_skipTurn rooms socket roomId =
    (λ r : bool * GameState,
       <[roomId := mkRoom (room_players room) (Some r.2) (room_status room)]> rooms)
    <$> onSkipTurn gs k.
Proof.
  intros Hr Hgs Hf. unfold socket_playCards, socket_skipTurn.
  rewrite Hr, Hgs, Hf. split.
  - by destruct (onPlayCards gs k cards) as [[ok gs']|].
  - by destruct (onSkipTurn gs k) as [[ok gs']|].
Qed.

(** The place of a socket id in a list of distinct ids. *)
Lemma list_find_place (ps : list RoomPlayer) (ids : list string) k s :
  rp_id <$> ps = ids → NoDup ids → ids !! k = Some s →
  ∃ q, list_find (λ p, rp_id p = s) ps = Some (k, q).
Proof.
  intros <- Hnd Hk. rewrite list_lookup_fmap in Hk.
  destruct (ps !! k) as [q|] eqn:Hq; [|done]. injection Hk as <-.
  exists q. by apply list_find_rp_id.
Qed.
End seats_of_sockets.

(** X18.  While nobody has left the room since its match began, the two game
    handlers perform the request of a socket for the seat of the player
    with that socket's id. *)
Theorem socket_is_served_at_its_seat
    (rooms : gmap string Room) (roomId : string) (room : Room) (gs : GameState)
    (seat : nat) (p : Player) (cards : list Card) :
  served rooms → rooms !! roomId = Some room → room_gameState room = Some gs →
  rp_id <$> room_players room = id <$> players gs →
  players gs !! seat = Some p →
  fst <$> socket_playCards rooms (id p) roomId cards =
    (λ r : bool * GameState,
       <[roomId := mkRoom (room_players room) (Some r.2) (room_status room)]> rooms)
    <$> onPlayCards gs seat cards ∧
  fst <$> socket_skipTurn rooms (id p) roomId =
    (λ r : bool * GameState,
       <[roomId := mkRoom (room_players room) (Some r.2) (room_status room)]> rooms)
    <$> onSkipTurn gs seat.
Proof.
  intros Hs Hr Hgs Hids Hp.
  destruct (rk_state room (served_roomKept rooms Hs roomId room Hr) gs Hgs)
    as [Hreach _].
  destruct (list_find_place (room_players room) (id <$> players gs) seat (id p))
    as [q Hq]; [done|apply (seated_ids gs (reachable_seated gs Hreach))| |].
  { by rewrite list_lookup_fmap, Hp. }
  by eapply socket_handlers_at.
Qed.

(** The socket of seat 1, in the room where the match has just begun. *)
Lemma socket_is_served_at_its_seat_witness :
  fst <$> socket_playCards mesaStarted "s1" "mesa" [mkCard "diamonds" 6] =
    (λ r : bool * GameState,
       <[ "mesa" := mkRoom (room_players (mesaOf mesaStarted)) (Some r.2)
                      (room_status (mesaOf mesaStarted))]> mesaStarted)
    <$> onPlayCards opening 1 [mkCard "diamonds" 6] ∧
  fst <$> socket_skipTurn mesaStarted "s1" "mesa" =
    (λ r : bool * GameState,
       <[ "mesa" := mkRoom (room_players (mesaOf mesaStarted)) (Some r.2)
                      (room_status (mesaOf mesaStarted))]> mesaStarted)
    <$> onSkipTurn opening 1.
Proof.
  pose (p := default (mkPlayer "" "" 0 [] false None) (players opening !! 1)).
  apply (socket_is_served_at_its_seat mesaStarted "mesa" (mesaOf mesaStarted)
           opening 1 p).
  - apply served_roomsAfter. eexists. by vm_compute.
  - by vm_compute.
  - by vm_compute.
  - by vm_compute.
  - by vm_compute.
Defined.

(** X19.  When the player of a seat has left the room, the sockets of the
    seats above it are found one place lower in [room.players], and the two
    game handlers perform their requests for the seat below their own: for
    a seat whose hand and turn are another player's. *)
Theorem leaver_shifts_the_seats
    (rooms : gmap string Room) (roomId : string) (room : Room) (gs : GameState)
    (left seat : nat) (p : Player) (cards : list Card) :
  served rooms → rooms !! roomId = Some room → room_gameState room = Some gs →
  rp_id <$> room_players room = delete left (id <$> players gs) →
  left < seat → players gs !! seat = Some p →
  fst <$> socket_playCards rooms (id p) roomId cards =
    (λ r : bool * GameState,
       <[roomId := mkRoom (room_players room) (Some r.2) (room_status room)]> rooms)
    <$> onPlayCards gs (seat - 1) cards ∧
  fst <$> socket_skipTurn rooms (id p) roomId =
    (λ r : bool * GameState,
       <[roomId := mkRoom (room_players room) (Some r.2) (room_status room)]> rooms)
    <$> onSkipTurn gs (seat - 1).
Proof.
  intros Hs Hr Hgs Hids Hlt Hp.
  destruct (rk_state room (served_roomKept rooms Hs roomId room Hr) gs Hgs)
    as [Hreach _].
  pose proof (seated_ids gs (reachable_seated gs Hreach)) as Hnd.
  destruct (list_find_place (room_players room) (delete left (id <$> players gs))
              (seat - 1) (id p)) as [q Hq]; [done| | |].
  { eapply sublist_NoDup; [exact Hnd|apply sublist_delete]. }
  { rewrite list_lookup_delete_ge by lia.
    replace (S (seat - 1)) with seat by lia. by rewrite list_lookup_fmap, Hp. }
  by eapply socket_handlers_at.
Qed.

(** The socket of seat 0 has left at the opening, when seat 0 is to play:
    what the socket of seat 1 asks is performed for seat 0. *)
Lemma leaver_shifts_the_seats_witness :
  fst <$> socket_playCards mesaAfterLeave "s1" "mesa" [mkCard "hearts" 3] =
    (λ r : bool * GameState,
       <[ "mesa" := mkRoom (room_players (mesaOf mesaAfterLeave)) (Some r.2)
                      (room_status (mesaOf mesaAfterLeave))]> mesaAfterLeave)
    <$> onPlayCards opening (1 - 1) [mkCard "hearts" 3] ∧
  fst <$> socket_skipTurn mesaAfterLeave "s1" "mesa" =
    (λ r : bool * GameState,
       <[ "mesa" := mkRoom (room_players (mesaOf mesaAfterLeave)) (Some r.2)
                      (room_status (mesaOf mesaAfterLeave))]> mesaAfterLeave)
    <$> onSkipTurn opening (1 - 1).
Proof.
  pose (p := default (mkPlayer "" "" 0 [] false None) (players opening !! 1)).
  apply (leaver_shifts_the_seats mesaAfterLeave "mesa" (mesaOf mesaAfterLeave)
           opening 0 1 p).
  - apply served_roomsAfter. eexists. by vm_compute.
  - by vm_compute.
  - by vm_compute.
  - by vm_compute.
  - lia.
  - by vm_compute.
Defined.

(** ** Fields that say nothing new *)

Section idle_invariant.
Implicit Types (g : GameState).

Lemma idle_endRound g : idle g → idle (endRound g).
Proof.
  intros (Hd & Hc & Hw). unfold endRound.
  destruct (roundLeader g ≫= (players g !!.)) as [w|] eqn:Hl; [|by split_and!].
  split_and!; try done. simpl.
  destruct (roundLeader g) as [l|]; [|done]. simpl in *.
  by rewrite list_lookup_fmap, Hl.
Qed.

Lemma idle_nextTurn g : idle g → idle (nextTurn g).
Proof.
  intros Hi. rewrite nextTurn_advance. case_decide; [|done].
  by apply idle_endRound.
Qed.

Lemma idle_skipTurn g g' : idle g → skipTurn g = Some g' → idle g'.
Proof.
  intros Hi. unfold skipTurn.
  destruct (players g !! currentPlayerIndex g) as [current|]; [|done]. simpl.
  intros [= <-].
  match goal with |- context [nextTurn ?x] => assert (idle (nextTurn x)) as Hx end.
  { by apply idle_nextTurn. }
  repeat (case_match || case_decide); try done; by apply idle_endRound.
Qed.

Lemma idle_playCards g seat cards b g' :
  idle g → playCards g seat cards = Some (b, g') → idle g'.
Proof.
  intros (Hd & Hc & Hw) Hplay. destruct b.
  - apply playCards_accepted_inv in Hplay
      as (current & p & h' & _ & Hp & _ & _ & _ & _ & _ & ->).
    apply idle_nextTurn.
    assert (idle (afterPlay g seat p h' cards)) as (Hd1 & Hc1 & Hw1).
    { split_and!; try done. simpl.
      rewrite list_lookup_fmap, list_lookup_insert_eq by by eapply lookup_lt_Some.
      done. }
    unfold afterFinish. case_decide; [|done].
    destruct (round_handlePlayerFinished (afterPlay g seat p h' cards) seat)
      as (_ & _ & _ & Hw2 & Hc2 & Hd2).
    split_and!; try congruence.
    by rewrite Hw2, roundLeader_handlePlayerFinished, ids_handlePlayerFinished.
  - apply playCards_rejected_inv in Hplay
      as [->|(p & h' & Hp & _ & _ & _ & ->)]; [done|].
    split_and!; try done. simpl. by rewrite (ids_insert seat p).
Qed.

Lemma reachable_idle g : reachable g → idle g.
Proof.
  induction 1 as [rand infos H4 Hnd|g a b g' Hg IH Ha].
  - destruct (newGameState_hands rand infos H4) as (_ & _ & _ & Hdeck).
    split; [done|]. unfold newGameState. by destruct (dealCards _ _).
  - destruct a as [seat cards|seat]; simpl in Ha.
    + by eapply idle_playCards.
    + unfold onSkipTurn in Ha. case_decide; [by injection Ha as _ <-|].
      destruct (skipTurn g) as [g1|] eqn:Hsk; [|done]. simpl in Ha.
      injection Ha as _ <-. by eapply idle_skipTurn.
Qed.
End idle_invariant.

(** X27.  Three fields of the state say nothing new in any state of a match:
    the deck is empty once dealt, [consecutiveSkips] is never anything but 0,
    and [roundWinner] is the socket id of the player at [roundLeader], [null]
    when there is no leader. *)
Theorem idle_fields (g : GameState) :
  reachable g →
  deck g = [] ∧ consecutiveSkips g = 0 ∧
  roundWinner g = roundLeader g ≫= ((id <$> players g) !!.).
Proof. apply reachable_idle. Qed.

Lemma idle_fields_witness :
  deck seatZeroGone = [] ∧ consecutiveSkips seatZeroGone = 0 ∧
  roundWinner seatZeroGone =
    roundLeader seatZeroGone ≫= ((id <$> players seatZeroGone) !!.).
Proof.
  apply (idle_fields seatZeroGone).
  apply reachable_afterRun. eexists. by vm_compute.
Defined.

(** ** The podium *)

Section podium.
Implicit Types (g : GameState) (ps : list Player) (p q : Player).

Lemma standing_insert i p p' ps :
  ps !! i = Some p → standing p' = standing p →
  standing <$> <[i := p']> ps = standing <$> ps.
Proof.
  intros Hi Hst. rewrite list_fmap_insert, Hst. apply list_insert_id.
  by rewrite list_lookup_fmap, Hi.
Qed.

Lemma standing_lookup ps ps' i p' :
  standing <$> ps' = standing <$> ps → ps' !! i = Some p' →
  ∃ p, ps !! i = Some p ∧ standing p = standing p'.
Proof.
  intros Heq Hi. pose proof (f_equal (.!! i) Heq) as Hl. cbn beta in Hl.
  rewrite !list_lookup_fmap, Hi in Hl. simpl in Hl.
  destruct (ps !! i) as [p|]; [|done]. exists p. split; [done|].
  simpl in Hl. congruence.
Qed.

Lemma positionAt_lookup g i p k :
  players g !! i = Some p → positionAt g i k ↔ finishPosition p = Some k.
Proof. intros Hp. unfold positionAt. rewrite Hp. simpl. split; congruence. Qed.

Lemma positionAt_standing g g' i k :
  standing <$> players g' = standing <$> players g →
  positionAt g' i k ↔ positionAt g i k.
Proof.
  intros Heq. unfold positionAt.
  assert (finishPosition <$> players g' = finishPosition <$> players g) as Hpos.
  { change finishPosition with (fst ∘ standing).
    by rewrite !(list_fmap_compose standing fst), Heq. }
  rewrite <-!list_lookup_fmap. by rewrite Hpos.
Qed.

(** The podium of a state with the same standings. *)
Lemma podiumKept_same g g' :
  standing <$> players g' = standing <$> players g →
  gameWinner g' = gameWinner g → gameSecond g' = gameSecond g →
  gameThird g' = gameThird g → gameLoser g' = gameLoser g →
  podiumKept g → podiumKept g'.
Proof.
  intros Hst H1 H2 H3 H4 [Hw Hs Ht Hl Hi].
  split; intros i; rewrite ?H1, ?H2, ?H3, ?H4, ?(positionAt_standing g g' i) by done;
    try done.
  intros p' Hp'. destruct (standing_lookup _ _ i p' Hst Hp') as (p & Hp & Heq).
  injection Heq as <- <-. by apply (Hi i).
Qed.

Lemma podiumKept_endRound g : podiumKept g → podiumKept (endRound g).
Proof.
  apply podiumKept_same; unfold endRound;
    by destruct (roundLeader g ≫= (players g !!.)).
Qed.

Lemma podiumKept_nextTurn g : podiumKept g → podiumKept (nextTurn g).
Proof.
  intros Hk. rewrite nextTurn_advance. case_decide; [apply podiumKept_endRound|];
    by apply (podiumKept_same g).
Qed.

Lemma podiumKept_skipTurn g g' : podiumKept g → skipTurn g = Some g' → podiumKept g'.
Proof.
  intros Hk. unfold skipTurn.
  destruct (players g !! currentPlayerIndex g) as [current|]; [|done]. simpl.
  intros [= <-].
  match goal with |- context [nextTurn ?x] =>
    assert (podiumKept (nextTurn x)) as Hx end.
  { apply podiumKept_nextTurn. by apply (podiumKept_same g). }
  repeat (case_match || case_decide); try done; by apply podiumKept_endRound.
Qed.

(** The podium fields and the winner's mark after [handlePlayerFinished], in
    the cases of [handlePlayerFinished_spec]. *)
Lemma handlePlayerFinished_podium g seat p :
  players g !! seat = Some p → finishPosition p = None →
  finishedPlayers g + 1 ≠ 4 →
  let g' := handlePlayerFinished g seat in
  let n := finishedPlayers g + 1 in
  gameWinner g' = (if decide (n = 1) then Some seat else gameWinner g) ∧
  gameSecond g' = (if decide (n = 2) then Some seat else gameSecond g) ∧
  gameThird g' = (if decide (n = 3) then Some seat else gameThird g) ∧
  (∀ j q', players g' !! j = Some q' →
     ∃ q, players g !! j = Some q ∧
          isWinner q' = if decide (j = seat ∧ n = 1) then true else isWinner q) ∧
  ((length (activePlayers (players g)) ≠ 2 ∧ gameLoser g' = gameLoser g)
   ∨
   (length (activePlayers (players g)) = 2 ∧
    ∃ last q, last ≠ seat ∧ players g !! last = Some q ∧ finishPosition q = None ∧
              gameLoser g' = Some (default last (gameLoser g)))).
Proof.
  intros Hp Hnone Hn4 g' n. subst g'. unfold handlePlayerFinished. cbv zeta.
  fold n. rewrite !(decide_False (P := n = 4)) by done.
  set (ps1 := alter (set_finishPosition n) seat (players g)).
  set (ps2 := if decide (n = 1) then alter (set_isWinner true) seat ps1 else ps1).
  assert (∀ j, j ≠ seat → ps2 !! j = players g !! j) as Hother.
  { intros j Hj. unfold ps2, ps1.
    case_decide; by rewrite ?list_lookup_alter_ne by done. }
  assert (∀ j q', ps2 !! j = Some q' →
            ∃ q, players g !! j = Some q ∧
                 isWinner q' = if decide (j = seat ∧ n = 1) then true else isWinner q)
    as Hmark.
  { intros j q' Hq'. destruct (decide (j = seat)) as [->|Hj].
    - exists p. split; [done|]. unfold ps2, ps1 in Hq'. case_decide as Hn1.
      + rewrite !list_lookup_alter_eq, Hp in Hq'. injection Hq' as <-.
        by rewrite decide_True.
      + rewrite list_lookup_alter_eq, Hp in Hq'. injection Hq' as <-.
        rewrite decide_False; [done|]. by intros [_ ?].
    - rewrite Hother in Hq' by done. exists q'. split; [done|].
      rewrite decide_False; [done|]. by intros [? _]. }
  assert (S (length (activePlayers ps2)) = length (activePlayers (players g))) as Hact.
  { rewrite <-(length_activePlayers_finish n seat p (players g)) by done.
    f_equal. apply length_activePlayers_positions. unfold ps2. case_decide; [|done].
    by apply positions_alter. }
  destruct (list_find _ ps2) as [[last q]|] eqn:Hfind.
  - apply list_find_Some in Hfind as (Hlast & Hq & _).
    assert (last ≠ seat) as Hne.
    { intros ->. unfold ps2, ps1 in Hlast.
      case_decide; rewrite ?list_lookup_alter_eq, Hp in Hlast;
        injection Hlast as <-; done. }
    pose proof Hlast as Hlast'. rewrite Hother in Hlast' by done.
    pose proof (activePlayers_lookup ps2 last q Hlast Hq) as Hin.
    destruct (decide (length (activePlayers ps2) ≤ 1)) as [Hle|Hle]; simpl.
    + split_and!; try done.
      * intros j q' Hq'. destruct (decide (j = last)) as [->|Hjl].
        -- rewrite list_lookup_alter_eq, Hlast in Hq'. injection Hq' as <-.
           destruct (Hmark last q Hlast) as (q0 & Hq0 & Hw). by exists q0.
        -- rewrite list_lookup_alter_ne in Hq' by done. by apply Hmark.
      * right. split.
        { destruct (activePlayers ps2) as [|? [|? ?]];
            [by apply not_elem_of_nil in Hin|simpl in Hact; lia|simpl in Hle; lia]. }
        exists last, q. split_and!; try done. by destruct (gameLoser g).
    + split_and!; try done. left. split; [lia|done].
  - apply list_find_None in Hfind.
    assert (activePlayers ps2 = []) as Hnil.
    { apply activePlayers_nil. intros i r Hi Hr.
      rewrite Forall_forall in Hfind. apply (Hfind r); [|done].
      by eapply list_elem_of_lookup_2. }
    rewrite Hnil in Hact. simpl in *. split_and!; try done. left. split; [lia|done].
Qed.
End podium.

Section podium_steps.
Implicit Types (g : GameState) (p q : Player).

(** The positions and the loser after [handlePlayerFinished], with
    [lastOne] the player who is given the last position, if any. *)
Lemma handlePlayerFinished_positions g seat p :
  players g !! seat = Some p → finishPosition p = None →
  finishedPlayers g + 1 ≤ 3 → length (players g) = 4 → gameLoser g = None →
  let g' := handlePlayerFinished g seat in
  let n := finishedPlayers g + 1 in
  ∃ lastOne : option nat,
    gameLoser g' = lastOne ∧
    (∀ l, lastOne = Some l → l ≠ seat ∧ positionAt g' l 4 ∧
          ∀ k, ¬ positionAt g l k) ∧
    positionAt g' seat n ∧
    (∀ j, j ≠ seat → lastOne ≠ Some j → players g' !! j = players g !! j).
Proof.
  intros Hp Hnone Hn H4 Hloser g' n.
  destruct (handlePlayerFinished_spec g seat p Hp Hnone)
    as (_ & (p' & Hp' & Hn' & _) & Hcases); [lia|].
  destruct (handlePlayerFinished_podium g seat p Hp Hnone)
    as (_ & _ & _ & _ & Hlast); [lia|].
  fold g' in Hp', Hcases, Hlast. fold n in Hn'.
  assert (positionAt g' seat n) as Hseat by by apply (positionAt_lookup g' seat p').
  destruct Hcases as [(Hne2 & _ & _ & Hoth)|(He2 & _ & _ & last & q & Hcase)].
  - exists None. destruct Hlast as [[_ Hl]|[He2 _]]; [|done].
    split_and!; try done; [by rewrite Hl|]. intros j Hj _. by apply Hoth.
  - destruct Hcase as (Hls & Hq & Hqn & Hq' & Hrest).
    exists (Some last).
    destruct Hlast as [[Hne2 _]|[_ (l' & q0 & Hl's & Hq0 & Hq0n & Hl)]]; [done|].
    assert (l' = last) as ->.
    { destruct (decide (l' = last)) as [|Hne]; [done|].
      destruct (Hrest l' Hl's Hne) as [_ Hfin]. by destruct (Hfin q0). }
    rewrite Hloser in Hl. split_and!; try done.
    + intros l [= <-]. split_and!; [done| |].
      * apply (positionAt_lookup g' last _ 4 Hq'). simpl. by rewrite H4.
      * intros k Hk%(positionAt_lookup g last q k Hq). congruence.
    + intros j Hj Hjl. apply Hrest; [done|]. by intros ->.
Qed.

Lemma podiumKept_finish g seat p :
  players g !! seat = Some p → finishPosition p = None →
  finishedPlayers g + 1 ≤ 3 → length (players g) = 4 →
  (∀ j k, positionAt g j k → 1 ≤ k ≤ finishedPlayers g) →
  podiumKept g → podiumKept (handlePlayerFinished g seat).
Proof.
  intros Hp Hnone Hn H4 Hfin [Hw Hs Ht Hl Hi].
  assert (gameLoser g = None) as Hloser.
  { destruct (gameLoser g) as [i|] eqn:Hi4; [|done].
    pose proof (proj1 (Hl i) eq_refl) as H4'%Hfin. lia. }
  destruct (handlePlayerFinished_positions g seat p Hp Hnone Hn H4 Hloser)
    as (lastOne & Hlast & Hlast4 & Hseat & Hoth).
  destruct (handlePlayerFinished_podium g seat p Hp Hnone)
    as (Hgw & Hgs & Hgt & Hmark & _); [lia|].
  set (g' := handlePlayerFinished g seat) in *.
  set (n := finishedPlayers g + 1) in *.
  assert (¬ ∃ k, positionAt g seat k) as Hseat0.
  { intros [k Hk]. apply (positionAt_lookup g seat p k Hp) in Hk. congruence. }
  assert (∀ j k, positionAt g' j k ↔
            (j = seat ∧ k = n) ∨ (lastOne = Some j ∧ k = 4) ∨
            (j ≠ seat ∧ lastOne ≠ Some j ∧ positionAt g j k)) as Hpos.
  { intros j k. destruct (decide (j = seat)) as [->|Hj].
    - unfold positionAt in Hseat |- *. rewrite Hseat. split.
      + intros [= <-]. by left.
      + intros [[_ ->]|[[Hls _]|[? _]]]; [done| |done].
        by destruct (Hlast4 seat Hls) as [? _].
    - destruct (decide (lastOne = Some j)) as [Hjl|Hjl].
      + destruct (Hlast4 j Hjl) as (_ & H4' & Hno). unfold positionAt in H4' |- *.
        rewrite H4'. split.
        * intros [= <-]. right. by left.
        * intros [[? _]|[[_ ->]|(_ & ? & _)]]; done.
      + unfold positionAt. rewrite (Hoth j Hj Hjl). split.
        * intros Hk. right. by right.
        * intros [[? _]|[[? _]|(_ & _ & ?)]]; done. }
  assert (∀ k field field',
            1 ≤ k ≤ 3 →
            field' = (if decide (n = k) then Some seat else field) →
            (∀ i, field = Some i ↔ positionAt g i k) →
            ∀ i, field' = Some i ↔ positionAt g' i k) as Hfield.
  { intros k field field' Hk -> Hold i. rewrite Hpos.
    destruct (decide (n = k)) as [Hnk|Hnk].
    - split.
      + intros [= <-]. left. split; [done|]. symmetry. exact Hnk.
      + intros [[-> _]|[[_ ->]|(_ & _ & Hg)]]; [done|lia|].
        apply Hfin in Hg. unfold n in Hnk. lia.
    - rewrite Hold. split.
      + intros Hg. right. right. split_and!; [|intros Hls|done].
        * intros ->. apply Hseat0. by exists k.
        * destruct (Hlast4 i Hls) as (_ & _ & Hno). by apply (Hno k).
      + intros [[_ ->]|[[_ ->]|(_ & _ & Hg)]]; [done|lia|done]. }
  split.
  - by apply (Hfield 1 (gameWinner g)); [lia|..].
  - by apply (Hfield 2 (gameSecond g)); [lia|..].
  - by apply (Hfield 3 (gameThird g)); [lia|..].
  - intros i. rewrite Hpos, Hlast. split.
    + intros Hls. right. by left.
    + intros [[_ ?]|[[? _]|(_ & _ & Hg)]]; [lia|done|].
      apply Hfin in Hg. lia.
  - intros j q' Hq'. destruct (Hmark j q' Hq') as (q & Hq & Hmk).
    rewrite <-(positionAt_lookup g' j q' 1 Hq').
    rewrite Hpos, Hmk. destruct (decide (j = seat ∧ n = 1)) as [Hjn|Hjn].
    + split; [|done]. intros _. left. destruct Hjn as [-> <-]. done.
    + rewrite (Hi j q Hq).
      rewrite <-(positionAt_lookup g j q 1 Hq).
      split.
      * intros Hg. right. right. split_and!; [|intros Hls|done].
        -- intros ->. apply Hseat0. by exists 1.
        -- destruct (Hlast4 j Hls) as (_ & _ & Hno). by apply (Hno 1).
      * intros [[-> <-]|[[_ ?]|(_ & _ & Hg)]]; [by destruct Hjn|lia|done].
Qed.

Lemma podiumKept_playCards g seat cards b g' :
  seated g → bookkept g → podiumKept g →
  playCards g seat cards = Some (b, g') → podiumKept g'.
Proof.
  intros Hs Hbk Hk Hplay. destruct b.
  - destruct (accepted_in_match g seat cards g' Hs Hbk Hplay)
      as (p & h' & Hp & Hseat & Hpl & Hnone & Hperm & Hne & ->).
    apply podiumKept_nextTurn.
    assert (podiumKept (afterPlay g seat p h' cards)) as Hk1.
    { apply (podiumKept_same g); try done. simpl. by apply (standing_insert seat p). }
    unfold afterFinish. case_decide as Hh'; [|done].
    apply (podiumKept_finish _ seat (set_hand h' p)); try done.
    + simpl. apply list_lookup_insert_eq. by eapply lookup_lt_Some.
    + simpl. destruct (bk_count g Hbk Hpl). lia.
    + simpl. rewrite length_insert. apply (seated_four g Hs).
    + intros j k Hjk.
      apply (positionAt_standing g (afterPlay g seat p h' cards)) in Hjk;
        [|simpl; by apply (standing_insert seat p)].
      destruct (players g !! j) as [q|] eqn:Hq; [|by unfold positionAt in Hjk; rewrite Hq in Hjk].
      apply (positionAt_lookup g j q k Hq) in Hjk.
      by destruct (bk_finished g Hbk Hpl j q k Hq Hjk).
  - apply playCards_rejected_inv in Hplay
      as [->|(p & h' & Hp & _ & _ & _ & ->)]; [done|].
    apply (podiumKept_same g); try done. simpl. by apply (standing_insert seat p).
Qed.

Lemma reachable_podiumKept g : reachable g → podiumKept g.
Proof.
  induction 1 as [rand infos H4 Hnd|g a b g' Hg IH Ha].
  - assert (∀ i k, ¬ positionAt (newGameState rand infos) i k) as Hno.
    { intros i k Hk.
      destruct (players (newGameState rand infos) !! i) as [p|] eqn:Hp;
        [|by unfold positionAt in Hk; rewrite Hp in Hk].
      apply (positionAt_lookup _ i p k Hp) in Hk.
      by rewrite (positions_newGameState rand infos i p Hp) in Hk. }
    assert (gameWinner (newGameState rand infos) = None ∧
            gameSecond (newGameState rand infos) = None ∧
            gameThird (newGameState rand infos) = None ∧
            gameLoser (newGameState rand infos) = None) as (H1 & H2 & H3 & H4').
    { unfold newGameState. by destruct (dealCards _ _). }
    split; rewrite ?H1, ?H2, ?H3, ?H4'.
    1-4: (intros i; split; [done|]; by intros ?%Hno).
    intros i p Hp. rewrite (positions_newGameState rand infos i p Hp).
    split; [|done]. intros Hw. exfalso. revert Hw Hp. unfold newGameState.
    set (ps := imap _ infos).
    pose proof (dealCards_lookup ps (createDeck rand)) as Hlook.
    destruct (dealCards ps (createDeck rand)) as [ps' d']. cbn [fst players] in *.
    intros Hw Hp. destruct (Hlook i p Hp) as (p0 & Hp0 & ->). simpl in Hw.
    unfold ps in Hp0. rewrite list_lookup_imap in Hp0.
    destruct (infos !! i); by simplify_eq/=.
  - pose proof (reachable_seated g Hg) as Hs.
    pose proof (reachable_bookkept g Hg) as Hbk.
    destruct a as [seat cards|seat]; simpl in Ha.
    + by eapply podiumKept_playCards.
    + unfold onSkipTurn in Ha. case_decide; [by injection Ha as _ <-|].
      destruct (skipTurn g) as [g1|] eqn:Hsk; [|done]. simpl in Ha.
      injection Ha as _ <-. by eapply podiumKept_skipTurn.
Qed.
End podium_steps.

(** X28.  The podium agrees with the finish positions.  In every state of a
    match [gameWinner], [gameSecond], [gameThird] and [gameLoser] refer to
    the seats of the players with the finish positions 1, 2, 3 and 4 and are
    [null] while nobody has that position, and [isWinner] marks exactly the
    player with position 1. *)
Theorem podium_agrees_with_positions (g : GameState) :
  reachable g →
  (∀ i, gameWinner g = Some i ↔ positionAt g i 1) ∧
  (∀ i, gameSecond g = Some i ↔ positionAt g i 2) ∧
  (∀ i, gameThird g = Some i ↔ positionAt g i 3) ∧
  (∀ i, gameLoser g = Some i ↔ positionAt g i 4) ∧
  (∀ i p, players g !! i = Some p →
          (isWinner p = true ↔ finishPosition p = Some 1)).
Proof. intros [? ? ? ? ?]%reachable_podiumKept. done. Qed.

(** The podium of the match that was played to its end. *)
Lemma podium_agrees_with_positions_witness :
  (∀ i, gameWinner matchOver = Some i ↔ positionAt matchOver i 1) ∧
  (∀ i, gameSecond matchOver = Some i ↔ positionAt matchOver i 2) ∧
  (∀ i, gameThird matchOver = Some i ↔ positionAt matchOver i 3) ∧
  (∀ i, gameLoser matchOver = Some i ↔ positionAt matchOver i 4) ∧
  (∀ i p, players matchOver !! i = Some p →
          (isWinner p = true ↔ finishPosition p = Some 1)).
Proof.
  apply (podium_agrees_with_positions matchOver).
  apply reachable_afterRun. eexists. by vm_compute.
Defined.

(** ** Playing a match to its end *)

Section moving_on.
Implicit Types (g : GameState) (p : Player).

(** What a skip with a round leader leaves: an empty table, or the table as
    it was and a turn counter that is still short of the active players. *)
Lemma skipTurn_outcome g g' l :
  seated g → roundLeader g = Some l → skipTurn g = Some g' →
  currentHighestCards g' = [] ∨
  (currentHighestCards g' = currentHighestCards g ∧
   currentRound g' = currentRound g + 1 ∧
   currentRound g + 1 < length (activePlayers (players g))).
Proof.
  intros Hs Hl. unfold skipTurn.
  destruct (players g !! currentPlayerIndex g) as [current|]; [|done]. simpl.
  intros [= <-]. set (g1 := set_playersWhoSkipped _ g).
  assert (∀ x, roundLeader x = Some l → length (players x) = 4 →
            currentHighestCards (endRound x) = []) as Hend.
  { intros x Hx Hx4. destruct (endRound_leader x l Hx) as (_ & ? & _); [|done].
    rewrite Hx4. by apply (seated_leader g Hs). }
  pose proof (seated_four g Hs) as H4.
  assert (roundLeader (nextTurn g1) = Some l) as Hnl by by rewrite roundLeader_nextTurn.
  assert (length (players (nextTurn g1)) = 4) as Hn4 by by rewrite players_nextTurn.
  assert (currentHighestCards (nextTurn g1) = [] ∨
          (currentHighestCards (nextTurn g1) = currentHighestCards g ∧
           currentRound (nextTurn g1) = currentRound g + 1 ∧
           currentRound g + 1 < length (activePlayers (players g)))) as Hnext.
  { rewrite nextTurn_advance. change (players g1) with (players g).
    change (currentRound g1) with (currentRound g). case_decide as Hround.
    - left. by apply Hend.
    - right. split_and!; [done|done|lia]. }
  rewrite Hnl.
  repeat (case_match || case_decide); try done; left; by apply Hend.
Qed.

Lemma length_activePlayers_le (ps : list Player) :
  length (activePlayers ps) ≤ length ps.
Proof. apply length_filter. Qed.

Lemma turnsToLead_le g : seated g → turnsToLead g ≤ 6.
Proof.
  intros Hs. unfold turnsToLead. pose proof (length_activePlayers_le (players g)) as Hle.
  rewrite (seated_four g Hs) in Hle.
  destruct (currentHighestCards g); [by case_match; lia|lia].
Qed.

(** The request [moveOn] is always applied while the game goes on, and
    brings the match nearer to its end. *)
Lemma moveOn_progress g :
  reachable g → gamePhase g = playing →
  ∃ b g', perform g (moveOn g) = Some (b, g') ∧ toGo g' < toGo g.
Proof.
  intros Hreach Hpl.
  pose proof (reachable_seated g Hreach) as Hs.
  pose proof (reachable_bookkept g Hreach) as Hbk.
  pose proof (reachable_tableKept g Hreach) as Ht.
  destruct (lookup_lt_is_Some_2 (players g) (currentPlayerIndex g)) as [p Hp].
  { rewrite (seated_four g Hs). apply (seated_current g Hs). }
  unfold moveOn. rewrite Hp.
  destruct (finishPosition p) as [k|] eqn:Hk.
  - (* a player who is out skips *)
    assert (finishedAt (players g) (currentPlayerIndex g) = true) as Hfin.
    { unfold finishedAt. rewrite Hp, Hk. by apply bool_decide_eq_true_2. }
    destruct (skipTurn_stuck g Hreach Hpl Hfin) as (g' & Ha & Hfin' & Hps & Ht' & _).
    destruct (reachable_turnKept g Hreach Hfin) as [_ _ (_ & _ & _ & Htable) _].
    exists true, g'. split; [done|].
    unfold toGo, turnsToLead, cardsLeft. rewrite Ht', Htable, Hfin', Hfin, Hps. lia.
  - assert (hand p ≠ []) as Hhand by by apply (bk_active g Hbk _ p Hp).
    destruct (currentHighestCards g) as [|t ts] eqn:Htable.
    + (* the current player leads a card *)
      destruct (hand p) as [|card rest] eqn:Hh; [done|].
      assert (removeCards (hand p) [] [card] = inl (rest, [card])) as Hr.
      { rewrite Hh. simpl. rewrite decide_True by done. done. }
      assert (playCards g (currentPlayerIndex g) [card] =
                Some (true, nextTurn (afterFinish
                  (afterPlay g (currentPlayerIndex g) p rest [card])
                  (currentPlayerIndex g) rest))) as Hplay.
      { apply (playCards_accepted_intro g _ [card] p p rest); try done.
        - unfold beats. rewrite Htable. simpl. by rewrite bool_decide_true.
        - intros c ->%list_elem_of_singleton. rewrite Hh. left. }
      eexists true, _. split; [exact Hplay|].
      assert (seated (nextTurn (afterFinish
                (afterPlay g (currentPlayerIndex g) p rest [card])
                (currentPlayerIndex g) rest))) as Hs'
        by (by eapply seated_playCards).
      pose proof (turnsToLead_le _ Hs') as Hw.
      assert (cardsLeft g = S (cardsLeft (nextTurn (afterFinish
                (afterPlay g (currentPlayerIndex g) p rest [card])
                (currentPlayerIndex g) rest)))) as Hcards.
      { unfold cardsLeft. rewrite players_nextTurn.
        assert (hand <$> players (afterFinish
                  (afterPlay g (currentPlayerIndex g) p rest [card])
                  (currentPlayerIndex g) rest)
                = hand <$> <[currentPlayerIndex g := set_hand rest p]> (players g))
          as ->.
        { unfold afterFinish. case_decide; [|done]. by rewrite hands_handlePlayerFinished. }
        rewrite (hands_insert (players g) (currentPlayerIndex g) p [card] rest Hp)
          by by rewrite Hh.
        done. }
      unfold toGo. rewrite Hcards. lia.
    + (* the current player skips on the cards of the table *)
      destruct (roundLeader g) as [l|] eqn:Hl;
        [|by destruct (tk_opening g Ht Hl) as [Hnil _]; rewrite Hnil in Htable].
      simpl. unfold onSkipTurn. rewrite decide_False by (intros ?; done).
      assert (is_Some (skipTurn g)) as [g' Hsk].
      { unfold skipTurn. rewrite Hp. simpl. by eexists. }
      rewrite Hsk. simpl. exists true, g'. split; [done|].
      destruct (skipTurn_bookkeeping g g' Hsk) as (Hps & _).
      unfold toGo, cardsLeft, turnsToLead. rewrite Hps, Htable.
      destruct (skipTurn_outcome g g' l Hs Hl Hsk) as [->|(-> & -> & Hround)].
      * case_match; lia.
      * rewrite Htable. lia.
Qed.

Lemma finish_within n g :
  toGo g < n → reachable g →
  ∃ actions g', run g actions = Some g' ∧ gamePhase g' = gameOver ∧
                length actions ≤ toGo g.
Proof.
  revert g. induction n as [|n IH]; intros g Hlt Hreach; [lia|].
  destruct (bk_phase g (reachable_bookkept g Hreach)) as [Hpl|Hgo].
  - destruct (moveOn_progress g Hreach Hpl) as (b & g1 & Ha & Hless).
    destruct (IH g1) as (actions & g' & Hrun & Hover & Hlen);
      [lia|by eapply reachable_step|].
    exists (moveOn g :: actions), g'. simpl. rewrite Ha. simpl.
    split_and!; [done|done|lia].
  - exists [], g. split_and!; [done|done|simpl; lia].
Qed.
End moving_on.

(** X29.  No match gets stuck.  From every state a match reaches, the game
    can be played to its end: there are requests, at most [8] for each card
    left in the hands and [6] more, in fact those of [moveOn], made one
    after the other by the seat that has the turn, after which the phase
    is [gameOver]. *)
Theorem match_can_be_finished (g : GameState) :
  reachable g →
  ∃ actions g', run g actions = Some g' ∧ gamePhase g' = gameOver ∧
                length actions ≤ 8 * cardsLeft g + 6.
Proof.
  intros Hreach.
  destruct (finish_within (S (toGo g)) g) as (actions & g' & Hrun & Hover & Hlen);
    [lia|done|].
  exists actions, g'. split_and!; [done|done|].
  pose proof (turnsToLead_le g (reachable_seated g Hreach)). unfold toGo in Hlen. lia.
Qed.

Lemma match_can_be_finished_witness :
  ∃ actions g', run seatZeroGone actions = Some g' ∧ gamePhase g' = gameOver ∧
                length actions ≤ 8 * cardsLeft seatZeroGone + 6.
Proof.
  apply (match_can_be_finished seatZeroGone).
  apply reachable_afterRun. eexists. by vm_compute.
Defined.

(** ** The hot-seat client *)

Module ClientFacts.
Import Client.

Lemma client_table_nextPlayer g :
  currentHighestCards g = [] → currentHighestCards (nextPlayer g) = [].
Proof. intros He. unfold nextPlayer. case_decide; done. Qed.

Lemma client_players_nextPlayer g : players (nextPlayer g) = players g.
Proof. unfold nextPlayer. case_decide; done. Qed.

(** The client clears the table when a player goes out and the game goes
    on. *)
Lemma client_finishing_play_clears_table g seat cards g' :
  playCards g seat cards = Some (true, g') →
  hand <$> players g' !! seat = Some [] →
  finishedPlayers g + 1 < length (players g) →
  currentHighestCards g' = [].
Proof.
  unfold playCards. intros H Hempty Hlt.
  destruct (players g !! seat) as [player|] eqn:Hp; [|done]. simpl in H.
  destruct (canPlayCards g seat cards); [|done]. simpl in H.
  destruct (removeCards (hand player) [] cards) as [[h' pc]|h']; [|done].
  injection H as <-. rewrite client_players_nextPlayer in Hempty.
  apply client_table_nextPlayer. case_decide as Hh'.
  - simpl. by rewrite bool_decide_false by lia.
  - simpl in Hempty.
    rewrite list_lookup_insert_eq in Hempty by by eapply lookup_lt_Some.
    by simplify_eq/=.
Qed.

(** The client's put-back has the same effect as the server's: the rejected
    request that names the 3 of hearts twice moves it behind the 9. *)
Lemma client_put_back_reorders_hand :
  (λ r, (r.1, hand <$> players r.2)) <$>
    playCards twoAtTable 0 [mkCard "hearts" "3" 1; mkCard "hearts" "3" 1]
  = Some (false, [[mkCard "clubs" "9" 7; mkCard "hearts" "3" 1];
                  [mkCard "spades" "K" 11]]).
Proof. by vm_compute. Qed.

Lemma client_swap_Permutation (cards : list Card) i j : swap cards i j ≡ₚ cards.
Proof.
  unfold swap. destruct (cards !! i) as [x|] eqn:Hi; [|done].
  destruct (cards !! j) as [y|] eqn:Hj; [|done].
  by apply Permutation_insert_swap.
Qed.

Lemma client_shuffle_from_Permutation rand i k (cards : list Card) :
  shuffle_from rand i k cards ≡ₚ cards.
Proof.
  revert k cards. induction i as [|i IH]; intros k cards; simpl; [done|].
  by rewrite IH, client_swap_Permutation.
Qed.

Lemma client_shuffle_Permutation rand (cards : list Card) :
  shuffle rand cards ≡ₚ cards.
Proof. apply client_shuffle_from_Permutation. Qed.

Lemma client_NoDup_createDeck : NoDup createDeck.
Proof. apply (bool_decide_unpack _). by vm_compute. Qed.

Lemma client_length_createDeck : length createDeck = 52.
Proof. by vm_compute. Qed.

Lemma client_dealCards_S (cards : list Card) n k :
  dealCards cards (S n) k = dealCards cards n k ++ [take k (drop (n * k) cards)].
Proof. unfold dealCards. by rewrite seq_S, fmap_app. Qed.

Lemma client_dealCards_concat (cards : list Card) n k :
  concat (dealCards cards n k) = take (n * k) cards.
Proof.
  induction n as [|n IH]; [done|].
  rewrite client_dealCards_S, concat_app, IH. simpl. rewrite app_nil_r.
  rewrite take_take_drop. f_equal. lia.
Qed.

(** X20.  [Deck.dealCards] hands out consecutive slices of the deck and
    leaves the deck as it is: it gives as many hands as there are players,
    the hands laid end to end are the first [numberOfPlayers *
    cardsPerPlayer] cards of the deck, and while the deck has cards enough
    for a player, that player's hand has [cardsPerPlayer] cards. *)
Theorem client_dealCards_slices (cards : list Card) (numberOfPlayers cardsPerPlayer : nat) :
  length (dealCards cards numberOfPlayers cardsPerPlayer) = numberOfPlayers ∧
  concat (dealCards cards numberOfPlayers cardsPerPlayer)
    = take (numberOfPlayers * cardsPerPlayer) cards ∧
  ∀ i h, dealCards cards numberOfPlayers cardsPerPlayer !! i = Some h →
         (i + 1) * cardsPerPlayer ≤ length cards → length h = cardsPerPlayer.
Proof.
  split_and!.
  - unfold dealCards. by rewrite length_fmap, length_seq.
  - apply client_dealCards_concat.
  - intros i h Hi Hlen. unfold dealCards in Hi. rewrite list_lookup_fmap in Hi.
    destruct (seq 0 numberOfPlayers !! i) as [j|] eqn:Hj; [|done].
    apply lookup_seq in Hj as [-> _]. injection Hi as <-.
    rewrite length_take, length_drop. simpl. lia.
Qed.

(** X21.  A new game of the page deals one deck.  For four names,
    [startNewGame] seats the players in the order of the names, deals each
    thirteen cards, and the four hands together hold the 52 cards of
    [createDeck], each once; a seat is drawn to begin on an empty table.
    With another number of names nothing is started. *)
Theorem client_deal_is_one_deck (rand : nat → nat) (playerNames : list string) :
  (length playerNames ≠ 4 → startNewGame rand playerNames = None) ∧
  (length playerNames = 4 →
   ∃ g, startNewGame rand playerNames = Some g ∧
        name <$> players g = playerNames ∧
        Forall (λ p, length (hand p) = 13) (players g) ∧
        concat (hand <$> players g) ≡ₚ createDeck ∧
        NoDup (concat (hand <$> players g)) ∧
        currentPlayerIndex g < 4 ∧
        currentHighestCards g = [] ∧
        gamePhase g = playing).
Proof.
  unfold startNewGame. split; intros Hlen.
  - by rewrite decide_True.
  - rewrite decide_False by lia.
    pose proof (client_shuffle_Permutation (λ k, rand (S k)) createDeck) as Hperm.
    revert Hperm. generalize (shuffle (λ k, rand (S k)) createDeck).
    intros cards Hperm.
    assert (length cards = 52) as Hcards
      by (rewrite Hperm; apply client_length_createDeck).
    pose proof (client_dealCards_concat cards 4 13) as Hcat.
    rewrite take_ge in Hcat by (rewrite Hcards; lia).
    destruct playerNames as [|n0 [|n1 [|n2 [|n3 [|]]]]]; try done.
    assert (∀ i, i < 4 → length (take 13 (drop (i * 13) cards)) = 13) as H13.
    { intros i Hi. rewrite length_take, length_drop. lia. }
    eexists. split; [reflexivity|]. cbn. cbn in Hcat. split_and!; try done.
    + repeat constructor; cbn;
        [apply (H13 0)|apply (H13 1)|apply (H13 2)|apply (H13 3)]; lia.
    + by rewrite Hcat.
    + rewrite Hcat, Hperm. apply client_NoDup_createDeck.
    + apply (randomBelow_lt (rand 0) 4). lia.
Qed.

Lemma client_deal_is_one_deck_witness :
  ∃ g, startNewGame (λ _, 0) ["Ana"; "Bruno"; "Caio"; "Duda"] = Some g ∧
       name <$> players g = ["Ana"; "Bruno"; "Caio"; "Duda"] ∧
       Forall (λ p, length (hand p) = 13) (players g) ∧
       concat (hand <$> players g) ≡ₚ createDeck ∧
       NoDup (concat (hand <$> players g)) ∧
       currentPlayerIndex g < 4 ∧
       currentHighestCards g = [] ∧
       gamePhase g = playing.
Proof.
  apply (proj2 (client_deal_is_one_deck (λ _, 0) ["Ana"; "Bruno"; "Caio"; "Duda"])).
  reflexivity.
Defined.

Lemma client_playCard_Some (h : list Card) card c h' :
  playCard h card = Some (c, h') → h ≡ₚ c :: h'.
Proof.
  unfold playCard. destruct (list_find (sameCard card) h) as [[i x]|] eqn:Hf; [|done].
  intros [= <- <-]. apply list_find_Some in Hf as (Hi & _).
  by apply delete_Permutation.
Qed.

(** When the removal loop gives up, the hand holds the cards it held. *)
Lemma client_removeCards_inr (h played cards h' : list Card) :
  removeCards h played cards = inr h' → h' ≡ₚ h ++ played.
Proof.
  revert h played. induction cards as [|card rest IH]; intros h played; simpl; [done|].
  destruct (playCard h card) as [[c h1]|] eqn:Hp.
  - apply client_playCard_Some in Hp. intros ->%IH.
    rewrite Hp. simpl. rewrite app_assoc. symmetry.
    apply Permutation_cons_append.
  - by intros [= <-].
Qed.

(** X22.  A rejected [playCards] of the page changes nothing but, at most,
    the order of the cards in the hand of the player it was made for. *)
Theorem client_rejected_play_keeps_cards
    (g : GameState) (seat : nat) (cards : list Card) (g' : GameState) :
  playCards g seat cards = Some (false, g') →
  ∃ p h', players g !! seat = Some p ∧ h' ≡ₚ hand p ∧
          g' = mkGame (<[seat := set_hand h' p]> (players g))
                 (currentPlayerIndex g) (currentRound g) (currentHighestCard g)
                 (currentHighestCards g) (roundWinner g) (gamePhase g) (zIndex g)
                 (finishedPlayers g) (gameWinner g) (gameSecond g) (gameThird g)
                 (gameLoser g).
Proof.
  unfold playCards. intros H.
  destruct (players g !! seat) as [p|] eqn:Hp; [|done]. simpl in H.
  exists p. destruct (canPlayCards g seat cards); simpl in H.
  - destruct (removeCards (hand p) [] cards) as [[h' pc]|h'] eqn:Hr; [done|].
    injection H as <-. exists h'. split_and!; try done.
    apply client_removeCards_inr in Hr. by rewrite app_nil_r in Hr.
  - injection H as <-. exists (hand p). split_and!; try done.
    assert (set_hand (hand p) p = p) as -> by by destruct p.
    rewrite list_insert_id by done. by destruct g.
Qed.

(** Ana asks for her 3 of hearts and for a card she does not hold. *)
Lemma client_rejected_play_keeps_cards_witness :
  ∃ g' p h',
    playCards twoAtTable 0 [mkCard "hearts" "3" 1; mkCard "spades" "3" 1]
      = Some (false, g') ∧
    players twoAtTable !! 0 = Some p ∧ h' ≡ₚ hand p ∧
    g' = mkGame (<[0 := set_hand h' p]> (players twoAtTable))
           (currentPlayerIndex twoAtTable) (currentRound twoAtTable)
           (currentHighestCard twoAtTable) (currentHighestCards twoAtTable)
           (roundWinner twoAtTable) (gamePhase twoAtTable) (zIndex twoAtTable)
           (finishedPlayers twoAtTable) (gameWinner twoAtTable)
           (gameSecond twoAtTable) (gameThird twoAtTable) (gameLoser twoAtTable).
Proof.
  eexists.
  destruct (client_rejected_play_keeps_cards twoAtTable 0
              [mkCard "hearts" "3" 1; mkCard "spades" "3" 1] _
              ltac:(by vm_compute)) as (p & h' & H).
  exists p, h'. split; [by vm_compute|exact H].
Defined.

(** X23.  [Card.canBePlayed] and [Card.compareTo] agree: a card can be played
    on another exactly when it compares as higher; comparing the other way
    round gives the opposite sign, and [0] exactly for equal values.  On an
    empty table every card can be played. *)
Theorem client_canBePlayed_compareTo (c highest : Card) :
  canBePlayed c (Some highest) = bool_decide (compareTo c highest = 1%Z) ∧
  compareTo highest c = (- compareTo c highest)%Z ∧
  (compareTo c highest = 0%Z ↔ value c = value highest) ∧
  canBePlayed c None = true.
Proof.
  unfold canBePlayed, compareTo. split_and!; [| | |done].
  - repeat case_decide; try lia; by rewrite ?bool_decide_true, ?bool_decide_false by lia.
  - repeat case_decide; lia.
  - repeat case_decide; lia.
Qed.

Lemma client_bookkeeping_nextPlayer g :
  finishedPlayers (nextPlayer g) = finishedPlayers g ∧
  gamePhase (nextPlayer g) = gamePhase g ∧
  (currentHighestCard g = None → currentHighestCard (nextPlayer g) = None).
Proof. unfold nextPlayer. by case_decide. Qed.

(** X24.  In the page's own engine a player who goes out while the game goes
    on gets the next finish position and the table is cleared at once, so
    that the next player starts afresh. *)
Theorem client_going_out_clears_table
    (g : GameState) (seat : nat) (cards : list Card) (g' : GameState) :
  playCards g seat cards = Some (true, g') →
  hand <$> players g' !! seat = Some [] →
  finishedPlayers g + 1 < length (players g) →
  currentHighestCards g' = [] ∧ currentHighestCard g' = None ∧
  finishPosition <$> players g' !! seat = Some (Some (finishedPlayers g + 1)) ∧
  finishedPlayers g' = finishedPlayers g + 1 ∧
  gamePhase g' = gamePhase g.
Proof.
  unfold playCards. intros H Hempty Hlt.
  destruct (players g !! seat) as [player|] eqn:Hp; [|done]. simpl in H.
  destruct (canPlayCards g seat cards); [|done]. simpl in H.
  destruct (removeCards (hand player) [] cards) as [[h' pc]|h']; [|done].
  injection H as <-. rewrite client_players_nextPlayer in Hempty |- *.
  assert (seat < length (players g)) as Hseat by by eapply lookup_lt_Some.
  case_decide as Hh'.
  - match goal with |- context [nextPlayer ?x] =>
      destruct (client_bookkeeping_nextPlayer x) as (-> & -> & Hc);
      rewrite (client_table_nextPlayer x), Hc
    end; simpl; rewrite ?bool_decide_false by lia; try done.
    split_and!; try done.
    rewrite list_lookup_alter_eq, list_lookup_insert_eq by done. done.
  - simpl in Hempty. rewrite list_lookup_insert_eq in Hempty by done.
    by simplify_eq/=.
Qed.

(** Bruno plays his king, his only card, on Ana's 3. *)
Lemma client_going_out_clears_table_witness :
  ∃ g', playCards anaPlayed 1 [mkCard "spades" "K" 11] = Some (true, g') ∧
    currentHighestCards g' = [] ∧ currentHighestCard g' = None ∧
    finishPosition <$> players g' !! 1 = Some (Some (finishedPlayers anaPlayed + 1)) ∧
    finishedPlayers g' = finishedPlayers anaPlayed + 1 ∧
    gamePhase g' = gamePhase anaPlayed.
Proof.
  eexists. split; [by vm_compute|].
  apply (client_going_out_clears_table anaPlayed 1 [mkCard "spades" "K" 11]).
  - by vm_compute.
  - by vm_compute.
  - vm_compute. lia.
Defined.

End ClientFacts.

(** ** The first page *)

Module LegacyFacts.
Import Legacy.

Lemma legacy_swap_Permutation (cartas : list Carta) i j : swap cartas i j ≡ₚ cartas.
Proof.
  unfold swap. destruct (cartas !! i) as [x|] eqn:Hi; [|done].
  destruct (cartas !! j) as [y|] eqn:Hj; [|done].
  by apply Permutation_insert_swap.
Qed.

Lemma legacy_shuffle_from_Permutation rand left k (cartas : list Carta) :
  shuffle_from rand left k cartas ≡ₚ cartas.
Proof.
  revert k cartas. induction left as [|left IH]; intros k cartas; simpl; [done|].
  by rewrite IH, legacy_swap_Permutation.
Qed.

(** It keeps the cards. *)
Lemma legacy_shuffle_Permutation rand (cartas : list Carta) :
  shuffle rand cartas ≡ₚ cartas.
Proof. exact (legacy_shuffle_from_Permutation rand 1000 0 cartas). Qed.

Lemma legacy_shuffle_from_same_place (c : nat) left k (cartas : list Carta) :
  shuffle_from (λ _, c) left k cartas = cartas.
Proof.
  revert k cartas. induction left as [|left IH]; intros k cartas; simpl; [done|].
  rewrite IH. unfold swap. destruct (cartas !! _) as [x|] eqn:Hx; [|done].
  by rewrite list_insert_insert_eq, list_insert_id.
Qed.

(** Unlike the runs of Fisher-Yates, runs with different draws, all in
    range, end in the same order. *)
Lemma legacy_shuffle_not_injective (cartas : list Carta) :
  2 ≤ length cartas →
  ∃ rand1 rand2,
    (∀ k, rand1 k < length cartas ∧ rand2 k < length cartas) ∧
    rand1 0 ≠ rand2 0 ∧
    shuffle rand1 cartas = shuffle rand2 cartas.
Proof.
  intros Hlen. exists (λ _, 0), (λ _, 1). split_and!; [intros; lia|done|].
  unfold shuffle.
  rewrite (legacy_shuffle_from_same_place 0 1000 0 cartas).
  by rewrite (legacy_shuffle_from_same_place 1 1000 0 cartas).
Qed.





(** X25.  The shuffle of the first page loses and copies no card: with at
    least one card in the deck, every draw is a place of the deck and the
    thousand exchanges leave the cards it held, in some order.  (On an empty
    deck the exchange writes at place 0 of the empty array.) *)
Theorem legacy_shuffle_keeps_cards (rand : nat → nat) (cartas : list Carta) :
  cartas ≠ [] →
  shuffle rand cartas ≡ₚ cartas ∧ length (shuffle rand cartas) = length cartas.
Proof.
  intros _. pose proof (legacy_shuffle_Permutation rand cartas) as Hperm.
  split; [done|]. by rewrite Hperm.
Qed.

Lemma legacy_shuffle_keeps_cards_witness :
  shuffle (λ k, k) (criarBaralho []) ≡ₚ criarBaralho [] ∧
  length (shuffle (λ k, k) (criarBaralho [])) = length (criarBaralho []).
Proof.
  apply (legacy_shuffle_keeps_cards (λ k, k) (criarBaralho [])).
  intros H. vm_compute in H. discriminate H.
Defined.

Lemma legacy_NoDup_criarBaralho : NoDup (criarBaralho []).
Proof. apply (bool_decide_unpack _). by vm_compute. Qed.

Lemma legacy_length_criarBaralho : length (criarBaralho []) = 52.
Proof. by vm_compute. Qed.

(** X26.  The first page deals one deck too: whatever the draws,
    [renderizarBaralho] gives the four players thirteen cards each, and the
    four hands together hold the 52 cards of [criarBaralho], each once. *)
Theorem legacy_deal_is_one_deck (rand : nat → nat) :
  length (renderizarBaralho rand) = 4 ∧
  Forall (λ h, length h = 13) (renderizarBaralho rand) ∧
  concat (renderizarBaralho rand) ≡ₚ criarBaralho [] ∧
  NoDup (concat (renderizarBaralho rand)).
Proof.
  unfold renderizarBaralho.
  pose proof (legacy_shuffle_Permutation rand (criarBaralho [])) as Hperm.
  revert Hperm. generalize (shuffle rand (criarBaralho [])). intros cartas Hperm.
  assert (length cartas = 52) as Hlen
    by (rewrite Hperm; apply legacy_length_criarBaralho).
  assert (concat [take 13 cartas; take 13 (drop 13 cartas);
                  take 13 (drop 26 cartas); take 13 (drop 39 cartas)] = cartas)
    as Hcat.
  { cbn [concat]. rewrite app_nil_r.
    replace (drop 26 cartas) with (drop 13 (drop 13 cartas))
      by (by rewrite drop_drop).
    replace (drop 39 cartas) with (drop 13 (drop 13 (drop 13 cartas)))
      by (by rewrite !drop_drop).
    rewrite (take_ge (drop 13 (drop 13 (drop 13 cartas))))
      by (rewrite !length_drop; lia).
    by rewrite !take_drop. }
  split_and!.
  - done.
  - repeat constructor; rewrite length_take, ?length_drop; lia.
  - by rewrite Hcat.
  - rewrite Hcat, Hperm. apply legacy_NoDup_criarBaralho.
Qed.

End LegacyFacts.
